(** * vice: simulation engine and controller-coordination protocol

    A shallow embedding of the parts of the simulator that its
    specification makes claims about:

    - [Cid]: the allocator of three-character CIDs (pkg/sim/cid.go);
    - [SimCore]: the fixed-timestep update loop, the handoff and point-out
      timers, controller sign-on and sign-off and the restriction areas
      (pkg/sim/sim.go);
    - [Manager]: the session registry, controller tokens and the culling
      of silent connections (server/manager.go);
    - [Dispatcher]: the aircraft command interpreter
      (pkg/server/dispatcher.go);
    - [TTS]: the text-to-speech quota (server/manager.go);
    - [Errors]: the decoding of errors sent over RPC
      (pkg/server/errors.go).

    Go maps are modelled as stdpp finite maps, Go's [int] and
    [time.Duration] as [Z], strings as [string]. *)

From Stdlib Require Import ZArith List String Ascii Lia Bool Permutation.
From stdpp Require Import base option gmap strings list fin_maps fin_sets.

Local Open Scope string_scope.
Local Open Scope list_scope.

(** Outcome of a Go call that can hit a run-time panic. *)
Inductive outcome (A : Type) : Type :=
| Done (a : A)
| Panic.
Arguments Done {A} a.
Arguments Panic {A}.

(* ===================================================================== *)
(** * CID allocation: pkg/sim/cid.go *)
(* ===================================================================== *)

Module Cid.

Definition preferredAlphas : list ascii :=
  ["P"; "K"; "N"; "Y"; "T"; "V"; "F"; "R"; "C"; "D"; "E"; "W"; "A"]%char.

Definition nonPreferredAlphas : list ascii :=
  ["M"; "X"; "L"; "J"; "U"; "B"; "G"; "Q"; "S"; "H"; "Z"]%char.

Definition digits : list ascii :=
  ["0"; "1"; "2"; "3"; "4"; "5"; "6"; "7"; "8"; "9"]%char.

(** [groups] is a slice of maps whose values are always nil: each map is
    its key set.  The random source is not part of the record: every
    [Allocate] receives what it draws from it. *)
Record CIDAllocator : Type := mkCIDAllocator {
  groups : list (gset string);
  cidGroup : gmap string nat;
  groupIndex : nat;
  allocated : gset string
}.

(** One call [add(idx, r1, r2, r3)] of the closure in [generateCIDGroups],
    as data. *)
Definition add_call : Type := (nat * ascii * ascii * ascii)%type.

Definition cid_of (r1 r2 r3 : ascii) : string :=
  String r1 (String r2 (String r3 EmptyString)).

Definition add (st : list (gset string) * gmap string nat) (a : add_call)
  : list (gset string) * gmap string nat :=
  let '(idx, r1, r2, r3) := a in
  let s := cid_of r1 r2 r3 in
  (alter (fun g => {[s]} ∪ g) idx (fst st), <[s := idx]> (snd st)).

(** [for x in xs { for y in ys { for z in zs { add(idx, f x y z) } } }] *)
Definition loop3 {A B C : Type} (xs : list A) (ys : list B) (zs : list C)
    (f : A -> B -> C -> add_call) : list add_call :=
  flat_map (fun x => flat_map (fun y => List.map (f x y) zs) ys) xs.

(** The calls of [add] in the order in which [generateCIDGroups] makes
    them. *)
Definition add_calls : list add_call :=
  loop3 digits digits digits (fun a b c => (0, a, b, c))
  ++ loop3 digits digits preferredAlphas (fun a b l => (1, a, b, l))
  ++ loop3 digits preferredAlphas preferredAlphas (fun a l1 l2 => (2, a, l1, l2))
  ++ loop3 digits preferredAlphas digits (fun a l b => (3, a, l, b))
  ++ loop3 digits digits nonPreferredAlphas (fun a b l => (4, a, b, l))
  ++ flat_map (fun d =>
       flat_map (fun a1 =>
         List.map (fun a2 => (5, d, a1, a2)) nonPreferredAlphas
         ++ List.map (fun a2 => (5, d, a1, a2)) preferredAlphas)
         nonPreferredAlphas
       ++ flat_map (fun a1 =>
            List.map (fun a2 => (5, d, a1, a2)) nonPreferredAlphas)
            preferredAlphas)
       digits
  ++ loop3 digits nonPreferredAlphas digits (fun a l b => (6, a, l, b)).

Definition generateCIDGroups : list (gset string) * gmap string nat :=
  fold_left add add_calls (replicate 7 ∅, ∅).

Definition NewCIDAllocator : CIDAllocator :=
  {| groups := fst generateCIDGroups;
     cidGroup := snd generateCIDGroups;
     groupIndex := 0;
     allocated := ∅ |}.

(** The skipping part of the loop in [Allocate]: starting at index [i] of
    the slice whose remaining maps are [gs], step over the empty maps.
    Returns the index reached and the map found there, if any. *)
Fixpoint seek (gs : list (gset string)) (i : nat) : nat * option (gset string) :=
  match gs with
  | [] => (i, None)
  | g :: rest => if decide (size g = 0) then seek rest (S i) else (i, Some g)
  end.

Definition errNoMoreCIDs : string := "no more CIDs available".

(** [Allocate].  [n] is what [c.rand.Intn(len(g))] returned and [order]
    the order in which [range g] yields the keys of the map drawn from;
    the key at position [n] is taken ([cid] stays the empty string when
    the iteration ends before position [n]). *)
Definition Allocate (order : list string) (n : nat) (c : CIDAllocator)
  : (string + string) * CIDAllocator :=
  match seek (drop (groupIndex c) (groups c)) (groupIndex c) with
  | (i, Some g) =>
      let cid := nth n order "" in
      (inl cid,
       {| groups := <[i := g ∖ {[cid]}]> (groups c);
          cidGroup := cidGroup c;
          groupIndex := i;
          allocated := {[cid]} ∪ allocated c |})
  | (i, None) =>
      (inr errNoMoreCIDs,
       {| groups := groups c; cidGroup := cidGroup c;
          groupIndex := i; allocated := allocated c |})
  end.

(** What the two draws of [Allocate] can be: [range g] enumerates the keys
    of the map drawn from, each once, and [Intn(len(g))] is below
    [len(g)]. *)
Definition valid_draw (c : CIDAllocator) (order : list string) (n : nat) : Prop :=
  forall g, snd (seek (drop (groupIndex c) (groups c)) (groupIndex c)) = Some g ->
    order ≡ₚ elements g /\ n < size g.

(** [Release].  The index expression [c.groups[idx]] panics when [idx] is
    out of range. *)
Definition Release (cid : string) (c : CIDAllocator) : outcome CIDAllocator :=
  if decide (cid ∈ allocated c) then
    let allocated' := allocated c ∖ {[cid]} in
    match cidGroup c !! cid with
    | None =>
        Done {| groups := groups c; cidGroup := cidGroup c;
                groupIndex := groupIndex c; allocated := allocated' |}
    | Some idx =>
        match groups c !! idx with
        | None => Panic
        | Some g =>
            Done {| groups := <[idx := {[cid]} ∪ g]> (groups c);
                    cidGroup := cidGroup c;
                    groupIndex := if Nat.ltb idx (groupIndex c) then idx else groupIndex c;
                    allocated := allocated' |}
        end
    end
  else Done c.

(** The allocators that a sequence of [Allocate] and [Release] calls
    produces from [NewCIDAllocator]. *)
Inductive reachable : CIDAllocator -> Prop :=
| reach_new : reachable NewCIDAllocator
| reach_allocate c order n :
    reachable c -> valid_draw c order n ->
    reachable (snd (Allocate order n c))
| reach_release c cid c' :
    reachable c -> Release cid c = Done c' -> reachable c'.

(** [cid] belongs to partition [i] of the code space that
    [generateCIDGroups] builds. *)
Definition in_partition (i : nat) (cid : string) : Prop :=
  exists g, fst generateCIDGroups !! i = Some g /\ cid ∈ g.

(** ** The partitions *)

Definition call_idx (a : add_call) : nat := fst (fst (fst a)).
Definition call_key (a : add_call) : string :=
  let '(_, r1, r2, r3) := a in cid_of r1 r2 r3.

(** The shape of a code: which of digit, preferred letter, other letter
    each of its three characters is, numbered as the partitions are. *)
Definition class_of (r : ascii) : nat :=
  if existsb (Ascii.eqb r) digits then 0
  else if existsb (Ascii.eqb r) preferredAlphas then 1
  else if existsb (Ascii.eqb r) nonPreferredAlphas then 2
  else 3.

Definition shape (s : string) : option nat :=
  match s with
  | String a (String b (String c EmptyString)) =>
      match class_of a, class_of b, class_of c with
      | 0, 0, 0 => Some 0
      | 0, 0, 1 => Some 1
      | 0, 1, 1 => Some 2
      | 0, 1, 0 => Some 3
      | 0, 0, 2 => Some 4
      | 0, 2, 2 | 0, 2, 1 | 0, 1, 2 => Some 5
      | 0, 2, 0 => Some 6
      | _, _, _ => None
      end
  | _ => None
  end.

Definition call_ok (a : add_call) : bool :=
  match shape (call_key a) with
  | Some i => Nat.eqb i (call_idx a) && Nat.ltb (call_idx a) 7
  | None => false
  end.

Lemma add_calls_ok : forallb call_ok add_calls = true.
Proof. vm_compute. reflexivity. Qed.

Lemma add_calls_count : Z.of_nat (length add_calls) = 11560%Z.
Proof. vm_compute. reflexivity. Qed.

Lemma call_ok_spec a :
  call_ok a = true -> shape (call_key a) = Some (call_idx a) /\ call_idx a < 7.
Proof.
  unfold call_ok. destruct (shape (call_key a)) as [i|]; [|discriminate].
  intros [Hi Hlt]%andb_true_iff.
  apply Nat.eqb_eq in Hi. apply Nat.ltb_lt in Hlt. subst i. auto.
Qed.

(** What the fold of [add] keeps true, whatever calls have been made so
    far, as long as each one puts a code into the partition of its
    shape. *)
Record gen_inv (st : list (gset string) * gmap string nat) : Prop := {
  gen_len : length (fst st) = 7;
  gen_group : forall i g s,
    fst st !! i = Some g -> s ∈ g -> snd st !! s = Some i /\ shape s = Some i;
  gen_map : forall s i,
    snd st !! s = Some i -> exists g, fst st !! i = Some g /\ s ∈ g
}.

Lemma gen_inv_init : gen_inv (replicate 7 ∅, ∅).
Proof.
  split; cbn [fst snd].
  - reflexivity.
  - intros i g s Hg Hs. apply lookup_replicate in Hg as [-> _]. set_solver.
  - intros s i H. rewrite lookup_empty in H. discriminate.
Qed.

Lemma add_unfold st a :
  add st a = (alter (fun g => {[call_key a]} ∪ g) (call_idx a) (fst st),
              <[call_key a := call_idx a]> (snd st)).
Proof. destruct a as [[[idx r1] r2] r3]. reflexivity. Qed.

Lemma gen_inv_add st a : call_ok a = true -> gen_inv st -> gen_inv (add st a).
Proof.
  intros Hok [Hlen Hgrp Hmap]. apply call_ok_spec in Hok as [Hshape Hlt].
  rewrite add_unfold.
  generalize dependent (call_key a). generalize dependent (call_idx a).
  intros idx Hlt s0 Hshape.
  destruct st as [gs m]. cbn [fst snd] in *.
  split; cbn [fst snd].
  - rewrite length_alter. exact Hlen.
  - intros i g s Hg Hs.
    destruct (decide (i = idx)) as [->|Hne].
    + rewrite list_lookup_alter_eq in Hg.
      destruct (gs !! idx) as [g0|] eqn:Hg0; simpl in Hg; [|discriminate].
      injection Hg as <-.
      apply elem_of_union in Hs as [Hs|Hs].
      * apply elem_of_singleton in Hs as ->.
        rewrite lookup_insert_eq. auto.
      * pose proof (Hgrp _ _ _ Hg0 Hs) as [Hm Hsh]. split; [|exact Hsh].
        destruct (decide (s0 = s)) as [->|Hs0].
        -- apply lookup_insert_eq.
        -- rewrite lookup_insert_ne by exact Hs0. exact Hm.
    + rewrite list_lookup_alter_ne in Hg by auto.
      pose proof (Hgrp _ _ _ Hg Hs) as [Hm Hsh]. split; [|exact Hsh].
      rewrite lookup_insert_ne; [exact Hm|].
      intros <-. rewrite Hshape in Hsh. congruence.
  - intros s i Hm.
    destruct (decide (s0 = s)) as [->|Hs0].
    + rewrite lookup_insert_eq in Hm. injection Hm as <-.
      destruct (lookup_lt_is_Some_2 gs idx) as [g0 Hg0]; [lia|].
      exists ({[s]} ∪ g0). split; [|set_solver].
      rewrite list_lookup_alter_eq, Hg0. reflexivity.
    + rewrite lookup_insert_ne in Hm by exact Hs0.
      destruct (Hmap _ _ Hm) as (g & Hg & Hs).
      destruct (decide (i = idx)) as [->|Hne].
      * exists ({[s0]} ∪ g). split; [|set_solver].
        rewrite list_lookup_alter_eq, Hg. reflexivity.
      * exists g. split; [|exact Hs].
        rewrite list_lookup_alter_ne by auto. exact Hg.
Qed.

Lemma gen_inv_fold calls st :
  forallb call_ok calls = true -> gen_inv st -> gen_inv (fold_left add calls st).
Proof.
  revert st. induction calls as [|a calls IH]; intros st Hok Hst; simpl.
  - exact Hst.
  - simpl in Hok. apply andb_true_iff in Hok as [Ha Hrest].
    apply IH; [exact Hrest|]. apply gen_inv_add; assumption.
Qed.

Lemma generate_inv : gen_inv generateCIDGroups.
Proof. apply gen_inv_fold; [exact add_calls_ok | exact gen_inv_init]. Qed.

(** From here on the generated partitions are used through [generate_inv]
    only. *)
#[local] Opaque generateCIDGroups.

(** A code belongs to one partition only. *)
Lemma in_partition_inj i j cid : in_partition i cid -> in_partition j cid -> i = j.
Proof.
  intros (g & Hg & Hs) (g' & Hg' & Hs').
  destruct (gen_group _ generate_inv _ _ _ Hg Hs) as [H1 _].
  destruct (gen_group _ generate_inv _ _ _ Hg' Hs') as [H2 _].
  congruence.
Qed.

(** ** The loop of [Allocate] *)

Lemma seek_spec gs i j r :
  seek gs i = (j, r) ->
  i <= j <= i + length gs
  /\ (forall k g, k < j - i -> gs !! k = Some g -> g = ∅)
  /\ match r with
     | Some g => gs !! (j - i) = Some g /\ g <> ∅
     | None => j = i + length gs
     end.
Proof.
  revert i. induction gs as [|g0 gs IH]; intros i H; simpl in H.
  - injection H as <- <-. simpl.
    split; [lia|]. split; [intros k g Hk; lia | lia].
  - destruct (decide (size g0 = 0)) as [Hz|Hnz].
    + apply IH in H as (Hle & Hemp & Hr). simpl.
      split; [lia|]. split.
      * intros k g Hk Hg. destruct k as [|k]; simpl in Hg.
        -- injection Hg as <-. apply size_empty_inv in Hz.
           apply leibniz_equiv. exact Hz.
        -- apply (Hemp k); [lia | exact Hg].
      * destruct r as [g|].
        -- replace (j - i) with (S (j - S i)) by lia. exact Hr.
        -- lia.
    + injection H as <- <-. simpl. split; [lia|]. split.
      * intros k g Hk. lia.
      * rewrite Nat.sub_diag. simpl. split; [reflexivity|].
        intros ->. apply Hnz. apply size_empty.
Qed.

(** The same, read on the whole slice. *)
Lemma seek_groups c j r :
  seek (drop (groupIndex c) (groups c)) (groupIndex c) = (j, r) ->
  groupIndex c <= j
  /\ (forall k g, groupIndex c <= k < j -> groups c !! k = Some g -> g = ∅)
  /\ match r with
     | Some g => groups c !! j = Some g /\ g <> ∅
     | None => forall k g, groupIndex c <= k -> groups c !! k = Some g -> g = ∅
     end.
Proof.
  intros H. apply seek_spec in H as (Hle & Hemp & Hr).
  split; [lia|]. split.
  - intros k g Hk Hg. apply (Hemp (k - groupIndex c)); [lia|].
    rewrite lookup_drop. replace (groupIndex c + (k - groupIndex c)) with k by lia.
    exact Hg.
  - destruct r as [g|].
    + destruct Hr as [Hg Hne]. rewrite lookup_drop in Hg.
      replace (groupIndex c + (j - groupIndex c)) with j in Hg by lia. auto.
    + intros k g Hk Hg.
      assert (Hlt : k < length (groups c)) by (eapply lookup_lt_Some; exact Hg).
      rewrite length_drop in Hr.
      apply (Hemp (k - groupIndex c)); [lia|].
      rewrite lookup_drop. replace (groupIndex c + (k - groupIndex c)) with k by lia.
      exact Hg.
Qed.

(** ** The invariant of the allocator *)

Record inv (c : CIDAllocator) : Prop := {
  inv_len : length (groups c) = 7;
  inv_map : cidGroup c = snd generateCIDGroups;
  inv_group : forall i g s, groups c !! i = Some g -> s ∈ g -> cidGroup c !! s = Some i;
  inv_alloc : forall s, s ∈ allocated c -> is_Some (cidGroup c !! s);
  inv_disj : forall s i g, s ∈ allocated c -> groups c !! i = Some g -> s ∉ g;
  inv_skipped : forall i g, i < groupIndex c -> groups c !! i = Some g -> g = ∅
}.

Lemma inv_new : inv NewCIDAllocator.
Proof.
  pose proof generate_inv as [Hlen Hgrp Hmap].
  split; unfold NewCIDAllocator; cbn [groups cidGroup groupIndex allocated].
  - exact Hlen.
  - reflexivity.
  - intros i g s Hg Hs. destruct (Hgrp _ _ _ Hg Hs) as [Hm _]. exact Hm.
  - intros s Hs. apply not_elem_of_empty in Hs. destruct Hs.
  - intros s i g Hs. apply not_elem_of_empty in Hs. destruct Hs.
  - intros i g Hi. inversion Hi.
Qed.

Lemma inv_in_partition c s i :
  inv c -> cidGroup c !! s = Some i -> in_partition i s /\ i < length (groups c).
Proof.
  intros Hinv Hs. rewrite (inv_map _ Hinv) in Hs.
  destruct (gen_map _ generate_inv _ _ Hs) as (g & Hg & Hin).
  split; [exists g; auto|].
  rewrite (inv_len _ Hinv), <- (gen_len _ generate_inv).
  eapply lookup_lt_Some. exact Hg.
Qed.

Lemma valid_draw_elem c order n i g :
  valid_draw c order n ->
  seek (drop (groupIndex c) (groups c)) (groupIndex c) = (i, Some g) ->
  nth n order "" ∈ g.
Proof.
  intros Hv Hseek. destruct (Hv g) as [Hperm Hn]; [rewrite Hseek; reflexivity|].
  apply elem_of_elements. rewrite <- Hperm.
  apply list_elem_of_In. apply nth_In.
  rewrite (Permutation_length Hperm). exact Hn.
Qed.

Lemma inv_allocate c order n :
  inv c -> valid_draw c order n -> inv (snd (Allocate order n c)).
Proof.
  intros Hinv Hv. unfold Allocate.
  destruct (seek _ _) as [i [g|]] eqn:Hseek.
  - pose proof (valid_draw_elem _ _ _ _ _ Hv Hseek) as Hcid.
    apply seek_groups in Hseek as (Hle & Hemp & Hg & Hne).
    set (cid := nth n order "") in *.
    pose proof (inv_group _ Hinv _ _ _ Hg Hcid) as Hmapcid.
    split; cbn [snd groups cidGroup groupIndex allocated].
    + rewrite length_insert. apply (inv_len _ Hinv).
    + apply (inv_map _ Hinv).
    + intros j g' s Hg' Hs. destruct (decide (j = i)) as [->|Hji].
      * rewrite list_lookup_insert_eq in Hg' by (eapply lookup_lt_Some; exact Hg).
        injection Hg' as <-. apply (inv_group _ Hinv _ _ _ Hg). set_solver.
      * rewrite list_lookup_insert_ne in Hg' by auto.
        apply (inv_group _ Hinv _ _ _ Hg' Hs).
    + intros s Hs. apply elem_of_union in Hs as [Hs|Hs].
      * apply elem_of_singleton in Hs as ->. rewrite Hmapcid. eauto.
      * apply (inv_alloc _ Hinv _ Hs).
    + intros s j g' Hs Hg' Hin. destruct (decide (j = i)) as [->|Hji].
      * rewrite list_lookup_insert_eq in Hg' by (eapply lookup_lt_Some; exact Hg).
        injection Hg' as <-.
        apply elem_of_union in Hs as [Hs|Hs]; [set_solver|].
        apply (inv_disj _ Hinv _ _ _ Hs Hg). set_solver.
      * rewrite list_lookup_insert_ne in Hg' by auto.
        apply elem_of_union in Hs as [Hs|Hs].
        -- apply elem_of_singleton in Hs as ->.
           pose proof (inv_group _ Hinv _ _ _ Hg' Hin). congruence.
        -- apply (inv_disj _ Hinv _ _ _ Hs Hg' Hin).
    + intros j g' Hj Hg'.
      rewrite list_lookup_insert_ne in Hg' by lia.
      destruct (decide (j < groupIndex c)).
      * apply (inv_skipped _ Hinv j); assumption.
      * apply (Hemp j); [lia | exact Hg'].
  - apply seek_groups in Hseek as (Hle & Hemp & Hnone).
    destruct Hinv as [H1 H2 H3 H4 H5 H6].
    split; cbn [snd groups cidGroup groupIndex allocated]; try assumption.
    intros j g' Hj Hg'. destruct (decide (j < groupIndex c)).
    + apply (H6 j); assumption.
    + apply (Hnone j); [lia | exact Hg'].
Qed.

Lemma release_allocated c cid :
  inv c -> cid ∈ allocated c ->
  exists idx g,
    in_partition idx cid /\ groups c !! idx = Some g /\ (cid ∉ g)
    /\ Release cid c =
         Done {| groups := <[idx := {[cid]} ∪ g]> (groups c);
                 cidGroup := cidGroup c;
                 groupIndex := Nat.min idx (groupIndex c);
                 allocated := allocated c ∖ {[cid]} |}.
Proof.
  intros Hinv Hcid.
  destruct (inv_alloc _ Hinv _ Hcid) as [idx Hidx].
  destruct (inv_in_partition _ _ _ Hinv Hidx) as [Hpart Hlt].
  destruct (lookup_lt_is_Some_2 _ _ Hlt) as [g Hg].
  exists idx, g. split; [exact Hpart|]. split; [exact Hg|].
  split; [apply (inv_disj _ Hinv _ _ _ Hcid Hg)|].
  unfold Release. rewrite decide_True by exact Hcid. rewrite Hidx, Hg.
  do 2 f_equal.
  destruct (Nat.ltb idx (groupIndex c)) eqn:E.
  - apply Nat.ltb_lt in E. lia.
  - apply Nat.ltb_ge in E. lia.
Qed.

Lemma inv_release c cid c' : inv c -> Release cid c = Done c' -> inv c'.
Proof.
  intros Hinv Hrel.
  destruct (decide (cid ∈ allocated c)) as [Hcid|Hcid].
  - destruct (release_allocated _ _ Hinv Hcid) as (idx & g & Hpart & Hg & Hnin & Heq).
    rewrite Heq in Hrel. injection Hrel as <-.
    assert (Hidx : cidGroup c !! cid = Some idx).
    { destruct (inv_alloc _ Hinv _ Hcid) as [j Hj].
      destruct (inv_in_partition _ _ _ Hinv Hj) as [Hp _].
      rewrite Hj. f_equal. exact (in_partition_inj _ _ _ Hp Hpart). }
    split; cbn [groups cidGroup groupIndex allocated].
    + rewrite length_insert. apply (inv_len _ Hinv).
    + apply (inv_map _ Hinv).
    + intros j g' s Hg' Hs. destruct (decide (j = idx)) as [->|Hji].
      * rewrite list_lookup_insert_eq in Hg' by (eapply lookup_lt_Some; exact Hg).
        injection Hg' as <-.
        apply elem_of_union in Hs as [Hs|Hs].
        -- apply elem_of_singleton in Hs as ->. exact Hidx.
        -- apply (inv_group _ Hinv _ _ _ Hg Hs).
      * rewrite list_lookup_insert_ne in Hg' by auto.
        apply (inv_group _ Hinv _ _ _ Hg' Hs).
    + intros s Hs. apply (inv_alloc _ Hinv). set_solver.
    + intros s j g' Hs Hg' Hin.
      apply elem_of_difference in Hs as [Hs Hne].
      destruct (decide (j = idx)) as [->|Hji].
      * rewrite list_lookup_insert_eq in Hg' by (eapply lookup_lt_Some; exact Hg).
        injection Hg' as <-.
        apply elem_of_union in Hin as [Hin|Hin]; [set_solver|].
        apply (inv_disj _ Hinv _ _ _ Hs Hg Hin).
      * rewrite list_lookup_insert_ne in Hg' by auto.
        apply (inv_disj _ Hinv _ _ _ Hs Hg' Hin).
    + intros j g' Hj Hg'.
      rewrite list_lookup_insert_ne in Hg' by lia.
      apply (inv_skipped _ Hinv j); [lia | exact Hg'].
  - unfold Release in Hrel. rewrite decide_False in Hrel by exact Hcid.
    injection Hrel as <-. exact Hinv.
Qed.

Lemma reachable_inv c : reachable c -> inv c.
Proof.
  induction 1 as [|c order n _ IH Hv|c cid c' _ IH Hrel].
  - exact inv_new.
  - apply inv_allocate; assumption.
  - eapply inv_release; eassumption.
Qed.


Lemma allocate_error c order n e c' :
  Allocate order n c = (inr e, c') ->
  (forall i g, groupIndex c <= i -> groups c !! i = Some g -> g = ∅)
  /\ allocated c' = allocated c /\ groups c' = groups c.
Proof.
  unfold Allocate. destruct (seek _ _) as [i [g|]] eqn:Hseek; [discriminate|].
  intros H. injection H as _ <-. cbn [groups allocated].
  apply seek_groups in Hseek as (_ & _ & Hnone). auto.
Qed.

Lemma allocate_ok c order n cid c' :
  inv c -> valid_draw c order n -> Allocate order n c = (inl cid, c') ->
  (cid ∉ allocated c) /\ allocated c' = {[cid]} ∪ allocated c
  /\ exists i g, groups c !! i = Some g /\ cid ∈ g
       /\ groups c' = <[i := g ∖ {[cid]}]> (groups c) /\ groupIndex c' = i.
Proof.
  intros Hinv Hv. unfold Allocate.
  destruct (seek _ _) as [i [g|]] eqn:Hseek; [|discriminate].
  intros H. injection H as <- <-. cbn [groups allocated groupIndex].
  pose proof (valid_draw_elem _ _ _ _ _ Hv Hseek) as Hcid.
  apply seek_groups in Hseek as (_ & _ & Hg & _).
  split; [|split; [reflexivity|]].
  - intros Hal. exact (inv_disj _ Hinv _ _ _ Hal Hg Hcid).
  - exists i, g. auto.
Qed.




(** C10.  [Release] of a code that is not in the allocated set returns the
    allocator as it was: the partitions, the map from codes to partitions,
    the current-partition index and the allocated set are all unchanged. *)
Theorem release_unallocated (c : CIDAllocator) (cid : string) :
  cid ∉ allocated c -> Release cid c = Done c.
Proof.
  intros Hn. unfold Release. rewrite decide_False by exact Hn. reflexivity.
Qed.

Lemma release_unallocated_witness :
  Release "7AB" (mkCIDAllocator [∅; {["7AB"]}] {["7AB" := 1]} 1 ∅)
  = Done (mkCIDAllocator [∅; {["7AB"]}] {["7AB" := 1]} 1 ∅).
Proof. apply release_unallocated. cbn [allocated]. apply not_elem_of_empty. Defined.

(** A code that has been released is no longer allocated, so a second
    [Release] of it changes nothing. *)
Lemma release_twice (c c' : CIDAllocator) (cid : string) :
  Release cid c = Done c' -> Release cid c' = Done c'.
Proof.
  intros H. assert (Hn : cid ∉ allocated c'); [|unfold Release;
    rewrite decide_False by exact Hn; reflexivity].
  unfold Release in H.
  destruct (decide (cid ∈ allocated c)) as [Hin|Hnin].
  - destruct (cidGroup c !! cid) as [idx|].
    + destruct (groups c !! idx) as [g|]; [|discriminate].
      injection H as <-. cbn [allocated]. set_solver.
    + injection H as <-. cbn [allocated]. set_solver.
  - injection H as <-. exact Hnin.
Qed.

(** ** More on the allocator *)

(** Every code of the code space is accounted for. *)
Definition covered (c : CIDAllocator) : Prop :=
  forall s i, cidGroup c !! s = Some i ->
    s ∈ allocated c \/ exists g, groups c !! i = Some g /\ s ∈ g.

Lemma covered_new : covered NewCIDAllocator.
Proof.
  intros s i Hs. right. exact (gen_map _ generate_inv _ _ Hs).
Qed.

Lemma covered_allocate c order n :
  inv c -> valid_draw c order n -> covered c ->
  covered (snd (Allocate order n c)).
Proof.
  intros Hinv Hv Hcov.
  destruct (Allocate order n c) as [[cid|e] c'] eqn:Hal; cbn [snd].
  - pose proof (inv_allocate c order n Hinv Hv) as Hinv'.
    rewrite Hal in Hinv'. cbn [snd] in Hinv'.
    destruct (allocate_ok _ _ _ _ _ Hinv Hv Hal)
      as (_ & Halloc & j & g & Hg & Hcid & Hgroups & _).
    intros s i Hs. rewrite (inv_map _ Hinv'), <- (inv_map _ Hinv) in Hs.
    rewrite Halloc, Hgroups.
    destruct (decide (s = cid)) as [->|Hne]; [left; set_solver|].
    destruct (Hcov s i Hs) as [Ha|(g0 & Hg0 & Hin)]; [left; set_solver|].
    right. destruct (decide (i = j)) as [->|Hij].
    + exists (g ∖ {[cid]}). split.
      * apply list_lookup_insert_eq. eapply lookup_lt_Some. exact Hg.
      * rewrite Hg in Hg0. injection Hg0 as <-. set_solver.
    + exists g0. split; [|exact Hin].
      rewrite list_lookup_insert_ne by auto. exact Hg0.
  - destruct (allocate_error _ _ _ _ _ Hal) as (_ & Halloc & Hgroups).
    pose proof (inv_allocate c order n Hinv Hv) as Hinv'.
    rewrite Hal in Hinv'. cbn [snd] in Hinv'.
    intros s i Hs. rewrite (inv_map _ Hinv'), <- (inv_map _ Hinv) in Hs.
    rewrite Halloc, Hgroups. exact (Hcov s i Hs).
Qed.

Lemma covered_release c cid c' :
  inv c -> Release cid c = Done c' -> covered c -> covered c'.
Proof.
  intros Hinv Hrel Hcov.
  destruct (decide (cid ∈ allocated c)) as [Hcid|Hcid].
  - destruct (release_allocated _ _ Hinv Hcid) as (idx & g & Hpart & Hg & _ & Heq).
    rewrite Heq in Hrel. injection Hrel as <-.
    intros s i Hs. cbn [cidGroup groups allocated] in *.
    destruct (decide (s = cid)) as [->|Hne].
    + right. destruct (inv_in_partition _ _ _ Hinv Hs) as [Hp _].
      assert (i = idx) as -> by exact (in_partition_inj _ _ _ Hp Hpart).
      exists ({[cid]} ∪ g). split; [|set_solver].
      apply list_lookup_insert_eq. eapply lookup_lt_Some. exact Hg.
    + destruct (Hcov s i Hs) as [Ha|(g0 & Hg0 & Hin)]; [left; set_solver|].
      right. destruct (decide (i = idx)) as [->|Hij].
      * exists ({[cid]} ∪ g). split.
        -- apply list_lookup_insert_eq. eapply lookup_lt_Some. exact Hg.
        -- rewrite Hg in Hg0. injection Hg0 as <-. set_solver.
      * exists g0. split; [|exact Hin].
        rewrite list_lookup_insert_ne by auto. exact Hg0.
  - unfold Release in Hrel. rewrite decide_False in Hrel by exact Hcid.
    injection Hrel as <-. exact Hcov.
Qed.

Lemma reachable_covered c : reachable c -> covered c.
Proof.
  induction 1 as [|c order n Hr IH Hv|c cid c' Hr IH Hrel].
  - exact covered_new.
  - apply covered_allocate; [apply reachable_inv| |]; assumption.
  - eapply covered_release; [apply reachable_inv| |]; eassumption.
Qed.

(** X1.  After any sequence of [Allocate] and [Release] calls, the codes
    of the code space are exactly the allocated codes and the free ones;
    no code is both; and a free code lies in the partition it was
    generated in, and in no other. *)
Theorem codes_conserved (c : CIDAllocator) (s : string) :
  reachable c ->
  ((exists i, in_partition i s)
   <-> (s ∈ allocated c \/ exists i g, groups c !! i = Some g /\ s ∈ g))
  /\ (s ∈ allocated c -> forall i g, groups c !! i = Some g -> s ∉ g)
  /\ (forall i g, groups c !! i = Some g -> s ∈ g -> in_partition i s).
Proof.
  intros Hr. pose proof (reachable_inv _ Hr) as Hinv.
  pose proof (reachable_covered _ Hr) as Hcov.
  assert (Hfree : forall i g, groups c !! i = Some g -> s ∈ g -> in_partition i s).
  { intros i g Hg Hin.
    exact (proj1 (inv_in_partition _ _ _ Hinv (inv_group _ Hinv _ _ _ Hg Hin))). }
  split; [split|split].
  - intros (i & g & Hg & Hin).
    destruct (gen_group _ generate_inv _ _ _ Hg Hin) as [Hm _].
    rewrite <- (inv_map _ Hinv) in Hm.
    destruct (Hcov s i Hm) as [Ha|(g0 & Hg0 & Hin0)]; [left; exact Ha|].
    right. exists i, g0. auto.
  - intros [Ha|(i & g & Hg & Hin)].
    + destruct (inv_alloc _ Hinv _ Ha) as [i Hi]. exists i.
      exact (proj1 (inv_in_partition _ _ _ Hinv Hi)).
    + exists i. exact (Hfree i g Hg Hin).
  - intros Ha i g Hg. exact (inv_disj _ Hinv _ _ _ Ha Hg).
  - exact Hfree.
Qed.

Lemma codes_conserved_witness :
  reachable NewCIDAllocator
  /\ ("7AB" ∈ allocated NewCIDAllocator ->
      forall i g, groups NewCIDAllocator !! i = Some g -> "7AB" ∉ g).
Proof.
  split; [exact reach_new|].
  exact (proj1 (proj2 (codes_conserved NewCIDAllocator "7AB" reach_new))).
Defined.

(** X2.  [Allocate] draws from the first partition that is not empty:
    the code it returns was generated in a partition before which every
    partition is empty at the time. *)
Theorem allocate_lowest_partition (c : CIDAllocator) (order : list string)
    (n : nat) (cid : string) (c' : CIDAllocator) :
  reachable c ->
  valid_draw c order n ->
  Allocate order n c = (inl cid, c') ->
  exists i,
    in_partition i cid
    /\ (forall j g, j < i -> groups c !! j = Some g -> g = ∅)
    /\ groupIndex c' = i.
Proof.
  intros Hr Hv Hal. pose proof (reachable_inv _ Hr) as Hinv.
  unfold Allocate in Hal.
  destruct (seek _ _) as [i [g|]] eqn:Hseek; [|discriminate].
  injection Hal as <- <-.
  pose proof (valid_draw_elem _ _ _ _ _ Hv Hseek) as Hcid.
  apply seek_groups in Hseek as (Hle & Hemp & Hg & _).
  exists i. split; [|split].
  - exact (proj1 (inv_in_partition _ _ _ Hinv (inv_group _ Hinv _ _ _ Hg Hcid))).
  - intros j g' Hj Hg'. destruct (le_lt_dec (groupIndex c) j) as [Hge|Hlt].
    + apply (Hemp j); [lia | exact Hg'].
    + exact (inv_skipped _ Hinv _ _ Hlt Hg').
  - reflexivity.
Qed.

(** An order in which [range] may yield the keys of the map [Allocate]
    draws from. *)
Definition some_order (c : CIDAllocator) : list string :=
  match snd (seek (drop (groupIndex c) (groups c)) (groupIndex c)) with
  | Some g => elements g
  | None => []
  end.

Lemma first_draw_valid c : valid_draw c (some_order c) 0.
Proof.
  intros g Hg. unfold some_order. rewrite Hg. split; [reflexivity|].
  destruct (seek _ _) as [i r] eqn:Hseek. cbn [snd] in Hg. subst r.
  apply seek_groups in Hseek as (_ & _ & _ & Hne).
  destruct (decide (size g = 0)) as [Hz|Hnz]; [|lia].
  exfalso. apply Hne. apply leibniz_equiv. apply size_empty_inv. exact Hz.
Qed.

(** *** The code space *)

Lemma class_of_digit r : class_of r = 0 -> In r digits.
Proof.
  unfold class_of. destruct (existsb (Ascii.eqb r) digits) eqn:He.
  - intros _. apply existsb_exists in He as (x & Hx & Heq).
    apply Ascii.eqb_eq in Heq. subst x. exact Hx.
  - destruct (existsb _ preferredAlphas); [discriminate|].
    destruct (existsb _ nonPreferredAlphas); discriminate.
Qed.

Lemma class_of_preferred r : class_of r = 1 -> In r preferredAlphas.
Proof.
  unfold class_of. destruct (existsb (Ascii.eqb r) digits); [discriminate|].
  destruct (existsb (Ascii.eqb r) preferredAlphas) eqn:He.
  - intros _. apply existsb_exists in He as (x & Hx & Heq).
    apply Ascii.eqb_eq in Heq. subst x. exact Hx.
  - destruct (existsb _ nonPreferredAlphas); discriminate.
Qed.

Lemma class_of_nonPreferred r : class_of r = 2 -> In r nonPreferredAlphas.
Proof.
  unfold class_of. destruct (existsb (Ascii.eqb r) digits); [discriminate|].
  destruct (existsb (Ascii.eqb r) preferredAlphas); [discriminate|].
  destruct (existsb (Ascii.eqb r) nonPreferredAlphas) eqn:He; [|discriminate].
  intros _. apply existsb_exists in He as (x & Hx & Heq).
  apply Ascii.eqb_eq in Heq. subst x. exact Hx.
Qed.

Lemma in_loop3 {A B C : Type} (xs : list A) (ys : list B) (zs : list C) f x y z :
  In x xs -> In y ys -> In z zs -> In (f x y z) (loop3 xs ys zs f).
Proof.
  intros Hx Hy Hz. unfold loop3.
  apply in_flat_map. exists x. split; [exact Hx|].
  apply in_flat_map. exists y. split; [exact Hy|].
  apply in_map. exact Hz.
Qed.

(** Every string of a partition's shape is the argument of one of the
    calls of [add]. *)
Lemma shape_in_add_calls a b c i :
  shape (cid_of a b c) = Some i -> In (i, a, b, c) add_calls.
Proof.
  unfold shape, cid_of.
  destruct (class_of a) as [|?] eqn:Ha; [|destruct (class_of b) as [|[|[|?]]];
    destruct (class_of c) as [|[|[|?]]]; discriminate].
  apply class_of_digit in Ha.
  destruct (class_of b) as [|[|[|?]]] eqn:Hb;
    destruct (class_of c) as [|[|[|?]]] eqn:Hc; try discriminate;
    intros [= <-];
    try apply class_of_digit in Hb; try apply class_of_preferred in Hb;
    try apply class_of_nonPreferred in Hb;
    try apply class_of_digit in Hc; try apply class_of_preferred in Hc;
    try apply class_of_nonPreferred in Hc;
    unfold add_calls; rewrite !in_app_iff.
  - left. apply (in_loop3 _ _ _ (fun a b c => (0, a, b, c))); assumption.
  - right; left. apply (in_loop3 _ _ _ (fun a b l => (1, a, b, l))); assumption.
  - do 4 right; left.
    apply (in_loop3 _ _ _ (fun a b l => (4, a, b, l))); assumption.
  - do 3 right; left.
    apply (in_loop3 _ _ _ (fun a l b => (3, a, l, b))); assumption.
  - do 2 right; left.
    apply (in_loop3 _ _ _ (fun a l1 l2 => (2, a, l1, l2))); assumption.
  - do 5 right; left. apply in_flat_map. exists a. split; [exact Ha|].
    apply in_or_app. right. apply in_flat_map. exists b. split; [exact Hb|].
    apply (in_map (fun a2 => (5, a, b, a2))). exact Hc.
  - do 6 right.
    apply (in_loop3 _ _ _ (fun a l b => (6, a, l, b))); assumption.
  - do 5 right; left. apply in_flat_map. exists a. split; [exact Ha|].
    apply in_or_app. left. apply in_flat_map. exists b. split; [exact Hb|].
    apply in_or_app. right.
    apply (in_map (fun a2 => (5, a, b, a2))). exact Hc.
  - do 5 right; left. apply in_flat_map. exists a. split; [exact Ha|].
    apply in_or_app. left. apply in_flat_map. exists b. split; [exact Hb|].
    apply in_or_app. left.
    apply (in_map (fun a2 => (5, a, b, a2))). exact Hc.
Qed.

(** A later call of [add] does not move a code to another partition. *)
Lemma fold_add_keeps calls st s i :
  forallb call_ok calls = true -> gen_inv st ->
  snd st !! s = Some i -> snd (fold_left add calls st) !! s = Some i.
Proof.
  revert st. induction calls as [|a calls IH]; intros st Hok Hst Hs; simpl.
  - exact Hs.
  - simpl in Hok. apply andb_true_iff in Hok as [Ha Hrest].
    apply IH; [exact Hrest | apply gen_inv_add; assumption |].
    rewrite add_unfold. cbn [snd].
    destruct (decide (call_key a = s)) as [Heq|Hne].
    + apply call_ok_spec in Ha as [Hshape _].
      destruct (gen_map _ Hst _ _ Hs) as (g & Hg & Hin).
      destruct (gen_group _ Hst _ _ _ Hg Hin) as [_ Hsh].
      rewrite Heq in *. rewrite lookup_insert_eq. congruence.
    + rewrite lookup_insert_ne by exact Hne. exact Hs.
Qed.

Lemma fold_add_complete calls st a :
  forallb call_ok calls = true -> gen_inv st -> In a calls ->
  snd (fold_left add calls st) !! call_key a = Some (call_idx a).
Proof.
  revert st. induction calls as [|a0 calls IH]; intros st Hok Hst Hin; simpl.
  - destruct Hin.
  - simpl in Hok. apply andb_true_iff in Hok as [Ha Hrest].
    destruct Hin as [->|Hin].
    + apply fold_add_keeps; [exact Hrest | apply gen_inv_add; assumption |].
      rewrite add_unfold. cbn [snd]. apply lookup_insert_eq.
    + apply IH; [exact Hrest | apply gen_inv_add; assumption | exact Hin].
Qed.

Lemma add_calls_complete a :
  In a add_calls -> snd (fold_left add add_calls (replicate 7 ∅, ∅)) !! call_key a
                    = Some (call_idx a).
Proof. apply fold_add_complete; [exact add_calls_ok | exact gen_inv_init]. Qed.

Lemma generate_complete a b c i :
  shape (cid_of a b c) = Some i -> in_partition i (cid_of a b c).
Proof.
  intros Hs. apply shape_in_add_calls in Hs.
  apply add_calls_complete in Hs. cbn [call_key call_idx fst] in Hs.
  apply (gen_map _ generate_inv). exact Hs.
Qed.

(** X3.  The code space.  The codes of partition [i] are exactly the
    three-character strings whose characters have the classes of the
    loops that fill partition [i]: a digit first, then digits, preferred
    letters or other letters ([shape]).  So no code is shorter or longer
    than three characters, none starts with a letter, and none holds a
    character outside the three alphabets. *)
Theorem code_space (i : nat) (s : string) :
  in_partition i s <-> shape s = Some i.
Proof.
  split.
  - intros (g & Hg & Hin). exact (proj2 (gen_group _ generate_inv _ _ _ Hg Hin)).
  - intros Hs.
    destruct s as [|a [|b [|c [|? ?]]]]; try discriminate.
    exact (generate_complete a b c i Hs).
Qed.

(** The codes of a reachable allocator, free or allocated, are strings
    of three characters that start with a digit. *)
Lemma shape_first_digit s i :
  shape s = Some i ->
  exists a b c, s = cid_of a b c /\ In a digits
    /\ In b (digits ++ preferredAlphas ++ nonPreferredAlphas)
    /\ In c (digits ++ preferredAlphas ++ nonPreferredAlphas).
Proof.
  destruct s as [|a [|b [|c [|? ?]]]]; try discriminate.
  intros Hs. exists a, b, c. split; [reflexivity|].
  unfold shape in Hs. rewrite !in_app_iff.
  destruct (class_of a) as [|?] eqn:Ha; [|destruct (class_of b) as [|[|[|?]]];
    destruct (class_of c) as [|[|[|?]]]; discriminate].
  split; [exact (class_of_digit _ Ha)|].
  destruct (class_of b) as [|[|[|?]]] eqn:Hb;
    destruct (class_of c) as [|[|[|?]]] eqn:Hc; try discriminate;
    auto using class_of_digit, class_of_preferred, class_of_nonPreferred.
Qed.

(** *** When [Allocate] succeeds *)

Lemma allocate_succeeds c order n i g :
  inv c -> groups c !! i = Some g -> g <> ∅ ->
  exists cid c', Allocate order n c = (inl cid, c').
Proof.
  intros Hinv Hg Hne. unfold Allocate.
  destruct (seek _ _) as [j [g'|]] eqn:Hseek; [eauto|].
  exfalso. apply seek_groups in Hseek as (_ & _ & Hemp).
  destruct (le_lt_dec (groupIndex c) i) as [Hge|Hlt].
  - exact (Hne (Hemp i g Hge Hg)).
  - exact (Hne (inv_skipped _ Hinv _ _ Hlt Hg)).
Qed.

Lemma new_has_free_code :
  exists g, groups NewCIDAllocator !! 0 = Some g /\ g <> ∅.
Proof.
  destruct (generate_complete "0" "0" "0" 0 eq_refl) as (g & Hg & Hin).
  exists g. split; [exact Hg|]. intros ->.
  exact (proj1 (elem_of_empty (C := gset string) "000") Hin).
Qed.

Lemma allocate_lowest_partition_witness :
  exists cid c',
    Allocate (some_order NewCIDAllocator) 0 NewCIDAllocator = (inl cid, c')
    /\ exists i, in_partition i cid /\ groupIndex c' = i.
Proof.
  destruct new_has_free_code as (g & Hg & Hne).
  destruct (allocate_succeeds NewCIDAllocator (some_order NewCIDAllocator)
              0 0 g inv_new Hg Hne) as (cid & c' & Hal).
  exists cid, c'. split; [exact Hal|].
  destruct (allocate_lowest_partition NewCIDAllocator
              (some_order NewCIDAllocator) 0 cid c' reach_new
              (first_draw_valid NewCIDAllocator) Hal) as (i & Hp & _ & Hi).
  exists i. auto.
Defined.

(** X4.  [Allocate] fails exactly when every code of the code space is
    allocated; the index it has reached and the draws play no part. *)
Theorem allocate_fails_iff_exhausted (c : CIDAllocator) (order : list string)
    (n : nat) :
  reachable c ->
  (fst (Allocate order n c) = inr errNoMoreCIDs)
  <-> (forall i s, in_partition i s -> s ∈ allocated c).
Proof.
  intros Hr. pose proof (reachable_inv _ Hr) as Hinv.
  pose proof (reachable_covered _ Hr) as Hcov.
  split.
  - intros Hfail.
    destruct (Allocate order n c) as [[cid|e] c'] eqn:Hal; [discriminate|].
    destruct (allocate_error _ _ _ _ _ Hal) as (Hemp & _ & _).
    clear Hal Hfail. intros i s (g0 & Hg0 & Hin0).
    destruct (gen_group _ generate_inv _ _ _ Hg0 Hin0) as [Hm _].
    rewrite <- (inv_map _ Hinv) in Hm.
    destruct (Hcov s i Hm) as [Ha|(g & Hg & Hin)]; [exact Ha|].
    exfalso. assert (g = ∅) as Hempty.
    { destruct (le_lt_dec (groupIndex c) i) as [Hge|Hlt].
      - exact (Hemp i g Hge Hg).
      - exact (inv_skipped _ Hinv _ _ Hlt Hg). }
    rewrite Hempty in Hin.
    exact (proj1 (elem_of_empty (C := gset string) s) Hin).
  - intros Hall. unfold Allocate.
    destruct (seek _ _) as [j [g|]] eqn:Hseek; [|reflexivity].
    exfalso. apply seek_groups in Hseek as (_ & _ & Hg & Hne).
    apply Hne. apply leibniz_equiv. apply elem_of_equiv_empty. intros s Hs.
    pose proof (inv_group _ Hinv _ _ _ Hg Hs) as Hm.
    destruct (inv_in_partition _ _ _ Hinv Hm) as [Hp _].
    exact (inv_disj _ Hinv _ _ _ (Hall _ _ Hp) Hg Hs).
Qed.

Lemma allocate_fails_iff_exhausted_witness :
  reachable NewCIDAllocator
  /\ ((forall i s, in_partition i s -> s ∈ allocated NewCIDAllocator)
      -> fst (Allocate [] 0 NewCIDAllocator) = inr errNoMoreCIDs).
Proof.
  split; [exact reach_new|].
  exact (proj2 (allocate_fails_iff_exhausted NewCIDAllocator [] 0 reach_new)).
Defined.

End Cid.

(* ===================================================================== *)
(** * The simulation: pkg/sim/sim.go *)
(* ===================================================================== *)

Module SimCore.

Local Open Scope Z_scope.

(** [time.Time] and [time.Duration] are counted in nanoseconds. *)
Definition Second : Z := 1000000000.

(** [time.Duration] is an int64: sums and differences wrap around. *)
Definition wrap64 (z : Z) : Z := (z + 2 ^ 63) mod 2 ^ 64 - 2 ^ 63.

(** [t.Sub(u)]: the difference, kept within the range of int64. *)
Definition Sub (t u : Z) : Z :=
  Z.max (- 2 ^ 63) (Z.min (2 ^ 63 - 1) (t - u)).

(** [time.Since(t)] with the clock at [now]. *)
Definition Since (now t : Z) : Z := Sub now t.

(** [d.Truncate(m)]: [d] rounded toward zero to a multiple of [m]. *)
Definition Truncate (d m : Z) : Z := if m <=? 0 then d else d - Z.rem d m.

(** [int(d.Seconds())] for a duration [d].  [Seconds] adds the whole
    seconds [d / Second] to the float64 fraction [(d % Second) / 1e9];
    converting to [int] drops the fraction, and the whole seconds of an
    int64 count of nanoseconds are below 2^53, so exact in float64. *)
Definition whole_seconds (d : Z) : Z := Z.quot d Second.

(** The fields of [av.Aircraft] that sim.go reads and writes. *)
Record Aircraft : Type := mkAircraft {
  Callsign : string;
  TrackingController : string;
  ControllingController : string;
  HandoffTrackController : string
}.

Record Handoff : Type := mkHandoff {
  AutoAcceptTime : Z;
  ReceivingFacility : string
}.

Record PointOut : Type := mkPointOut {
  po_FromController : string;
  po_ToController : string;
  AcceptTime : Z
}.

Inductive EventType : Type :=
| AcceptedHandoffEvent
| AcknowledgedPointOutEvent
| StatusMessageEvent.

Record Event : Type := mkEvent {
  ev_Type : EventType;
  ev_FromController : string;
  ev_ToController : string;
  ev_Callsign : string;
  ev_Message : string
}.

Inductive error : Type :=
| ErrNoController.

Section Sim.

(** [Rate] stands for float32 (the type of [State.SimRate]) and
    [Computers] for the state behind [State.ERAMComputers]. *)
Context {Rate Computers : Type}.

(** The fields of [State] that sim.go uses; [LaunchController] is
    [State.LaunchConfig.Controller], [Controllers] the key set of
    [State.Controllers]. *)
Record State : Type := mkState {
  SimTime : Z;
  Paused : bool;
  SimRate : Rate;
  PrimaryController : string;
  LaunchController : string;
  Aircraft_ : gmap string Aircraft;
  Controllers : gset string;
  HumanControllers : list string;
  ERAMComputers : Computers
}.

(** [humanControllers] and [Instructors] are kept as their key sets;
    [eventStream] is the list of the events posted so far, oldest
    first. *)
Record Sim : Type := mkSim {
  State_ : State;
  humanControllers : gset string;
  eventStream : list Event;
  Handoffs : gmap string Handoff;
  PointOuts : gmap string PointOut;
  lastSimUpdate : Z;
  updateTimeSlop : Z;
  lastUpdateTime : Z;
  prespawn : bool;
  Instructors : gset string
}.

Definition with_State (f : State -> State) (s : Sim) : Sim :=
  mkSim (f (State_ s)) (humanControllers s) (eventStream s) (Handoffs s)
        (PointOuts s) (lastSimUpdate s) (updateTimeSlop s) (lastUpdateTime s)
        (prespawn s) (Instructors s).

Definition set_SimTime (t : Z) (st : State) : State :=
  mkState t (Paused st) (SimRate st) (PrimaryController st) (LaunchController st)
          (Aircraft_ st) (Controllers st) (HumanControllers st) (ERAMComputers st).

Definition set_Aircraft (a : gmap string Aircraft) (st : State) : State :=
  mkState (SimTime st) (Paused st) (SimRate st) (PrimaryController st)
          (LaunchController st) a (Controllers st) (HumanControllers st)
          (ERAMComputers st).

Definition set_ERAMComputers (c : Computers) (st : State) : State :=
  mkState (SimTime st) (Paused st) (SimRate st) (PrimaryController st)
          (LaunchController st) (Aircraft_ st) (Controllers st)
          (HumanControllers st) c.

Definition Post (e : Event) (s : Sim) : Sim :=
  mkSim (State_ s) (humanControllers s) (eventStream s ++ [e]) (Handoffs s)
        (PointOuts s) (lastSimUpdate s) (updateTimeSlop s) (lastUpdateTime s)
        (prespawn s) (Instructors s).

Definition set_Handoffs (h : gmap string Handoff) (s : Sim) : Sim :=
  mkSim (State_ s) (humanControllers s) (eventStream s) h
        (PointOuts s) (lastSimUpdate s) (updateTimeSlop s) (lastUpdateTime s)
        (prespawn s) (Instructors s).

Definition set_PointOuts (p : gmap string PointOut) (s : Sim) : Sim :=
  mkSim (State_ s) (humanControllers s) (eventStream s) (Handoffs s)
        p (lastSimUpdate s) (updateTimeSlop s) (lastUpdateTime s)
        (prespawn s) (Instructors s).

Definition set_lastSimUpdate (t : Z) (s : Sim) : Sim :=
  mkSim (State_ s) (humanControllers s) (eventStream s) (Handoffs s)
        (PointOuts s) t (updateTimeSlop s) (lastUpdateTime s)
        (prespawn s) (Instructors s).

Definition set_update_times (slop last : Z) (s : Sim) : Sim :=
  mkSim (State_ s) (humanControllers s) (eventStream s) (Handoffs s)
        (PointOuts s) (lastSimUpdate s) slop last
        (prespawn s) (Instructors s).

Definition isActiveHumanController (s : Sim) (tcp : string) : bool :=
  bool_decide (tcp ∈ humanControllers s).

(** ** What sim.go calls in other files *)

(** Lines 589 to 595 of [updateState]: the look-up of the receiving
    facility's computers and [AutomatedAcceptHandoff], whose errors are
    dropped.  It is handed the aircraft by pointer, the handoff target,
    the receiving facility and the time, and works on the computers. *)
Variable AutomatedAcceptHandoff :
  Aircraft -> string -> string -> Z -> Computers -> Computers * Aircraft.

(** The body of [if now.Sub(s.lastSimUpdate) >= time.Second] after the
    assignment to [lastSimUpdate]: the loop over the aircraft,
    [processEnqueued], [spawnAircraft] and [ERAMComputers.Update]. *)
Variable advanceAircraft : Sim -> Sim.

(** The order in which [range] yields the keys of [s.Handoffs] and of
    [s.PointOuts] in a given state. *)
Variable handoffOrder pointOutOrder : Sim -> list string.

(** [time.Duration(rate * float32(elapsed))]. *)
Variable scale : Rate -> Z -> Z.

(** ** [updateState] *)

(** One iteration of [for callsign, ho := range s.Handoffs].  An entry
    deleted before the iteration reaches it is not visited. *)
Definition handoffStep (s : Sim) (callsign : string) : Sim :=
  match Handoffs s !! callsign with
  | None => s
  | Some ho =>
      let now := SimTime (State_ s) in
      if negb (AutoAcceptTime ho <? now)%Z && negb (prespawn s) then s
      else
        let s1 :=
          match Aircraft_ (State_ s) !! callsign with
          | Some ac =>
              if negb (String.eqb (HandoffTrackController ac) "") then
                if negb (isActiveHumanController s (HandoffTrackController ac)) then
                  let s' :=
                    Post (mkEvent AcceptedHandoffEvent (TrackingController ac)
                            (HandoffTrackController ac) (Callsign ac) "") s in
                  let '(comp, ac1) :=
                    AutomatedAcceptHandoff ac (HandoffTrackController ac)
                      (ReceivingFacility ho) (SimTime (State_ s'))
                      (ERAMComputers (State_ s')) in
                  let ac2 :=
                    mkAircraft (Callsign ac1) (HandoffTrackController ac1)
                      (ControllingController ac1) "" in
                  with_State
                    (fun st => set_Aircraft (<[callsign := ac2]> (Aircraft_ st))
                                 (set_ERAMComputers comp st)) s'
                else s
              else s
          | None => s
          end in
        set_Handoffs (delete callsign (Handoffs s1)) s1
  end.

Definition resolveHandoffs (order : list string) (s : Sim) : Sim :=
  fold_left handoffStep order s.

(** One iteration of [for callsign, po := range s.PointOuts]. *)
Definition pointOutStep (s : Sim) (callsign : string) : Sim :=
  match PointOuts s !! callsign with
  | None => s
  | Some po =>
      let now := SimTime (State_ s) in
      if negb (AcceptTime po <? now)%Z then s
      else
        match Aircraft_ (State_ s) !! callsign with
        | Some ac =>
            if negb (isActiveHumanController s (po_ToController po)) then
              let s' :=
                Post (mkEvent AcknowledgedPointOutEvent (po_ToController po)
                        (po_FromController po) (Callsign ac) "") s in
              set_PointOuts (delete callsign (PointOuts s')) s'
            else s
        | None => s
        end
  end.

Definition resolvePointOuts (order : list string) (s : Sim) : Sim :=
  fold_left pointOutStep order s.

Definition updateState (s : Sim) : Sim :=
  let now := SimTime (State_ s) in
  let s := resolveHandoffs (handoffOrder s) s in
  let s := resolvePointOuts (pointOutOrder s) s in
  if (Second <=? Sub now (lastSimUpdate s))%Z then
    advanceAircraft (set_lastSimUpdate now s)
  else s.

(** ** [Update] *)

(** One round of [for i := 0; i < ns; i++]. *)
Definition tick (s : Sim) : Sim :=
  updateState (with_State (fun st => set_SimTime (SimTime st + Second) st) s).

(** [Update].  [now1] is the clock read by [time.Since] and [now2] the
    one read by the closing [time.Now()].  [ac.Check] only logs. *)
Definition Update (now1 now2 : Z) (s : Sim) : Sim :=
  if Paused (State_ s) then s
  else if negb (isActiveHumanController s (PrimaryController (State_ s))) then s
  else
    let elapsed := Since now1 (lastUpdateTime s) in
    let elapsed := wrap64 (scale (SimRate (State_ s)) elapsed + updateTimeSlop s) in
    let ns := whole_seconds (Truncate elapsed Second) in
    let s := Nat.iter (Z.to_nat ns) tick s in
    set_update_times (wrap64 (elapsed - Truncate elapsed Second)) now2 s.

(** A run of [Update] calls, each with its two clock readings. *)
Fixpoint Updates (calls : list (Z * Z)) (s : Sim) : Sim :=
  match calls with
  | [] => s
  | (now1, now2) :: rest => Updates rest (Update now1 now2 s)
  end.

(** The wall-clock time since [lastUpdateTime], scaled by [SimRate], that
    a call of [Update] reading the clock at [now1] works with. *)
Definition scaledElapsed (now1 : Z) (s : Sim) : Z :=
  scale (SimRate (State_ s)) (Since now1 (lastUpdateTime s)).

(** The sum of the scaled elapsed times over a run of calls. *)
Fixpoint totalScaled (calls : list (Z * Z)) (s : Sim) : Z :=
  match calls with
  | [] => 0
  | (now1, now2) :: rest =>
      scaledElapsed now1 s + totalScaled rest (Update now1 now2 s)
  end.

(** The sim is unpaused and its primary controller is an active human. *)
Definition running (s : Sim) : Prop :=
  Paused (State_ s) = false /\
  PrimaryController (State_ s) ∈ humanControllers s.

(** Every call of the run finds the sim running and some time, not
    negative and within int64 once the slop is added, elapsed. *)
Fixpoint all_running (calls : list (Z * Z)) (s : Sim) : Prop :=
  match calls with
  | [] => True
  | (now1, now2) :: rest =>
      running s
      /\ 0 <= scaledElapsed now1 s
      /\ scaledElapsed now1 s + updateTimeSlop s < 2 ^ 63
      /\ all_running rest (Update now1 now2 s)
  end.

(** ** [SignOff] *)

(** Modelled from the spec: [Aircraft.HandleControllerDisconnect] is in
    pkg/aviation, which is not among the sources.  The spec has "every
    aircraft currently tracked by that position is handed to the
    scenario's fallback/primary controller". *)
Definition HandleControllerDisconnect (tcp primary : string) (ac : Aircraft)
  : Aircraft :=
  if String.eqb (TrackingController ac) tcp
  then mkAircraft (Callsign ac) primary (ControllingController ac)
                  (HandoffTrackController ac)
  else ac.

(** [SignOff].  The subscription is kept outside the model, so
    [Unsubscribe] leaves no trace here. *)
Definition SignOff (tcp : string) (s : Sim) : option error * Sim :=
  if bool_decide (tcp ∈ humanControllers s) then
    let st := State_ s in
    let aircraft :=
      HandleControllerDisconnect tcp (PrimaryController st) <$> Aircraft_ st in
    let launch :=
      if String.eqb tcp (LaunchController st) then "" else LaunchController st in
    let st' :=
      mkState (SimTime st) (Paused st) (SimRate st) (PrimaryController st)
        launch aircraft (Controllers st ∖ {[tcp]})
        (List.filter (fun c => negb (String.eqb c tcp)) (HumanControllers st))
        (ERAMComputers st) in
    (None,
     mkSim st' (humanControllers s ∖ {[tcp]})
       (eventStream s
        ++ [mkEvent StatusMessageEvent "" "" ""
              (String.append tcp " has signed off.")])
       (Handoffs s) (PointOuts s) (lastSimUpdate s) (updateTimeSlop s)
       (lastUpdateTime s) (prespawn s) (Instructors s ∖ {[tcp]}))
  else (Some ErrNoController, s).

(** ** Time keeping *)

(** What is assumed of the per-aircraft part of a step: it leaves the
    simulated clock alone. *)
Hypothesis advanceAircraft_SimTime :
  forall s, SimTime (State_ (advanceAircraft s)) = SimTime (State_ s).

Lemma wrap64_small z : - 2 ^ 63 <= z < 2 ^ 63 -> wrap64 z = z.
Proof. intros H. unfold wrap64. rewrite Z.mod_small; lia. Qed.

Lemma handoffStep_SimTime s k :
  SimTime (State_ (handoffStep s k)) = SimTime (State_ s).
Proof.
  unfold handoffStep. destruct (Handoffs s !! k) as [ho|]; [|reflexivity].
  destruct (negb (AutoAcceptTime ho <? _) && negb (prespawn s)); [reflexivity|].
  destruct (Aircraft_ (State_ s) !! k) as [ac|]; [|reflexivity].
  destruct (negb (String.eqb _ _)); [|reflexivity].
  destruct (negb (isActiveHumanController _ _)); [|reflexivity].
  destruct (AutomatedAcceptHandoff _ _ _ _ _) as [comp ac1]. reflexivity.
Qed.

Lemma pointOutStep_SimTime s k :
  SimTime (State_ (pointOutStep s k)) = SimTime (State_ s).
Proof.
  unfold pointOutStep. destruct (PointOuts s !! k) as [po|]; [|reflexivity].
  destruct (negb (AcceptTime po <? _)); [reflexivity|].
  destruct (Aircraft_ (State_ s) !! k) as [ac|]; [|reflexivity].
  destruct (negb (isActiveHumanController _ _)); reflexivity.
Qed.

Lemma resolveHandoffs_SimTime order s :
  SimTime (State_ (resolveHandoffs order s)) = SimTime (State_ s).
Proof.
  unfold resolveHandoffs. revert s.
  induction order as [|k order IH]; intros s; simpl; [reflexivity|].
  rewrite IH. apply handoffStep_SimTime.
Qed.

Lemma resolvePointOuts_SimTime order s :
  SimTime (State_ (resolvePointOuts order s)) = SimTime (State_ s).
Proof.
  unfold resolvePointOuts. revert s.
  induction order as [|k order IH]; intros s; simpl; [reflexivity|].
  rewrite IH. apply pointOutStep_SimTime.
Qed.

Lemma updateState_SimTime s :
  SimTime (State_ (updateState s)) = SimTime (State_ s).
Proof.
  unfold updateState.
  destruct (Second <=? _).
  - rewrite advanceAircraft_SimTime. cbn [set_lastSimUpdate State_].
    rewrite resolvePointOuts_SimTime. apply resolveHandoffs_SimTime.
  - rewrite resolvePointOuts_SimTime. apply resolveHandoffs_SimTime.
Qed.

(** Each round of the loop in [Update] moves the clock by one second. *)
Lemma tick_SimTime s :
  SimTime (State_ (tick s)) = SimTime (State_ s) + Second.
Proof. unfold tick. rewrite updateState_SimTime. reflexivity. Qed.

Lemma iter_tick_SimTime n s :
  SimTime (State_ (Nat.iter n tick s)) = SimTime (State_ s) + Second * Z.of_nat n.
Proof.
  induction n as [|n IH].
  - simpl. lia.
  - rewrite Nat.iter_succ, tick_SimTime, IH. lia.
Qed.

(** One call of [Update] on a running sim. *)
Lemma Update_running now1 now2 s :
  running s ->
  0 <= updateTimeSlop s < Second ->
  0 <= scaledElapsed now1 s ->
  scaledElapsed now1 s + updateTimeSlop s < 2 ^ 63 ->
  let total := scaledElapsed now1 s + updateTimeSlop s in
  Update now1 now2 s =
    set_update_times (total mod Second) now2
      (Nat.iter (Z.to_nat (total / Second)) tick s).
Proof.
  intros [Hp Hprim] Hslop He Hmax total. unfold Update.
  rewrite Hp. unfold isActiveHumanController.
  rewrite bool_decide_eq_true_2 by exact Hprim. cbn [negb].
  fold (scaledElapsed now1 s). fold total.
  assert (Ht : 0 <= total < 2 ^ 63) by (unfold total; lia).
  rewrite (wrap64_small total) by lia.
  assert (Hsec : 0 < Second) by reflexivity.
  assert (Htr : Truncate total Second = Second * (total / Second)).
  { unfold Truncate. change (Second <=? 0) with false. cbv iota.
    rewrite Z.rem_mod_nonneg by lia.
    pose proof (Z.div_mod total Second). lia. }
  rewrite Htr. unfold whole_seconds.
  rewrite Z.mul_comm, Z.quot_mul by lia.
  replace (total - total / Second * Second) with (total mod Second)
    by (pose proof (Z.div_mod total Second); lia).
  rewrite wrap64_small; [reflexivity|].
  pose proof (Z.mod_pos_bound total Second Hsec). unfold Second in *. lia.
Qed.

Lemma Update_running_fields now1 now2 s :
  running s ->
  0 <= updateTimeSlop s < Second ->
  0 <= scaledElapsed now1 s ->
  scaledElapsed now1 s + updateTimeSlop s < 2 ^ 63 ->
  let total := scaledElapsed now1 s + updateTimeSlop s in
  SimTime (State_ (Update now1 now2 s))
    = SimTime (State_ s) + Second * (total / Second)
  /\ updateTimeSlop (Update now1 now2 s) = total mod Second
  /\ lastUpdateTime (Update now1 now2 s) = now2.
Proof.
  intros Hrun Hslop He Hmax total.
  rewrite (Update_running _ _ _ Hrun Hslop He Hmax). fold total.
  cbn [set_update_times State_ updateTimeSlop lastUpdateTime].
  rewrite iter_tick_SimTime.
  rewrite Z2Nat.id by (apply Z.div_pos; [lia | reflexivity]).
  auto.
Qed.

(** C1.  Take a sim whose left-over slop is within a second and a run of
    [Update] calls that each find it unpaused with the primary controller
    an active human (and a scaled elapsed time that is not negative).
    Then a call runs as many rounds as there are whole seconds in the
    scaled time elapsed since [lastUpdateTime] plus the slop, each round
    moving [SimTime] by one second, and keeps the rest below a second as
    the new slop; and over the whole run [SimTime] moves by the whole
    seconds of the total scaled elapsed time plus the slop at the start,
    the slop at the end being the rest, below one second. *)
Theorem update_whole_seconds (calls : list (Z * Z)) (s : Sim) :
  0 <= updateTimeSlop s < Second ->
  all_running calls s ->
  (forall s0, SimTime (State_ (tick s0)) = SimTime (State_ s0) + Second)
  /\ (forall now1 now2 rest, calls = (now1, now2) :: rest ->
        let total := scaledElapsed now1 s + updateTimeSlop s in
        Update now1 now2 s =
          set_update_times (total mod Second) now2
            (Nat.iter (Z.to_nat (total / Second)) tick s))
  /\ SimTime (State_ (Updates calls s))
       = SimTime (State_ s)
         + Second * ((totalScaled calls s + updateTimeSlop s) / Second)
  /\ updateTimeSlop (Updates calls s)
       = (totalScaled calls s + updateTimeSlop s) mod Second
  /\ 0 <= updateTimeSlop (Updates calls s) < Second.
Proof.
  intros Hslop Hrun. split; [exact tick_SimTime|]. split.
  - intros now1 now2 rest ->. destruct Hrun as (Hr & He & Hmax & _).
    apply Update_running; assumption.
  - revert s Hslop Hrun.
    induction calls as [|[now1 now2] rest IH]; intros s Hslop Hrun.
    + cbn [Updates totalScaled]. rewrite Z.add_0_l.
      rewrite Z.div_small, Z.mod_small by lia. split; [lia|]. split; [reflexivity|lia].
    + destruct Hrun as (Hr & He & Hmax & Hrest).
      destruct (Update_running_fields now1 now2 s Hr Hslop He Hmax)
        as (Ht & Hs & _).
      assert (Hsec : 0 < Second) by reflexivity.
      set (e := scaledElapsed now1 s) in *.
      set (s1 := Update now1 now2 s) in *.
      assert (Hslop1 : 0 <= updateTimeSlop s1 < Second).
      { rewrite Hs. apply Z.mod_pos_bound. exact Hsec. }
      destruct (IH s1 Hslop1 Hrest) as (IHt & IHs & IHb).
      cbn [Updates totalScaled]. fold e. fold s1.
      set (T := totalScaled rest s1) in *.
      assert (Hsum : e + T + updateTimeSlop s
                     = (T + updateTimeSlop s1)
                       + ((e + updateTimeSlop s) / Second) * Second).
      { rewrite Hs. pose proof (Z.div_mod (e + updateTimeSlop s) Second). lia. }
      split; [|split].
      * rewrite IHt, Ht, Hsum. rewrite Z.div_add by lia. lia.
      * rewrite IHs, Hsum. rewrite Z.mod_add by lia. reflexivity.
      * exact IHb.
Qed.

(** ** Handoffs and point-outs *)

(** What is assumed of the automation: it leaves the handoff target of
    the aircraft it is handed in place. *)
Hypothesis AutomatedAcceptHandoff_target :
  forall ac tgt fac t comp,
    HandoffTrackController (snd (AutomatedAcceptHandoff ac tgt fac t comp))
    = HandoffTrackController ac.

(** What every iteration leaves alone. *)
Definition frame (s s' : Sim) : Prop :=
  SimTime (State_ s') = SimTime (State_ s)
  /\ prespawn s' = prespawn s
  /\ humanControllers s' = humanControllers s
  /\ exists new, eventStream s' = eventStream s ++ new.

Lemma frame_refl s : frame s s.
Proof. repeat split. exists []. rewrite app_nil_r. reflexivity. Qed.

Lemma frame_trans s1 s2 s3 : frame s1 s2 -> frame s2 s3 -> frame s1 s3.
Proof.
  intros (H1 & H2 & H3 & n1 & H4) (G1 & G2 & G3 & n2 & G4).
  repeat split; try congruence.
  exists (n1 ++ n2). rewrite G4, H4, app_assoc. reflexivity.
Qed.

Lemma frame_posted s1 s2 s3 e :
  (exists before after, eventStream s2 = eventStream s1 ++ before ++ [e] ++ after) ->
  frame s2 s3 ->
  exists before after, eventStream s3 = eventStream s1 ++ before ++ [e] ++ after.
Proof.
  intros (b & a & H) (_ & _ & _ & n & G).
  exists b, (a ++ n). rewrite G, H. rewrite <- !app_assoc. reflexivity.
Qed.

Lemma posted_frame s1 s2 s3 e :
  frame s1 s2 ->
  (exists before after, eventStream s3 = eventStream s2 ++ before ++ [e] ++ after) ->
  exists before after, eventStream s3 = eventStream s1 ++ before ++ [e] ++ after.
Proof.
  intros (_ & _ & _ & n & G) (b & a & H).
  exists (n ++ b), a. rewrite H, G. rewrite <- !app_assoc. reflexivity.
Qed.

(** The entries that an iteration for another key leaves alone. *)
Definition untouched (cs : string) (s s' : Sim) : Prop :=
  Handoffs s' !! cs = Handoffs s !! cs
  /\ PointOuts s' !! cs = PointOuts s !! cs
  /\ Aircraft_ (State_ s') !! cs = Aircraft_ (State_ s) !! cs.

Lemma untouched_refl cs s : untouched cs s s.
Proof. repeat split. Qed.

Lemma untouched_trans cs s1 s2 s3 :
  untouched cs s1 s2 -> untouched cs s2 s3 -> untouched cs s1 s3.
Proof. intros (H1 & H2 & H3) (G1 & G2 & G3). repeat split; congruence. Qed.

Ltac frame_tac :=
  first
    [ apply frame_refl
    | repeat split; cbn;
      first [ exists []; rewrite app_nil_r; reflexivity
            | eexists; reflexivity ] ].

Lemma handoffStep_frame s k : frame s (handoffStep s k).
Proof.
  unfold handoffStep. destruct (Handoffs s !! k) as [ho|]; [|frame_tac].
  destruct (negb (AutoAcceptTime ho <? _) && negb (prespawn s)); [frame_tac|].
  destruct (Aircraft_ (State_ s) !! k) as [ac|]; [|frame_tac].
  destruct (negb (String.eqb _ _)); [|frame_tac].
  destruct (negb (isActiveHumanController _ _)); [|frame_tac].
  destruct (AutomatedAcceptHandoff _ _ _ _ _) as [comp ac1].
  frame_tac.
Qed.

Lemma handoffStep_untouched s k cs : k <> cs -> untouched cs s (handoffStep s k).
Proof.
  intros Hne. unfold handoffStep.
  destruct (Handoffs s !! k) as [ho|]; [|apply untouched_refl].
  destruct (negb (AutoAcceptTime ho <? _) && negb (prespawn s)); [apply untouched_refl|].
  destruct (Aircraft_ (State_ s) !! k) as [ac|].
  - destruct (negb (String.eqb _ _)).
    + destruct (negb (isActiveHumanController _ _)).
      * destruct (AutomatedAcceptHandoff _ _ _ _ _) as [comp ac1].
        unfold untouched. cbn. rewrite lookup_delete_ne, lookup_insert_ne by exact Hne.
        auto.
      * unfold untouched. cbn. rewrite lookup_delete_ne by exact Hne. auto.
    + unfold untouched. cbn. rewrite lookup_delete_ne by exact Hne. auto.
  - unfold untouched. cbn. rewrite lookup_delete_ne by exact Hne. auto.
Qed.

(** An iteration finds nothing to do where the entry is gone or where its
    time has not passed. *)
Lemma handoffStep_idle s cs :
  (Handoffs s !! cs = None
   \/ exists ho, Handoffs s !! cs = Some ho
                /\ SimTime (State_ s) <= AutoAcceptTime ho /\ prespawn s = false) ->
  handoffStep s cs = s.
Proof.
  unfold handoffStep. intros [->|(ho & -> & Ht & ->)]; [reflexivity|].
  replace (AutoAcceptTime ho <? SimTime (State_ s)) with false
    by (symmetry; apply Z.ltb_ge; exact Ht).
  reflexivity.
Qed.

Lemma resolveHandoffs_frame order s : frame s (resolveHandoffs order s).
Proof.
  unfold resolveHandoffs. revert s.
  induction order as [|k order IH]; intros s; simpl; [apply frame_refl|].
  eapply frame_trans; [apply handoffStep_frame | apply IH].
Qed.

(** A loop in which the iterations for [cs] find nothing to do. *)
Lemma resolveHandoffs_idle order s cs :
  (Handoffs s !! cs = None
   \/ exists ho, Handoffs s !! cs = Some ho
                /\ SimTime (State_ s) <= AutoAcceptTime ho /\ prespawn s = false) ->
  untouched cs s (resolveHandoffs order s).
Proof.
  unfold resolveHandoffs. revert s.
  induction order as [|k order IH]; intros s Hidle; simpl; [apply untouched_refl|].
  destruct (decide (k = cs)) as [->|Hne].
  - rewrite (handoffStep_idle _ _ Hidle). apply IH. exact Hidle.
  - pose proof (handoffStep_untouched s k cs Hne) as Hu.
    pose proof (handoffStep_frame s k) as (Ft & Fp & _).
    eapply untouched_trans; [exact Hu|]. apply IH.
    destruct Hu as (Hh & _). rewrite Hh, Ft, Fp. exact Hidle.
Qed.

(** What the iteration for [cs] does once the time of its entry has
    passed. *)
Definition resolved (cs : string) (s s' : Sim) : Prop :=
  Handoffs s' !! cs = None
  /\ (forall ac,
        Aircraft_ (State_ s) !! cs = Some ac ->
        HandoffTrackController ac <> "" ->
        HandoffTrackController ac ∉ humanControllers s ->
        (exists ac',
            Aircraft_ (State_ s') !! cs = Some ac'
            /\ TrackingController ac' = HandoffTrackController ac
            /\ HandoffTrackController ac' = "")
        /\ exists before after,
            eventStream s' =
              eventStream s ++ before
              ++ [mkEvent AcceptedHandoffEvent (TrackingController ac)
                    (HandoffTrackController ac) (Callsign ac) ""] ++ after)
  /\ (forall ac,
        Aircraft_ (State_ s) !! cs = Some ac ->
        HandoffTrackController ac ∈ humanControllers s ->
        Aircraft_ (State_ s') !! cs = Some ac).

Lemma handoffStep_due s cs ho :
  Handoffs s !! cs = Some ho ->
  AutoAcceptTime ho < SimTime (State_ s) ->
  resolved cs s (handoffStep s cs).
Proof.
  intros Hho Ht. unfold handoffStep. rewrite Hho.
  replace (AutoAcceptTime ho <? SimTime (State_ s)) with true
    by (symmetry; apply Z.ltb_lt; exact Ht).
  cbn [negb andb].
  destruct (Aircraft_ (State_ s) !! cs) as [ac|] eqn:Hac.
  - destruct (String.eqb (HandoffTrackController ac) "") eqn:Hempty; cbn [negb].
    + apply String.eqb_eq in Hempty.
      split; [cbn; apply lookup_delete_eq|]. split.
      * intros ac0 H0 Hne. rewrite Hac in H0; injection H0 as <-. contradiction.
      * intros ac0 H0 _. cbn. exact H0.
    + apply String.eqb_neq in Hempty. unfold isActiveHumanController.
      destruct (decide (HandoffTrackController ac ∈ humanControllers s)) as [Hh|Hh].
      * rewrite bool_decide_eq_true_2 by exact Hh. cbn [negb].
        split; [cbn; apply lookup_delete_eq|]. split.
        -- intros ac0 H0 _ Hnh. rewrite Hac in H0; injection H0 as <-. contradiction.
        -- intros ac0 H0 _. cbn. exact H0.
      * rewrite bool_decide_eq_false_2 by exact Hh. cbn [negb].
        pose proof (AutomatedAcceptHandoff_target ac (HandoffTrackController ac)
                      (ReceivingFacility ho)
                      (SimTime (State_ (Post (mkEvent AcceptedHandoffEvent
                         (TrackingController ac) (HandoffTrackController ac)
                         (Callsign ac) "") s)))
                      (ERAMComputers (State_ (Post (mkEvent AcceptedHandoffEvent
                         (TrackingController ac) (HandoffTrackController ac)
                         (Callsign ac) "") s)))) as Htgt.
        destruct (AutomatedAcceptHandoff _ _ _ _ _) as [comp ac1].
        cbn [snd] in Htgt.
        split; [cbn; apply lookup_delete_eq|]. split.
        -- intros ac0 H0 _ _. rewrite Hac in H0; injection H0 as <-. split.
           ++ eexists. split; [cbn; apply lookup_insert_eq|]. cbn. auto.
           ++ exists [], []. cbn. reflexivity.
        -- intros ac0 H0 Hh0. rewrite Hac in H0; injection H0 as <-. contradiction.
  - split; [cbn; apply lookup_delete_eq|]. split.
    + intros ac0 H0. rewrite Hac in H0. discriminate.
    + intros ac0 H0. rewrite Hac in H0. discriminate.
Qed.

Lemma resolved_then_idle cs s s1 s2 :
  resolved cs s s1 -> untouched cs s1 s2 -> frame s1 s2 -> resolved cs s s2.
Proof.
  intros (Hh & Hacc & Hhum) (Uh & _ & Ua) Hf.
  split; [rewrite Uh; exact Hh|]. split.
  - intros ac Hac Hne Hnh. destruct (Hacc ac Hac Hne Hnh) as [(ac' & H1 & H2) Hev].
    split.
    + exists ac'. rewrite Ua. auto.
    + eapply frame_posted; eassumption.
  - intros ac Hac Hh0. rewrite Ua. apply Hhum; assumption.
Qed.

Lemma idle_then_resolved cs s s1 s2 :
  untouched cs s s1 -> frame s s1 -> resolved cs s1 s2 -> resolved cs s s2.
Proof.
  intros (Uh & _ & Ua) Hf (Hh & Hacc & Hhum).
  pose proof Hf as (_ & _ & Fh & _).
  split; [exact Hh|]. split.
  - intros ac Hac Hne Hnh. rewrite <- Ua in Hac. rewrite <- Fh in Hnh.
    destruct (Hacc ac Hac Hne Hnh) as [Hac' Hev].
    split; [exact Hac'|]. eapply posted_frame; eassumption.
  - intros ac Hac Hh0. rewrite <- Ua in Hac. rewrite <- Fh in Hh0.
    apply Hhum; assumption.
Qed.

Lemma resolveHandoffs_due order s cs ho :
  Handoffs s !! cs = Some ho ->
  AutoAcceptTime ho < SimTime (State_ s) ->
  cs ∈ order ->
  resolved cs s (resolveHandoffs order s).
Proof.
  revert s. induction order as [|k order IH]; intros s Hho Ht Hin.
  - apply elem_of_nil in Hin. destruct Hin.
  - change (resolveHandoffs (k :: order) s)
      with (resolveHandoffs order (handoffStep s k)).
    destruct (decide (k = cs)) as [->|Hne].
    + pose proof (handoffStep_due s cs ho Hho Ht) as Hres.
      eapply resolved_then_idle; [exact Hres| |apply resolveHandoffs_frame].
      apply resolveHandoffs_idle. left. destruct Hres as [H _]. exact H.
    + apply elem_of_cons in Hin as [Heq|Hin]; [congruence|].
      pose proof (handoffStep_untouched s k cs Hne) as Hu.
      pose proof (handoffStep_frame s k) as Hf.
      eapply idle_then_resolved; [exact Hu | exact Hf|].
      destruct Hu as (Uh & _). destruct Hf as (Ft & _).
      apply (IH _ ltac:(rewrite Uh; exact Hho) ltac:(rewrite Ft; exact Ht) Hin).
Qed.

(** C2, as the code has it.  Outside prespawn, take a handoff that
    [s.Handoffs] holds for [cs] when the loop over the handoffs starts, in
    whatever order [range] visits the keys.  While [SimTime] is not after
    the auto-accept time, the loop leaves the entry and the aircraft as
    they are.  Once [SimTime] is strictly after it, the loop removes the
    entry; if the aircraft is there with a handoff target that is not an
    active human, its [TrackingController] becomes that target, its
    [HandoffTrackController] is emptied and an [AcceptedHandoffEvent] from
    the old tracking controller to the target is posted; if the target is
    an active human, the aircraft is left as it is. *)
Theorem handoff_auto_accept (s : Sim) (order : list string) (cs : string)
    (ho : Handoff) :
  prespawn s = false ->
  Handoffs s !! cs = Some ho ->
  cs ∈ order ->
  let s' := resolveHandoffs order s in
  (SimTime (State_ s) <= AutoAcceptTime ho ->
     Handoffs s' !! cs = Some ho
     /\ Aircraft_ (State_ s') !! cs = Aircraft_ (State_ s) !! cs)
  /\ (AutoAcceptTime ho < SimTime (State_ s) ->
       Handoffs s' !! cs = None
       /\ (forall ac,
             Aircraft_ (State_ s) !! cs = Some ac ->
             HandoffTrackController ac <> "" ->
             HandoffTrackController ac ∉ humanControllers s ->
             (exists ac',
                 Aircraft_ (State_ s') !! cs = Some ac'
                 /\ TrackingController ac' = HandoffTrackController ac
                 /\ HandoffTrackController ac' = "")
             /\ exists before after,
                 eventStream s' =
                   eventStream s ++ before
                   ++ [mkEvent AcceptedHandoffEvent (TrackingController ac)
                         (HandoffTrackController ac) (Callsign ac) ""]
                   ++ after)
       /\ (forall ac,
             Aircraft_ (State_ s) !! cs = Some ac ->
             HandoffTrackController ac ∈ humanControllers s ->
             Aircraft_ (State_ s') !! cs = Some ac)).
Proof.
  intros Hpre Hho Hin s'. split.
  - intros Ht.
    destruct (resolveHandoffs_idle order s cs) as (Hh & _ & Ha).
    { right. exists ho. auto. }
    fold s' in Hh, Ha. rewrite Hh. auto.
  - intros Ht. exact (resolveHandoffs_due order s cs ho Hho Ht Hin).
Qed.

Lemma pointOutStep_frame s k : frame s (pointOutStep s k).
Proof.
  unfold pointOutStep. destruct (PointOuts s !! k) as [po|]; [|frame_tac].
  destruct (negb (AcceptTime po <? _)); [frame_tac|].
  destruct (Aircraft_ (State_ s) !! k) as [ac|]; [|frame_tac].
  destruct (negb (isActiveHumanController _ _)); frame_tac.
Qed.

Lemma pointOutStep_untouched s k cs : k <> cs -> untouched cs s (pointOutStep s k).
Proof.
  intros Hne. unfold pointOutStep.
  destruct (PointOuts s !! k) as [po|]; [|apply untouched_refl].
  destruct (negb (AcceptTime po <? _)); [apply untouched_refl|].
  destruct (Aircraft_ (State_ s) !! k) as [ac|]; [|apply untouched_refl].
  destruct (negb (isActiveHumanController _ _)); [|apply untouched_refl].
  unfold untouched. cbn. rewrite lookup_delete_ne by exact Hne. auto.
Qed.

Lemma pointOutStep_gone s cs : PointOuts s !! cs = None -> pointOutStep s cs = s.
Proof. unfold pointOutStep. intros ->. reflexivity. Qed.

Lemma resolvePointOuts_frame order s : frame s (resolvePointOuts order s).
Proof.
  unfold resolvePointOuts. revert s.
  induction order as [|k order IH]; intros s; simpl; [apply frame_refl|].
  eapply frame_trans; [apply pointOutStep_frame | apply IH].
Qed.

Lemma resolvePointOuts_gone order s cs :
  PointOuts s !! cs = None -> PointOuts (resolvePointOuts order s) !! cs = None.
Proof.
  unfold resolvePointOuts. revert s.
  induction order as [|k order IH]; intros s Hgone; simpl; [exact Hgone|].
  apply IH. destruct (decide (k = cs)) as [->|Hne].
  - rewrite pointOutStep_gone; assumption.
  - destruct (pointOutStep_untouched s k cs Hne) as (_ & Hp & _).
    rewrite Hp. exact Hgone.
Qed.

(** C9, as the code has it.  Take a point-out that [s.PointOuts] holds
    for [cs] when the loop over the point-outs starts, in whatever order
    [range] visits the keys.  If [SimTime] is after its accept time, the
    controller it is addressed to is not an active human and the aircraft
    is in [State.Aircraft], the loop posts an [AcknowledgedPointOutEvent]
    whose [FromController] is the point-out's [ToController] and whose
    [ToController] is the point-out's [FromController], and removes the
    entry. *)
Theorem pointout_auto_acknowledge (s : Sim) (order : list string)
    (cs : string) (po : PointOut) (ac : Aircraft) :
  PointOuts s !! cs = Some po ->
  cs ∈ order ->
  AcceptTime po < SimTime (State_ s) ->
  po_ToController po ∉ humanControllers s ->
  Aircraft_ (State_ s) !! cs = Some ac ->
  let s' := resolvePointOuts order s in
  PointOuts s' !! cs = None
  /\ exists before after,
      eventStream s' =
        eventStream s ++ before
        ++ [mkEvent AcknowledgedPointOutEvent (po_ToController po)
              (po_FromController po) (Callsign ac) ""]
        ++ after.
Proof.
  revert s. induction order as [|k order IH]; intros s Hpo Hin Ht Hnh Hac s'.
  - apply elem_of_nil in Hin. destruct Hin.
  - subst s'.
    change (resolvePointOuts (k :: order) s)
      with (resolvePointOuts order (pointOutStep s k)).
    destruct (decide (k = cs)) as [->|Hne].
    + assert (Hstep : pointOutStep s cs =
                set_PointOuts (delete cs (PointOuts s))
                  (Post (mkEvent AcknowledgedPointOutEvent (po_ToController po)
                           (po_FromController po) (Callsign ac) "") s)).
      { unfold pointOutStep. rewrite Hpo.
        replace (AcceptTime po <? SimTime (State_ s)) with true
          by (symmetry; apply Z.ltb_lt; exact Ht).
        cbn [negb]. rewrite Hac. unfold isActiveHumanController.
        rewrite bool_decide_eq_false_2 by exact Hnh. reflexivity. }
      rewrite Hstep. split.
      * apply resolvePointOuts_gone. cbn. apply lookup_delete_eq.
      * eapply frame_posted; [|apply resolvePointOuts_frame].
        exists [], []. cbn. reflexivity.
    + apply elem_of_cons in Hin as [Heq|Hin]; [congruence|].
      destruct (pointOutStep_untouched s k cs Hne) as (_ & Up & Ua).
      pose proof (pointOutStep_frame s k) as Hf.
      pose proof Hf as (Ft & _ & Fh & _).
      destruct (IH (pointOutStep s k)) as [Hgone Hev].
      * rewrite Up. exact Hpo.
      * exact Hin.
      * rewrite Ft. exact Ht.
      * rewrite Fh. exact Hnh.
      * rewrite Ua. exact Hac.
      * split; [exact Hgone|]. eapply posted_frame; eassumption.
Qed.

(** ** Signing off *)



(** ** What the two loops of [updateState] leave behind *)

(** The test of the handoff loop: an entry is taken up when its time has
    passed or the sim is prespawning. *)
Definition handoff_due (s : Sim) (ho : Handoff) : bool :=
  (AutoAcceptTime ho <? SimTime (State_ s)) || prespawn s.

(** The test of the point-out loop, with the two tests inside it: the
    time has passed, the aircraft is there and the recipient is not a
    human. *)
Definition pointOut_due (s : Sim) (callsign : string) (po : PointOut) : bool :=
  (AcceptTime po <? SimTime (State_ s))
  && bool_decide (is_Some (Aircraft_ (State_ s) !! callsign))
  && negb (isActiveHumanController s (po_ToController po)).

Lemma size_delete_lookup {A} (m : gmap string A) k x :
  m !! k = Some x -> size m = Datatypes.S (size (delete k m)).
Proof.
  intros Hk. rewrite map_size_delete, Hk.
  destruct (size m) as [|n] eqn:Hsz; [|reflexivity].
  apply map_size_empty_inv in Hsz. subst m.
  rewrite lookup_empty in Hk. discriminate.
Qed.

Lemma handoff_due_frame s s' ho :
  frame s s' -> handoff_due s' ho = handoff_due s ho.
Proof. intros (Ht & Hp & _). unfold handoff_due. rewrite Ht, Hp. reflexivity. Qed.

Lemma handoffStep_lookup s k :
  Handoffs (handoffStep s k) !! k =
    match Handoffs s !! k with
    | Some ho => if handoff_due s ho then None else Some ho
    | None => None
    end.
Proof.
  unfold handoffStep, handoff_due.
  destruct (Handoffs s !! k) as [ho|] eqn:Hk; [|exact Hk].
  destruct (AutoAcceptTime ho <? SimTime (State_ s)), (prespawn s);
    cbn [negb andb orb]; try exact Hk;
    cbn [set_Handoffs Handoffs]; apply lookup_delete_eq.
Qed.

(** What one iteration posts: nothing, or one accepted-handoff event for
    the entry it removes. *)
Definition posts_for (ty : EventType) (removed : nat) (s s' : Sim) : Prop :=
  exists new,
    eventStream s' = eventStream s ++ new
    /\ Forall (fun e => ev_Type e = ty) new
    /\ (length new <= removed)%nat.

Lemma handoffStep_posts s k :
  posts_for AcceptedHandoffEvent
    (size (Handoffs s) - size (Handoffs (handoffStep s k))) s (handoffStep s k)
  /\ (size (Handoffs (handoffStep s k)) <= size (Handoffs s))%nat.
Proof.
  unfold handoffStep, posts_for.
  destruct (Handoffs s !! k) as [ho|] eqn:Hk.
  2:{ split; [|lia]. exists []. rewrite app_nil_r. repeat split; [constructor|simpl; lia]. }
  destruct (negb (AutoAcceptTime ho <? _) && negb (prespawn s)).
  { split; [|lia]. exists []. rewrite app_nil_r. repeat split; [constructor|simpl; lia]. }
  pose proof (size_delete_lookup _ _ _ Hk) as Hsz.
  destruct (Aircraft_ (State_ s) !! k) as [ac|].
  2:{ cbn [set_Handoffs Handoffs eventStream]. split; [|lia].
      exists []. rewrite app_nil_r. repeat split; [constructor|simpl; lia]. }
  destruct (negb (String.eqb _ _)).
  2:{ cbn [set_Handoffs Handoffs eventStream]. split; [|lia].
      exists []. rewrite app_nil_r. repeat split; [constructor|simpl; lia]. }
  destruct (negb (isActiveHumanController _ _)).
  2:{ cbn [set_Handoffs Handoffs eventStream]. split; [|lia].
      exists []. rewrite app_nil_r. repeat split; [constructor|simpl; lia]. }
  destruct (AutomatedAcceptHandoff _ _ _ _ _) as [comp ac1].
  cbn [set_Handoffs with_State Post Handoffs eventStream]. split; [|lia].
  eexists. split; [reflexivity|]. split.
  - constructor; [reflexivity|constructor].
  - simpl. lia.
Qed.

Lemma posts_for_trans ty n1 n2 n s1 s2 s3 :
  posts_for ty n1 s1 s2 -> posts_for ty n2 s2 s3 -> (n1 + n2 <= n)%nat ->
  posts_for ty n s1 s3.
Proof.
  intros (new1 & E1 & F1 & L1) (new2 & E2 & F2 & L2) Hn.
  exists (new1 ++ new2). split; [|split].
  - rewrite E2, E1, app_assoc. reflexivity.
  - apply Forall_app. auto.
  - rewrite length_app. lia.
Qed.

Lemma resolveHandoffs_posts order s :
  posts_for AcceptedHandoffEvent
    (size (Handoffs s) - size (Handoffs (resolveHandoffs order s)))
    s (resolveHandoffs order s)
  /\ (size (Handoffs (resolveHandoffs order s)) <= size (Handoffs s))%nat.
Proof.
  unfold resolveHandoffs. revert s.
  induction order as [|k order IH]; intros s; cbn [fold_left].
  - split; [|lia]. exists []. rewrite app_nil_r.
    repeat split; [constructor|simpl; lia].
  - destruct (handoffStep_posts s k) as [P1 L1].
    destruct (IH (handoffStep s k)) as [P2 L2].
    split; [|lia]. eapply posts_for_trans; [exact P1 | exact P2 | lia].
Qed.

Lemma resolveHandoffs_lookup order s k :
  Handoffs (resolveHandoffs order s) !! k =
    match Handoffs s !! k with
    | Some ho =>
        if handoff_due s ho && bool_decide (k ∈ order) then None else Some ho
    | None => None
    end.
Proof.
  unfold resolveHandoffs. revert s.
  induction order as [|a order IH]; intros s; cbn [fold_left].
  - destruct (Handoffs s !! k) as [ho|]; [|reflexivity].
    rewrite bool_decide_eq_false_2 by apply not_elem_of_nil.
    rewrite andb_false_r. reflexivity.
  - rewrite IH. destruct (decide (a = k)) as [->|Hne].
    + rewrite handoffStep_lookup.
      destruct (Handoffs s !! k) as [ho|]; [|reflexivity].
      destruct (handoff_due s ho) eqn:Hdue.
      * cbn [andb]. rewrite bool_decide_eq_true_2 by (apply elem_of_cons; left; reflexivity).
        reflexivity.
      * rewrite (handoff_due_frame s) by apply handoffStep_frame.
        rewrite Hdue. reflexivity.
    + destruct (handoffStep_untouched s a k Hne) as (-> & _ & _).
      destruct (Handoffs s !! k) as [ho|]; [|reflexivity].
      rewrite (handoff_due_frame s) by apply handoffStep_frame.
      destruct (handoff_due s ho); [|reflexivity]. cbn [andb].
      destruct (decide (k ∈ order)) as [Hin|Hnin].
      * rewrite !bool_decide_eq_true_2; [reflexivity| |exact Hin].
        apply elem_of_cons. right. exact Hin.
      * rewrite !bool_decide_eq_false_2; [reflexivity| |exact Hnin].
        intros [Heq|Hin]%elem_of_cons; [congruence|contradiction].
Qed.

Lemma resolveHandoffs_nothing_due order s :
  (forall k ho, Handoffs s !! k = Some ho -> handoff_due s ho = false) ->
  resolveHandoffs order s = s.
Proof.
  intros Hnone. unfold resolveHandoffs.
  induction order as [|k order IH]; cbn [fold_left]; [reflexivity|].
  rewrite handoffStep_idle; [exact IH|].
  destruct (Handoffs s !! k) as [ho|] eqn:Hk; [right|left; reflexivity].
  exists ho. split; [reflexivity|].
  specialize (Hnone k ho Hk). unfold handoff_due in Hnone.
  apply orb_false_iff in Hnone as [Ht Hp]. apply Z.ltb_ge in Ht. auto.
Qed.

(** X5.  The handoff loop of [updateState], when [range] yields every key
    of [Handoffs].  What is left in [Handoffs] are exactly the entries
    whose time has not passed, and none at all while prespawning; a
    second run of the loop changes nothing; an aircraft with no entry
    that is due stays as it was; and the loop posts accepted-handoff
    events only, at most one for each entry it removes. *)
Theorem handoff_loop_result (s : Sim) (order : list string) :
  (forall k, is_Some (Handoffs s !! k) -> k ∈ order) ->
  let s' := resolveHandoffs order s in
  (forall k ho,
      Handoffs s' !! k = Some ho
      <-> Handoffs s !! k = Some ho
          /\ SimTime (State_ s) <= AutoAcceptTime ho /\ prespawn s = false)
  /\ (forall order', resolveHandoffs order' s' = s')
  /\ (forall k,
        (forall ho, Handoffs s !! k = Some ho ->
                    SimTime (State_ s) <= AutoAcceptTime ho /\ prespawn s = false) ->
        Aircraft_ (State_ s') !! k = Aircraft_ (State_ s) !! k)
  /\ exists new,
      eventStream s' = eventStream s ++ new
      /\ Forall (fun e => ev_Type e = AcceptedHandoffEvent) new
      /\ (length new + size (Handoffs s') <= size (Handoffs s))%nat.
Proof.
  intros Hcover s'.
  assert (Hleft : forall k ho,
      Handoffs s' !! k = Some ho
      <-> Handoffs s !! k = Some ho
          /\ SimTime (State_ s) <= AutoAcceptTime ho /\ prespawn s = false).
  { intros k ho. unfold s'. rewrite resolveHandoffs_lookup.
    destruct (Handoffs s !! k) as [ho0|] eqn:Hk.
    - rewrite bool_decide_eq_true_2 by (apply Hcover; eauto).
      rewrite andb_true_r. unfold handoff_due.
      destruct (AutoAcceptTime ho0 <? SimTime (State_ s)) eqn:Ht;
        destruct (prespawn s) eqn:Hp; cbn [orb].
      + apply Z.ltb_lt in Ht. split; [discriminate|]. intros ([= <-] & ? & ?). lia.
      + apply Z.ltb_lt in Ht. split; [discriminate|]. intros ([= <-] & ? & ?). lia.
      + split; [discriminate|]. intros (_ & _ & ?). discriminate.
      + apply Z.ltb_ge in Ht. split.
        * intros [= <-]. auto.
        * intros ([= <-] & _). reflexivity.
    - split; [discriminate|]. intros (? & _). discriminate. }
  split; [exact Hleft|]. split; [|split].
  - intros order'. apply resolveHandoffs_nothing_due.
    intros k ho Hk. apply Hleft in Hk as (_ & Ht & Hp).
    destruct (resolveHandoffs_frame order s) as (Ht' & Hp' & _).
    unfold handoff_due. fold s' in Ht', Hp'. rewrite Ht', Hp'.
    apply orb_false_iff. split; [apply Z.ltb_ge; exact Ht | exact Hp].
  - intros k Hk. apply (resolveHandoffs_idle order s k).
    destruct (Handoffs s !! k) as [ho|]; [right|left; reflexivity].
    exists ho. split; [reflexivity|]. apply Hk. reflexivity.
  - destruct (resolveHandoffs_posts order s) as [(new & E & F & L) Hle].
    exists new. fold s' in E, L, Hle. split; [exact E|]. split; [exact F|]. lia.
Qed.

(** The point-out loop works on [PointOuts] and the event stream
    only. *)
Definition pointOut_frame (s s' : Sim) : Prop :=
  State_ s' = State_ s
  /\ humanControllers s' = humanControllers s
  /\ Handoffs s' = Handoffs s.

Lemma pointOutStep_pointOut_frame s k : pointOut_frame s (pointOutStep s k).
Proof.
  unfold pointOutStep, pointOut_frame.
  destruct (PointOuts s !! k) as [po|]; [|auto].
  destruct (negb (AcceptTime po <? _)); [auto|].
  destruct (Aircraft_ (State_ s) !! k) as [ac|]; [|auto].
  destruct (negb (isActiveHumanController _ _)); auto.
Qed.

Lemma pointOut_due_frame s s' k po :
  pointOut_frame s s' -> pointOut_due s' k po = pointOut_due s k po.
Proof.
  intros (Hst & Hh & _). unfold pointOut_due, isActiveHumanController.
  rewrite Hst, Hh. reflexivity.
Qed.

Lemma resolvePointOuts_pointOut_frame order s :
  pointOut_frame s (resolvePointOuts order s).
Proof.
  unfold resolvePointOuts. revert s.
  induction order as [|k order IH]; intros s; cbn [fold_left].
  - repeat split.
  - destruct (pointOutStep_pointOut_frame s k) as (E1 & E2 & E3).
    destruct (IH (pointOutStep s k)) as (F1 & F2 & F3).
    repeat split; congruence.
Qed.

Lemma pointOutStep_lookup s k :
  PointOuts (pointOutStep s k) !! k =
    match PointOuts s !! k with
    | Some po => if pointOut_due s k po then None else Some po
    | None => None
    end.
Proof.
  unfold pointOutStep, pointOut_due.
  destruct (PointOuts s !! k) as [po|] eqn:Hk; [|exact Hk].
  destruct (AcceptTime po <? SimTime (State_ s)); cbn [negb andb]; [|exact Hk].
  destruct (Aircraft_ (State_ s) !! k) as [ac|] eqn:Hac.
  - rewrite bool_decide_eq_true_2 by eauto. cbn [andb].
    destruct (negb (isActiveHumanController _ _)); [|exact Hk].
    cbn [set_PointOuts Post PointOuts]. apply lookup_delete_eq.
  - rewrite bool_decide_eq_false_2 by (intros [? ?]; discriminate). exact Hk.
Qed.

Lemma pointOutStep_lookup_ne s k k' :
  k <> k' -> PointOuts (pointOutStep s k) !! k' = PointOuts s !! k'.
Proof. intros Hne. exact (proj1 (proj2 (pointOutStep_untouched s k k' Hne))). Qed.

(** One iteration posts one acknowledgment for the entry it removes, and
    nothing otherwise. *)
Definition acknowledges (s s' : Sim) : Prop :=
  exists new,
    eventStream s' = eventStream s ++ new
    /\ Forall (fun e => ev_Type e = AcknowledgedPointOutEvent) new
    /\ (length new + size (PointOuts s') = size (PointOuts s))%nat.

Lemma acknowledges_refl s : acknowledges s s.
Proof. exists []. rewrite app_nil_r. repeat split. constructor. Qed.

Lemma acknowledges_trans s1 s2 s3 :
  acknowledges s1 s2 -> acknowledges s2 s3 -> acknowledges s1 s3.
Proof.
  intros (new1 & E1 & F1 & L1) (new2 & E2 & F2 & L2).
  exists (new1 ++ new2). split; [|split].
  - rewrite E2, E1, app_assoc. reflexivity.
  - apply Forall_app. auto.
  - rewrite length_app. lia.
Qed.

Lemma pointOutStep_acknowledges s k : acknowledges s (pointOutStep s k).
Proof.
  unfold pointOutStep.
  destruct (PointOuts s !! k) as [po|] eqn:Hk; [|apply acknowledges_refl].
  destruct (negb (AcceptTime po <? _)); [apply acknowledges_refl|].
  destruct (Aircraft_ (State_ s) !! k) as [ac|]; [|apply acknowledges_refl].
  destruct (negb (isActiveHumanController _ _)); [|apply acknowledges_refl].
  eexists. cbn [set_PointOuts Post PointOuts eventStream].
  split; [reflexivity|]. split.
  - constructor; [reflexivity|constructor].
  - rewrite (size_delete_lookup _ _ _ Hk). reflexivity.
Qed.

Lemma resolvePointOuts_acknowledges order s :
  acknowledges s (resolvePointOuts order s).
Proof.
  unfold resolvePointOuts. revert s.
  induction order as [|k order IH]; intros s; cbn [fold_left].
  - apply acknowledges_refl.
  - eapply acknowledges_trans; [apply pointOutStep_acknowledges | apply IH].
Qed.

Lemma resolvePointOuts_lookup order s k :
  PointOuts (resolvePointOuts order s) !! k =
    match PointOuts s !! k with
    | Some po =>
        if pointOut_due s k po && bool_decide (k ∈ order) then None else Some po
    | None => None
    end.
Proof.
  unfold resolvePointOuts. revert s.
  induction order as [|a order IH]; intros s; cbn [fold_left].
  - destruct (PointOuts s !! k) as [po|]; [|reflexivity].
    rewrite bool_decide_eq_false_2 by apply not_elem_of_nil.
    rewrite andb_false_r. reflexivity.
  - rewrite IH. destruct (decide (a = k)) as [->|Hne].
    + rewrite pointOutStep_lookup.
      destruct (PointOuts s !! k) as [po|]; [|reflexivity].
      destruct (pointOut_due s k po) eqn:Hdue.
      * cbn [andb].
        rewrite bool_decide_eq_true_2 by (apply elem_of_cons; left; reflexivity).
        reflexivity.
      * rewrite (pointOut_due_frame s) by apply pointOutStep_pointOut_frame.
        rewrite Hdue. reflexivity.
    + rewrite (pointOutStep_lookup_ne s a k Hne).
      destruct (PointOuts s !! k) as [po|]; [|reflexivity].
      rewrite (pointOut_due_frame s) by apply pointOutStep_pointOut_frame.
      destruct (pointOut_due s k po); [|reflexivity]. cbn [andb].
      destruct (decide (k ∈ order)) as [Hin|Hnin].
      * rewrite !bool_decide_eq_true_2; [reflexivity| |exact Hin].
        apply elem_of_cons. right. exact Hin.
      * rewrite !bool_decide_eq_false_2; [reflexivity| |exact Hnin].
        intros [Heq|Hin]%elem_of_cons; [congruence|contradiction].
Qed.

Lemma pointOutStep_not_due s k :
  (forall po, PointOuts s !! k = Some po -> pointOut_due s k po = false) ->
  pointOutStep s k = s.
Proof.
  intros Hnone. unfold pointOutStep.
  destruct (PointOuts s !! k) as [po|] eqn:Hk; [|reflexivity].
  specialize (Hnone po eq_refl). unfold pointOut_due in Hnone.
  destruct (AcceptTime po <? SimTime (State_ s)); cbn [negb andb] in *;
    [|reflexivity].
  destruct (Aircraft_ (State_ s) !! k) as [ac|]; [|reflexivity].
  rewrite bool_decide_eq_true_2 in Hnone by eauto. cbn [andb] in Hnone.
  rewrite Hnone. reflexivity.
Qed.

(** X6.  The point-out loop of [updateState], when [range] yields every
    key of [PointOuts].  An entry is removed exactly when its time has
    passed, its aircraft is in [State.Aircraft] and its recipient is not
    a signed-in human; all other entries stay, whatever their age.  The
    loop changes neither the [State] nor [Handoffs]; it posts one
    point-out acknowledgment for each entry it removes and nothing else;
    and a second run changes nothing. *)
Theorem pointout_loop_result (s : Sim) (order : list string) :
  (forall k, is_Some (PointOuts s !! k) -> k ∈ order) ->
  let s' := resolvePointOuts order s in
  (forall k po,
      PointOuts s' !! k = Some po
      <-> PointOuts s !! k = Some po
          /\ (SimTime (State_ s) <= AcceptTime po
              \/ Aircraft_ (State_ s) !! k = None
              \/ po_ToController po ∈ humanControllers s))
  /\ State_ s' = State_ s
  /\ Handoffs s' = Handoffs s
  /\ (exists new,
        eventStream s' = eventStream s ++ new
        /\ Forall (fun e => ev_Type e = AcknowledgedPointOutEvent) new
        /\ (length new + size (PointOuts s') = size (PointOuts s))%nat)
  /\ (forall order', resolvePointOuts order' s' = s').
Proof using Type.
  clear handoffOrder pointOutOrder.
  intros Hcover s'.
  assert (Hdue : forall k po,
      pointOut_due s k po = false
      <-> (SimTime (State_ s) <= AcceptTime po
           \/ Aircraft_ (State_ s) !! k = None
           \/ po_ToController po ∈ humanControllers s)).
  { intros k po. unfold pointOut_due, isActiveHumanController.
    rewrite !andb_false_iff, Z.ltb_ge, negb_false_iff.
    rewrite bool_decide_eq_false, bool_decide_eq_true.
    rewrite <- eq_None_not_Some. tauto. }
  assert (Hleft : forall k po,
      PointOuts s' !! k = Some po
      <-> PointOuts s !! k = Some po /\ pointOut_due s k po = false).
  { intros k po. unfold s'. rewrite resolvePointOuts_lookup.
    destruct (PointOuts s !! k) as [po0|] eqn:Hk.
    - rewrite bool_decide_eq_true_2 by (apply Hcover; eauto).
      rewrite andb_true_r.
      destruct (pointOut_due s k po0) eqn:Hd.
      + split; [discriminate|]. intros ([= <-] & ?). congruence.
      + split; [intros [= <-]; auto | intros (? & _); assumption].
    - split; [discriminate|]. intros (? & _). discriminate. }
  destruct (resolvePointOuts_pointOut_frame order s) as (Hst & Hh & Hho).
  fold s' in Hst, Hh, Hho.
  split; [|split; [exact Hst|split; [exact Hho|split]]].
  - intros k po. rewrite Hleft, Hdue. reflexivity.
  - exact (resolvePointOuts_acknowledges order s).
  - intros order'. unfold resolvePointOuts.
    induction order' as [|k order' IH]; cbn [fold_left]; [reflexivity|].
    rewrite pointOutStep_not_due; [exact IH|].
    intros po Hk. apply Hleft in Hk as [_ Hd].
    rewrite (pointOut_due_frame s); [exact Hd|]. repeat split; assumption.
Qed.

(** ** The clock under [Update] *)

(** X7.  Whatever the two clock readings, the rate and the slop are,
    [Update] moves [SimTime] forward by a whole number of seconds, never
    back; on a running sim it leaves a slop strictly between minus one
    and one second and records the second clock reading; and on a sim
    that is paused or whose primary controller is not signed in it
    changes nothing, not even [lastUpdateTime]. *)
Theorem Update_clock (now1 now2 : Z) (s : Sim) :
  (exists n : nat,
      SimTime (State_ (Update now1 now2 s))
      = SimTime (State_ s) + Second * Z.of_nat n)
  /\ (running s ->
        - Second < updateTimeSlop (Update now1 now2 s) < Second
        /\ lastUpdateTime (Update now1 now2 s) = now2)
  /\ (~ running s -> Update now1 now2 s = s).
Proof.
  unfold Update, running.
  destruct (Paused (State_ s)) eqn:Hp.
  { split; [exists 0%nat; lia|]. split; [intros [? _]; discriminate|reflexivity]. }
  unfold isActiveHumanController.
  destruct (decide (PrimaryController (State_ s) ∈ humanControllers s)) as [Hin|Hnin].
  2:{ rewrite bool_decide_eq_false_2 by exact Hnin. cbn [negb].
      split; [exists 0%nat; lia|]. split; [intros [_ ?]; contradiction|reflexivity]. }
  rewrite bool_decide_eq_true_2 by exact Hin. cbn [negb].
  set (elapsed := wrap64 (scale (SimRate (State_ s))
                           (Since now1 (lastUpdateTime s)) + updateTimeSlop s)).
  split; [|split].
  - exists (Z.to_nat (whole_seconds (Truncate elapsed Second))).
    cbn [set_update_times State_]. apply iter_tick_SimTime.
  - intros _. cbn [set_update_times updateTimeSlop lastUpdateTime].
    split; [|reflexivity].
    unfold Truncate. change (Second <=? 0) with false. cbv iota.
    replace (elapsed - (elapsed - Z.rem elapsed Second))
      with (Z.rem elapsed Second) by lia.
    assert (Hb : Z.abs (Z.rem elapsed Second) < Z.abs Second)
      by (apply Z.rem_bound_abs; discriminate).
    change (Z.abs Second) with Second in Hb.
    assert (Hs : Second < 2 ^ 63) by reflexivity.
    rewrite wrap64_small by lia. lia.
  - intros Hn. exfalso. apply Hn. auto.
Qed.

(** ** [signOn] and [GetSerializeSim] *)

(** The errors of [signOn]; the last one is [av.ErrNoController], the
    error of [SignOff]. *)
Inductive signOnError : Type :=
| ErrControllerAlreadySignedIn
| ErrInvalidController
| ErrAviation (e : error).

(** The key set of [s.SignOnPositions], which sim.go only reads. *)
Variable SignOnPositions : gset string.

(** [signOn].  [now] is the clock read by [time.Now()] when the primary
    controller signs on; the subscription is kept outside the model. *)
Definition signOn (now : Z) (tcp : string) (instructor : bool) (s : Sim)
  : option signOnError * Sim :=
  if bool_decide (tcp ∈ humanControllers s) then
    (Some ErrControllerAlreadySignedIn, s)
  else if bool_decide (tcp ∈ Controllers (State_ s)) then
    (Some ErrInvalidController, s)
  else if negb (bool_decide (tcp ∈ SignOnPositions)) then
    (Some (ErrAviation ErrNoController), s)
  else
    let st := State_ s in
    let st' :=
      mkState (SimTime st) (Paused st) (SimRate st) (PrimaryController st)
        (LaunchController st) (Aircraft_ st) ({[tcp]} ∪ Controllers st)
        (HumanControllers st ++ [tcp]) (ERAMComputers st) in
    (None,
     mkSim st' ({[tcp]} ∪ humanControllers s)
       (eventStream s
        ++ [mkEvent StatusMessageEvent "" "" ""
              (String.append tcp " has signed on.")])
       (Handoffs s) (PointOuts s) (lastSimUpdate s) (updateTimeSlop s)
       (if String.eqb tcp (PrimaryController st) then now else lastUpdateTime s)
       (prespawn s)
       (if instructor then {[tcp]} ∪ Instructors s else Instructors s)).

(** [GetSerializeSim].  [ss := *s] copies the struct, not what its
    fields point to: [ss.State] is the [State] of [s], so the deletions
    are seen through both.  [order] is the order in which [range] yields
    the keys of [humanControllers].  Returns the copy and the sim. *)
Definition GetSerializeSim (order : list string) (s : Sim) : Sim * Sim :=
  let controllers :=
    fold_left (fun c ctrl => c ∖ {[ctrl]}) order (Controllers (State_ s)) in
  let s' :=
    with_State
      (fun st =>
         mkState (SimTime st) (Paused st) (SimRate st) (PrimaryController st)
           (LaunchController st) (Aircraft_ st) controllers
           (HumanControllers st) (ERAMComputers st)) s in
  (s', s').

(** How the records of who is signed in hang together: every signed-in
    human is in [State.Controllers], [State.HumanControllers] lists the
    signed-in humans, each once, and the instructors are among them. *)
Record signed_in_ok (s : Sim) : Prop := {
  ok_controllers : humanControllers s ⊆ Controllers (State_ s);
  ok_list : forall t, t ∈ HumanControllers (State_ s) <-> t ∈ humanControllers s;
  ok_nodup : NoDup (HumanControllers (State_ s));
  ok_instructors : Instructors s ⊆ humanControllers s
}.

Lemma filter_not_in (tcp : string) (l : list string) :
  tcp ∉ l -> List.filter (fun c => negb (String.eqb c tcp)) l = l.
Proof.
  induction l as [|x l IH]; intros Hn; [reflexivity|].
  apply not_elem_of_cons in Hn as [Hne Hn]. cbn [List.filter].
  destruct (String.eqb_spec x tcp) as [->|_]; [congruence|].
  cbn [negb]. rewrite IH by exact Hn. reflexivity.
Qed.

Lemma filter_elem_of (tcp t : string) (l : list string) :
  t ∈ List.filter (fun c => negb (String.eqb c tcp)) l <-> t ∈ l /\ t <> tcp.
Proof.
  rewrite !list_elem_of_In, filter_In, negb_true_iff.
  destruct (String.eqb_spec t tcp); intuition congruence.
Qed.

Lemma signOn_ok now tcp instructor s :
  signed_in_ok s -> signed_in_ok (snd (signOn now tcp instructor s)).
Proof using Type.
  clear handoffOrder pointOutOrder.
  intros [Hc Hl Hn Hi]. unfold signOn.
  destruct (decide (tcp ∈ humanControllers s)) as [Hh|Hh].
  { rewrite bool_decide_eq_true_2 by exact Hh. split; assumption. }
  rewrite bool_decide_eq_false_2 by exact Hh.
  destruct (bool_decide (tcp ∈ Controllers (State_ s))); [split; assumption|].
  destruct (negb (bool_decide (tcp ∈ SignOnPositions))); [split; assumption|].
  split; cbn [snd humanControllers State_ Controllers HumanControllers Instructors].
  - intros t Ht. apply elem_of_union in Ht as [Ht|Ht];
      apply elem_of_union; [left; exact Ht | right; exact (Hc t Ht)].
  - intros t. rewrite elem_of_app, elem_of_union, Hl, list_elem_of_singleton,
      elem_of_singleton. tauto.
  - apply NoDup_app. split; [exact Hn|]. split; [|apply NoDup_singleton].
    intros t Ht Ht'. apply list_elem_of_singleton in Ht'. subst t.
    apply Hh, Hl. exact Ht.
  - destruct instructor.
    + intros t Ht. apply elem_of_union in Ht as [Ht|Ht];
        apply elem_of_union; [left; exact Ht | right; exact (Hi t Ht)].
    + intros t Ht. apply elem_of_union. right. exact (Hi t Ht).
Qed.

Lemma SignOff_ok tcp s : signed_in_ok s -> signed_in_ok (snd (SignOff tcp s)).
Proof using Type.
  clear handoffOrder pointOutOrder.
  intros [Hc Hl Hn Hi]. unfold SignOff.
  destruct (bool_decide (tcp ∈ humanControllers s)); [|split; assumption].
  split; cbn [snd humanControllers State_ Controllers HumanControllers Instructors].
  - intros t Ht. apply elem_of_difference in Ht as [Ht Hne].
    apply elem_of_difference. split; [exact (Hc t Ht) | exact Hne].
  - intros t. rewrite filter_elem_of, elem_of_difference, Hl, elem_of_singleton.
    reflexivity.
  - apply NoDup_ListNoDup, List.NoDup_filter, NoDup_ListNoDup. exact Hn.
  - intros t Ht. apply elem_of_difference in Ht as [Ht Hne].
    apply elem_of_difference. split; [exact (Hi t Ht) | exact Hne].
Qed.

(** X8.  [signOn] and [SignOff] keep the records of who is signed in
    consistent: the signed-in humans stay a part of [State.Controllers],
    [State.HumanControllers] keeps listing them, each once, and the
    instructors stay signed-in humans. *)
Theorem sign_on_off_consistent (now : Z) (tcp : string) (instructor : bool)
    (s : Sim) :
  signed_in_ok s ->
  signed_in_ok (snd (signOn now tcp instructor s))
  /\ signed_in_ok (snd (SignOff tcp s)).
Proof using Type.
  clear handoffOrder pointOutOrder. intros H. split; [apply signOn_ok | apply SignOff_ok]; exact H. Qed.

Lemma signOn_succeeds_iff now tcp instructor s :
  fst (signOn now tcp instructor s) = None
  <-> (tcp ∉ humanControllers s) /\ (tcp ∉ Controllers (State_ s))
      /\ tcp ∈ SignOnPositions.
Proof using Type.
  clear handoffOrder pointOutOrder.
  unfold signOn.
  destruct (decide (tcp ∈ humanControllers s)) as [Hh|Hh].
  { rewrite bool_decide_eq_true_2 by exact Hh. cbn [fst].
    split; [discriminate | tauto]. }
  rewrite bool_decide_eq_false_2 by exact Hh.
  destruct (decide (tcp ∈ Controllers (State_ s))) as [Hcs|Hcs].
  { rewrite bool_decide_eq_true_2 by exact Hcs. cbn [fst].
    split; [discriminate | tauto]. }
  rewrite bool_decide_eq_false_2 by exact Hcs.
  destruct (decide (tcp ∈ SignOnPositions)) as [Hp|Hp].
  - rewrite bool_decide_eq_true_2 by exact Hp. cbn [negb fst]. tauto.
  - rewrite bool_decide_eq_false_2 by exact Hp. cbn [negb fst].
    split; [discriminate | tauto].
Qed.

Lemma signOn_fails now tcp instructor s :
  fst (signOn now tcp instructor s) <> None ->
  snd (signOn now tcp instructor s) = s.
Proof using Type.
  clear handoffOrder pointOutOrder.
  unfold signOn.
  destruct (bool_decide (tcp ∈ humanControllers s)); [reflexivity|].
  destruct (bool_decide (tcp ∈ Controllers (State_ s))); [reflexivity|].
  destruct (negb (bool_decide (tcp ∈ SignOnPositions))); [reflexivity|].
  cbn [fst]. congruence.
Qed.

Lemma signOn_fields now tcp instructor s :
  fst (signOn now tcp instructor s) = None ->
  let s' := snd (signOn now tcp instructor s) in
  humanControllers s' = {[tcp]} ∪ humanControllers s
  /\ Controllers (State_ s') = {[tcp]} ∪ Controllers (State_ s)
  /\ HumanControllers (State_ s') = HumanControllers (State_ s) ++ [tcp]
  /\ Instructors s'
     = (if instructor then {[tcp]} ∪ Instructors s else Instructors s).
Proof using Type.
  clear handoffOrder pointOutOrder.
  unfold signOn.
  destruct (bool_decide (tcp ∈ humanControllers s)); [discriminate|].
  destruct (bool_decide (tcp ∈ Controllers (State_ s))); [discriminate|].
  destruct (negb (bool_decide (tcp ∈ SignOnPositions))); [discriminate|].
  intros _. cbn. auto.
Qed.

Lemma SignOff_fields tcp s :
  tcp ∈ humanControllers s ->
  let s' := snd (SignOff tcp s) in
  fst (SignOff tcp s) = None
  /\ humanControllers s' = humanControllers s ∖ {[tcp]}
  /\ Controllers (State_ s') = Controllers (State_ s) ∖ {[tcp]}
  /\ HumanControllers (State_ s')
     = List.filter (fun c => negb (String.eqb c tcp)) (HumanControllers (State_ s))
  /\ Instructors s' = Instructors s ∖ {[tcp]}.
Proof using Type.
  clear handoffOrder pointOutOrder.
  intros Hin. unfold SignOff. rewrite bool_decide_eq_true_2 by exact Hin.
  cbn. auto.
Qed.

(** X9.  [signOn] succeeds exactly for a position of [SignOnPositions]
    that is neither signed in nor in [State.Controllers], and changes
    nothing when it fails.  After a successful [signOn] a second one is
    refused as already signed in, [SignOff] succeeds and takes back what
    [signOn] recorded, and the position can be signed on again. *)
Theorem signOn_round_trip (now now' : Z) (tcp : string)
    (instructor instructor' : bool) (s : Sim) :
  signed_in_ok s ->
  let r := signOn now tcp instructor s in
  (fst r = None
   <-> (tcp ∉ humanControllers s) /\ (tcp ∉ Controllers (State_ s))
       /\ tcp ∈ SignOnPositions)
  /\ (fst r <> None -> snd r = s)
  /\ (fst r = None ->
        fst (signOn now' tcp instructor' (snd r))
        = Some ErrControllerAlreadySignedIn
        /\ fst (SignOff tcp (snd r)) = None
        /\ let s2 := snd (SignOff tcp (snd r)) in
           humanControllers s2 = humanControllers s
           /\ Controllers (State_ s2) = Controllers (State_ s)
           /\ HumanControllers (State_ s2) = HumanControllers (State_ s)
           /\ Instructors s2 = Instructors s
           /\ fst (signOn now' tcp instructor' s2) = None).
Proof using Type.
  clear handoffOrder pointOutOrder.
  intros [Hc Hl Hn Hi] r.
  split; [apply signOn_succeeds_iff|]. split; [apply signOn_fails|].
  intros Hr. pose proof Hr as Hcond.
  apply signOn_succeeds_iff in Hcond as (Hh & Hcs & Hp).
  destruct (signOn_fields _ _ _ _ Hr) as (E1 & E2 & E3 & E4).
  fold r in E1, E2, E3, E4.
  assert (Hin : tcp ∈ humanControllers (snd r)).
  { rewrite E1. apply elem_of_union. left. apply elem_of_singleton. reflexivity. }
  destruct (SignOff_fields tcp (snd r) Hin) as (Hoff & F1 & F2 & F3 & F4).
  assert (Hset : forall X : gset string, tcp ∉ X -> ({[tcp]} ∪ X) ∖ {[tcp]} = X).
  { intros X HX. apply set_eq. intros t.
    rewrite elem_of_difference, elem_of_union, elem_of_singleton.
    split; [tauto|]. intros Ht. split; [tauto|]. intros ->. contradiction. }
  assert (HnI : tcp ∉ Instructors s) by (intros Ht; exact (Hh (Hi _ Ht))).
  split.
  { unfold signOn. rewrite bool_decide_eq_true_2 by exact Hin. reflexivity. }
  split; [exact Hoff|]. cbv zeta.
  rewrite E1, (Hset _ Hh) in F1. rewrite E2, (Hset _ Hcs) in F2.
  assert (F3' : HumanControllers (State_ (snd (SignOff tcp (snd r))))
                = HumanControllers (State_ s)).
  { rewrite F3, E3, List.filter_app, filter_not_in by (rewrite Hl; exact Hh).
    cbn [List.filter]. rewrite String.eqb_refl. cbn [negb]. apply app_nil_r. }
  assert (F4' : Instructors (snd (SignOff tcp (snd r))) = Instructors s).
  { rewrite F4, E4. destruct instructor; [apply Hset; exact HnI|].
    apply set_eq. intros t. rewrite elem_of_difference, elem_of_singleton.
    split; [tauto|]. intros Ht. split; [exact Ht|]. intros ->. contradiction. }
  split; [exact F1|]. split; [exact F2|]. split; [exact F3'|].
  split; [exact F4'|].
  apply signOn_succeeds_iff. rewrite F1, F2. auto.
Qed.

Lemma Updates_not_running calls s : ~ running s -> Updates calls s = s.
Proof.
  intros Hn. induction calls as [|[now1 now2] calls IH]; cbn [Updates];
    [reflexivity|].
  assert (Hu : Update now1 now2 s = s).
  { unfold Update. unfold running in Hn.
    destruct (Paused (State_ s)); [reflexivity|].
    unfold isActiveHumanController.
    rewrite bool_decide_eq_false_2; [reflexivity|]. intros Hin. apply Hn. auto. }
  rewrite Hu. exact IH.
Qed.

(** X10.  The primary controller gates the clock.  Once the primary
    controller has signed off, no number of [Update] calls changes the
    sim, so simulated time stands still; and when the primary controller
    signs on to an unpaused sim, the sim runs again and
    [lastUpdateTime] is the time of the sign-on, so the time it was away
    is not made up for.  Any other position signing on leaves
    [lastUpdateTime] alone. *)
Theorem primary_gates_clock (now : Z) (tcp : string) (instructor : bool)
    (calls : list (Z * Z)) (s : Sim) :
  (tcp = PrimaryController (State_ s) ->
   fst (SignOff tcp s) = None ->
   Updates calls (snd (SignOff tcp s)) = snd (SignOff tcp s))
  /\ (fst (signOn now tcp instructor s) = None ->
      let s' := snd (signOn now tcp instructor s) in
      (tcp = PrimaryController (State_ s) ->
       lastUpdateTime s' = now
       /\ (Paused (State_ s) = false -> running s'))
      /\ (tcp <> PrimaryController (State_ s) ->
          lastUpdateTime s' = lastUpdateTime s)).
Proof.
  split.
  - intros Hprim Hoff. apply Updates_not_running. unfold running, SignOff in *.
    destruct (bool_decide (tcp ∈ humanControllers s)); [|discriminate].
    cbn [snd State_ PrimaryController humanControllers].
    intros [_ Hin]. apply elem_of_difference in Hin as [_ Hne].
    apply Hne, elem_of_singleton. symmetry. exact Hprim.
  - unfold signOn, running.
    destruct (bool_decide (tcp ∈ humanControllers s)); [discriminate|].
    destruct (bool_decide (tcp ∈ Controllers (State_ s))); [discriminate|].
    destruct (negb (bool_decide (tcp ∈ SignOnPositions))); [discriminate|].
    intros _. cbn [snd lastUpdateTime State_ Paused PrimaryController
                   humanControllers].
    split.
    + intros <-. rewrite String.eqb_refl. split; [reflexivity|].
      intros Hp. split; [exact Hp|].
      apply elem_of_union. left. apply elem_of_singleton. reflexivity.
    + intros Hne. destruct (String.eqb_spec tcp (PrimaryController (State_ s)));
        [contradiction|reflexivity].
Qed.

Lemma fold_delete_controllers (order : list string) (c : gset string) (t : string) :
  t ∈ fold_left (fun c ctrl => c ∖ {[ctrl]}) order c <-> t ∈ c /\ t ∉ order.
Proof.
  revert c. induction order as [|k order IH]; intros c; cbn [fold_left].
  - split; [intros H; split; [exact H | apply not_elem_of_nil] | tauto].
  - rewrite IH, elem_of_difference, elem_of_singleton, not_elem_of_cons. tauto.
Qed.

(** X11.  [GetSerializeSim] takes the signed-in humans out of
    [State.Controllers], in whatever order [range] yields them; the sim
    it was called on shares that map, so it has lost them too, and when
    a human is signed in its records are no longer consistent: a
    signed-in human is missing from [State.Controllers]. *)
Theorem GetSerializeSim_shared (order : list string) (s : Sim) :
  (forall t, t ∈ order <-> t ∈ humanControllers s) ->
  let copy := fst (GetSerializeSim order s) in
  let live := snd (GetSerializeSim order s) in
  Controllers (State_ copy) = Controllers (State_ s) ∖ humanControllers s
  /\ Controllers (State_ live) = Controllers (State_ s) ∖ humanControllers s
  /\ humanControllers live = humanControllers s
  /\ (forall t, t ∈ humanControllers s -> ~ signed_in_ok live).
Proof using Type.
  clear handoffOrder pointOutOrder.
  intros Horder copy live.
  assert (Hc : Controllers (State_ live)
               = Controllers (State_ s) ∖ humanControllers s).
  { unfold live, GetSerializeSim. cbn [snd with_State State_ Controllers].
    apply set_eq. intros t.
    rewrite fold_delete_controllers, elem_of_difference, Horder. reflexivity. }
  split; [exact Hc|]. split; [exact Hc|]. split; [reflexivity|].
  intros t Ht [Hsub _ _ _].
  assert (Hin : t ∈ Controllers (State_ live)) by (apply Hsub; exact Ht).
  rewrite Hc in Hin. apply elem_of_difference in Hin as [_ Hn]. contradiction.
Qed.

End Sim.

(** ** Restriction areas *)

Section RestrictionAreas.

(** [Body] stands for what [av.RestrictionArea] holds besides
    [Deleted], and [zeroBody] for the zero value of those fields. *)
Context {Body : Type}.

Record RestrictionArea : Type := mkRestrictionArea {
  Deleted : bool;
  body : Body
}.

Variable zeroBody : Body.

(** [ra.UpdateTriangles()] and [av.MaxRestrictionAreas], from
    pkg/aviation. *)
Variable UpdateTriangles : RestrictionArea -> RestrictionArea.
Variable MaxRestrictionAreas : Z.

Inductive areaError : Type :=
| ErrTooManyRestrictionAreas
| ErrInvalidRestrictionAreaIndex.

(** The loop of [CreateRestrictionArea] that looks for a deleted slot,
    from index [i] on. *)
Fixpoint find_deleted (areas : list RestrictionArea) (i : nat) : option nat :=
  match areas with
  | [] => None
  | ua :: rest => if Deleted ua then Some i else find_deleted rest (Datatypes.S i)
  end.

(** The three functions work on [s.State.UserRestrictionAreas] only,
    which they are given and return. *)
Definition CreateRestrictionArea (ra : RestrictionArea)
    (areas : list RestrictionArea)
  : (Z * option areaError) * list RestrictionArea :=
  let ra := UpdateTriangles ra in
  match find_deleted areas 0 with
  | Some i => ((Z.of_nat i + 1, None), <[i := ra]> areas)
  | None =>
      let n := Z.of_nat (length areas) in
      if n <? MaxRestrictionAreas then ((n + 1, None), areas ++ [ra])
      else ((0, Some ErrTooManyRestrictionAreas), areas)
  end.

(** [idx--] on an int wraps around; the look-up after the range test
    finds a slot. *)
Definition UpdateRestrictionArea (idx : Z) (ra : RestrictionArea)
    (areas : list RestrictionArea) : option areaError * list RestrictionArea :=
  let idx := wrap64 (idx - 1) in
  if (idx <? 0) || (Z.of_nat (length areas) <=? idx) then
    (Some ErrInvalidRestrictionAreaIndex, areas)
  else
    match areas !! Z.to_nat idx with
    | Some ua =>
        if Deleted ua then (Some ErrInvalidRestrictionAreaIndex, areas)
        else (None, <[Z.to_nat idx := UpdateTriangles ra]> areas)
    | None => (Some ErrInvalidRestrictionAreaIndex, areas)
    end.

Definition DeleteRestrictionArea (idx : Z) (areas : list RestrictionArea)
  : option areaError * list RestrictionArea :=
  let idx := wrap64 (idx - 1) in
  if (idx <? 0) || (Z.of_nat (length areas) <=? idx) then
    (Some ErrInvalidRestrictionAreaIndex, areas)
  else
    match areas !! Z.to_nat idx with
    | Some ua =>
        if Deleted ua then (Some ErrInvalidRestrictionAreaIndex, areas)
        else (None, <[Z.to_nat idx := mkRestrictionArea true zeroBody]> areas)
    | None => (Some ErrInvalidRestrictionAreaIndex, areas)
    end.

(** The index [idx] of the interface names a slot in use. *)
Definition in_use (idx : Z) (areas : list RestrictionArea) : Prop :=
  1 <= idx
  /\ exists ua, areas !! Z.to_nat (idx - 1) = Some ua /\ Deleted ua = false.

Lemma find_deleted_Some areas i0 i :
  find_deleted areas i0 = Some i ->
  (i0 <= i)%nat
  /\ (exists ua, areas !! (i - i0)%nat = Some ua /\ Deleted ua = true)
  /\ (forall j ua, (j < i - i0)%nat -> areas !! j = Some ua -> Deleted ua = false).
Proof.
  revert i0. induction areas as [|ua areas IH]; intros i0 H; cbn in H;
    [discriminate|].
  destruct (Deleted ua) eqn:Hd.
  - injection H as <-. split; [lia|]. rewrite Nat.sub_diag. split.
    + exists ua. auto.
    + intros j ? Hj. lia.
  - apply IH in H as (Hle & (ua' & Hua & Hd') & Hlow).
    split; [lia|].
    replace (i - i0)%nat with (Datatypes.S (i - Datatypes.S i0)) by lia. split.
    + exists ua'. auto.
    + intros [|j] ua0 Hj Hl; cbn in Hl.
      * injection Hl as <-. exact Hd.
      * apply (Hlow j); [lia | exact Hl].
Qed.

Lemma find_deleted_None areas i0 :
  find_deleted areas i0 = None
  <-> (forall j ua, areas !! j = Some ua -> Deleted ua = false).
Proof.
  revert i0. induction areas as [|ua areas IH]; intros i0; cbn.
  - split; [intros _ j ? Hl; discriminate | reflexivity].
  - destruct (Deleted ua) eqn:Hd.
    + split; [discriminate|]. intros H. specialize (H 0%nat ua eq_refl). congruence.
    + rewrite IH. split.
      * intros H [|j] ua0 Hl; cbn in Hl; [congruence | exact (H j ua0 Hl)].
      * intros H j ua0 Hl. exact (H (Datatypes.S j) ua0 Hl).
Qed.

(** X12.  [CreateRestrictionArea] returns the one-based index of the
    slot that now holds the area: the lowest deleted slot when there is
    one, otherwise a new slot at the end as long as the slice is shorter
    than the maximum; every other slot is as it was.  It fails, with
    index 0 and the slice unchanged, only when no slot is deleted and
    the slice has reached the maximum. *)
Theorem create_restriction_area (ra : RestrictionArea)
    (areas : list RestrictionArea) :
  let r := CreateRestrictionArea ra areas in
  let idx := fst (fst r) in
  let areas' := snd r in
  match snd (fst r) with
  | None =>
      1 <= idx <= Z.of_nat (length areas')
      /\ areas' !! Z.to_nat (idx - 1) = Some (UpdateTriangles ra)
      /\ (forall j, j <> Z.to_nat (idx - 1) -> areas' !! j = areas !! j)
      /\ (forall j ua, (j < Z.to_nat (idx - 1))%nat ->
                       areas !! j = Some ua -> Deleted ua = false)
      /\ ((length areas' = length areas
           /\ exists ua, areas !! Z.to_nat (idx - 1) = Some ua
                         /\ Deleted ua = true)
          \/ (length areas' = Datatypes.S (length areas)
              /\ idx = Z.of_nat (length areas) + 1
              /\ Z.of_nat (length areas) < MaxRestrictionAreas))
  | Some e =>
      e = ErrTooManyRestrictionAreas /\ idx = 0 /\ areas' = areas
      /\ (forall j ua, areas !! j = Some ua -> Deleted ua = false)
      /\ MaxRestrictionAreas <= Z.of_nat (length areas)
  end.
Proof.
  unfold CreateRestrictionArea.
  destruct (find_deleted areas 0) as [i|] eqn:Hf.
  - apply find_deleted_Some in Hf as (_ & (ua & Hua & Hd) & Hlow).
    rewrite Nat.sub_0_r in Hua, Hlow.
    pose proof (lookup_lt_Some _ _ _ Hua) as Hlt.
    cbn [fst snd]. replace (Z.to_nat (Z.of_nat i + 1 - 1)) with i by lia.
    rewrite length_insert.
    split; [lia|]. split; [apply list_lookup_insert_eq; exact Hlt|].
    split; [intros j Hj; apply list_lookup_insert_ne; congruence|].
    split; [exact Hlow|]. left. eauto.
  - pose proof (proj1 (find_deleted_None areas 0) Hf) as Hnone.
    destruct (Z.ltb_spec (Z.of_nat (length areas)) MaxRestrictionAreas) as [Hlt|Hge];
      cbn [fst snd].
    + replace (Z.to_nat (Z.of_nat (length areas) + 1 - 1)) with (length areas) by lia.
      rewrite length_app. cbn [length].
      split; [lia|]. split.
      { rewrite lookup_app_r by lia. rewrite Nat.sub_diag. reflexivity. }
      split.
      { intros j Hj. destruct (le_lt_dec (length areas) j) as [Hge|Hlt'].
        - rewrite lookup_app_r by lia.
          rewrite (lookup_ge_None_2 areas) by lia.
          destruct (j - length areas)%nat as [|k] eqn:Hk; [lia|reflexivity].
        - apply lookup_app_l. exact Hlt'. }
      split; [intros j ua _ Hl; exact (Hnone j ua Hl)|].
      right. split; [lia|]. split; [reflexivity | exact Hlt].
    + split; [reflexivity|]. split; [reflexivity|]. split; [reflexivity|].
      split; [exact Hnone | exact Hge].
Qed.

Lemma index_in_range idx (areas : list RestrictionArea) :
  - 2 ^ 63 <= idx < 2 ^ 63 ->
  Z.of_nat (length areas) < 2 ^ 63 ->
  ((wrap64 (idx - 1) <? 0) || (Z.of_nat (length areas) <=? wrap64 (idx - 1)) = false)
  <-> 1 <= idx <= Z.of_nat (length areas).
Proof.
  intros Hr Hlen. destruct (Z.eq_dec idx (- 2 ^ 63)) as [->|Hne].
  - change (wrap64 (- 2 ^ 63 - 1)) with (2 ^ 63 - 1).
    split; [|lia]. intros H. apply orb_false_iff in H as [_ H].
    apply Z.leb_gt in H. lia.
  - rewrite wrap64_small by lia.
    rewrite orb_false_iff, Z.ltb_ge, Z.leb_gt. lia.
Qed.

Lemma Delete_spec idx areas :
  - 2 ^ 63 <= idx < 2 ^ 63 ->
  Z.of_nat (length areas) < 2 ^ 63 ->
  (in_use idx areas ->
     DeleteRestrictionArea idx areas
     = (None, <[Z.to_nat (idx - 1) := mkRestrictionArea true zeroBody]> areas))
  /\ (~ in_use idx areas ->
      DeleteRestrictionArea idx areas
      = (Some ErrInvalidRestrictionAreaIndex, areas)).
Proof.
  intros Hr Hlen. unfold DeleteRestrictionArea, in_use.
  pose proof (index_in_range idx areas Hr Hlen) as Hrange.
  destruct ((wrap64 (idx - 1) <? 0) || (Z.of_nat (length areas) <=? wrap64 (idx - 1)))
    eqn:Hb.
  - split; [|reflexivity]. intros (H1 & ua & Hua & _).
    apply lookup_lt_Some in Hua.
    assert (1 <= idx <= Z.of_nat (length areas)) as Hin by lia.
    apply Hrange in Hin. discriminate.
  - assert (1 <= idx <= Z.of_nat (length areas)) as Hin by (apply Hrange; reflexivity).
    rewrite wrap64_small by lia.
    destruct (areas !! Z.to_nat (idx - 1)) as [ua|] eqn:Hua.
    + destruct (Deleted ua) eqn:Hd.
      * split; [|reflexivity]. intros (_ & ua' & [= <-] & Hd'). congruence.
      * split; [reflexivity|]. intros Hn. exfalso. apply Hn.
        split; [lia|]. eauto.
    + split; [|reflexivity]. intros (_ & ua' & Hl & _). discriminate.
Qed.

Lemma Update_spec idx ra areas :
  - 2 ^ 63 <= idx < 2 ^ 63 ->
  Z.of_nat (length areas) < 2 ^ 63 ->
  (in_use idx areas ->
     UpdateRestrictionArea idx ra areas
     = (None, <[Z.to_nat (idx - 1) := UpdateTriangles ra]> areas))
  /\ (~ in_use idx areas ->
      UpdateRestrictionArea idx ra areas
      = (Some ErrInvalidRestrictionAreaIndex, areas)).
Proof.
  intros Hr Hlen. unfold UpdateRestrictionArea, in_use.
  pose proof (index_in_range idx areas Hr Hlen) as Hrange.
  destruct ((wrap64 (idx - 1) <? 0) || (Z.of_nat (length areas) <=? wrap64 (idx - 1)))
    eqn:Hb.
  - split; [|reflexivity]. intros (H1 & ua & Hua & _).
    apply lookup_lt_Some in Hua.
    assert (1 <= idx <= Z.of_nat (length areas)) as Hin by lia.
    apply Hrange in Hin. discriminate.
  - assert (1 <= idx <= Z.of_nat (length areas)) as Hin by (apply Hrange; reflexivity).
    rewrite wrap64_small by lia.
    destruct (areas !! Z.to_nat (idx - 1)) as [ua|] eqn:Hua.
    + destruct (Deleted ua) eqn:Hd.
      * split; [|reflexivity]. intros (_ & ua' & [= <-] & Hd'). congruence.
      * split; [reflexivity|]. intros Hn. exfalso. apply Hn.
        split; [lia|]. eauto.
    + split; [|reflexivity]. intros (_ & ua' & Hl & _). discriminate.
Qed.

Lemma in_use_deleted idx areas :
  ~ in_use idx (<[Z.to_nat (idx - 1) := mkRestrictionArea true zeroBody]> areas).
Proof.
  intros (H1 & ua & Hua & Hd).
  pose proof (lookup_lt_Some _ _ _ Hua) as Hlt. rewrite length_insert in Hlt.
  rewrite list_lookup_insert_eq in Hua by exact Hlt.
  injection Hua as <-. discriminate.
Qed.

(** X13.  [DeleteRestrictionArea] and [UpdateRestrictionArea] accept an
    index exactly when it is between 1 and the length of the slice and
    its slot is not deleted; otherwise they return
    [ErrInvalidRestrictionAreaIndex] and leave the slice alone.  Both
    write the one slot and keep the length.  After a [Delete] the same
    index is refused by both, so an area cannot be deleted twice. *)
Theorem delete_update_restriction_area (idx : Z) (ra : RestrictionArea)
    (areas : list RestrictionArea) :
  - 2 ^ 63 <= idx < 2 ^ 63 ->
  Z.of_nat (length areas) < 2 ^ 63 ->
  (fst (DeleteRestrictionArea idx areas) = None <-> in_use idx areas)
  /\ (fst (UpdateRestrictionArea idx ra areas) = None <-> in_use idx areas)
  /\ (~ in_use idx areas ->
      DeleteRestrictionArea idx areas = (Some ErrInvalidRestrictionAreaIndex, areas)
      /\ UpdateRestrictionArea idx ra areas
         = (Some ErrInvalidRestrictionAreaIndex, areas))
  /\ (in_use idx areas ->
      let deleted := snd (DeleteRestrictionArea idx areas) in
      let updated := snd (UpdateRestrictionArea idx ra areas) in
      length deleted = length areas
      /\ length updated = length areas
      /\ updated !! Z.to_nat (idx - 1) = Some (UpdateTriangles ra)
      /\ (forall j, j <> Z.to_nat (idx - 1) ->
                    deleted !! j = areas !! j /\ updated !! j = areas !! j)
      /\ fst (DeleteRestrictionArea idx deleted)
         = Some ErrInvalidRestrictionAreaIndex
      /\ fst (UpdateRestrictionArea idx ra deleted)
         = Some ErrInvalidRestrictionAreaIndex).
Proof.
  intros Hr Hlen.
  destruct (Delete_spec idx areas Hr Hlen) as [Dyes Dno].
  destruct (Update_spec idx ra areas Hr Hlen) as [Uyes Uno].
  assert (Hdec : in_use idx areas \/ ~ in_use idx areas).
  { unfold in_use. destruct (Z_le_dec 1 idx) as [H1|H1]; [|right; tauto].
    destruct (areas !! Z.to_nat (idx - 1)) as [ua|]; [|right].
    - destruct (Deleted ua) eqn:Hd; [right|left; eauto].
      intros (_ & ua' & [= <-] & ?). congruence.
    - intros (_ & ua' & ? & _). discriminate. }
  split; [|split; [|split]].
  - destruct Hdec as [Hy|Hn].
    + rewrite (Dyes Hy). tauto.
    + rewrite (Dno Hn). split; [discriminate | contradiction].
  - destruct Hdec as [Hy|Hn].
    + rewrite (Uyes Hy). tauto.
    + rewrite (Uno Hn). split; [discriminate | contradiction].
  - intros Hn. split; [apply Dno | apply Uno]; exact Hn.
  - intros Hy. rewrite (Dyes Hy), (Uyes Hy). cbn [fst snd].
    destruct Hy as (H1 & ua & Hua & Hd).
    pose proof (lookup_lt_Some _ _ _ Hua) as Hlt.
    rewrite !length_insert.
    split; [reflexivity|]. split; [reflexivity|].
    split; [apply list_lookup_insert_eq; exact Hlt|].
    split.
    { intros j Hj. split; apply list_lookup_insert_ne; congruence. }
    split.
    + rewrite (proj2 (Delete_spec idx _ Hr ltac:(rewrite length_insert; exact Hlen))
                 (in_use_deleted idx areas)).
      reflexivity.
    + rewrite (proj2 (Update_spec idx ra _ Hr
                        ltac:(rewrite length_insert; exact Hlen))
                 (in_use_deleted idx areas)).
      reflexivity.
Qed.

Lemma create_restriction_area_length ra areas :
  Z.of_nat (length areas) <= MaxRestrictionAreas ->
  (length areas <= length (snd (CreateRestrictionArea ra areas)))%nat
  /\ Z.of_nat (length (snd (CreateRestrictionArea ra areas))) <= MaxRestrictionAreas.
Proof.
  intros Hmax. unfold CreateRestrictionArea.
  destruct (find_deleted areas 0) as [i|]; cbn [snd].
  - rewrite length_insert. lia.
  - destruct (Z.ltb_spec (Z.of_nat (length areas)) MaxRestrictionAreas);
      cbn [snd]; [rewrite length_app; cbn [length]; lia | lia].
Qed.

(** X14.  Slots are reused and the slice never outgrows the maximum.
    After a successful [Delete] of index [idx], [Create] succeeds even
    when the slice is full and returns an index that is at most [idx],
    and [idx] itself when no lower slot is deleted; the slice keeps its
    length.  None of the three functions shortens the slice, and none
    makes it longer than [MaxRestrictionAreas] if it was not before. *)
Theorem restriction_area_slots (idx : Z) (ra : RestrictionArea)
    (areas : list RestrictionArea) :
  - 2 ^ 63 <= idx < 2 ^ 63 ->
  Z.of_nat (length areas) < 2 ^ 63 ->
  Z.of_nat (length areas) <= MaxRestrictionAreas ->
  (fst (DeleteRestrictionArea idx areas) = None ->
   let r := CreateRestrictionArea ra (snd (DeleteRestrictionArea idx areas)) in
   snd (fst r) = None
   /\ 1 <= fst (fst r) <= idx
   /\ ((forall j ua, (j < Z.to_nat (idx - 1))%nat ->
                     areas !! j = Some ua -> Deleted ua = false) ->
       fst (fst r) = idx)
   /\ length (snd r) = length areas)
  /\ (let n := length (snd (CreateRestrictionArea ra areas)) in
      (length areas <= n)%nat /\ Z.of_nat n <= MaxRestrictionAreas)
  /\ length (snd (DeleteRestrictionArea idx areas)) = length areas
  /\ length (snd (UpdateRestrictionArea idx ra areas)) = length areas.
Proof.
  intros Hr Hlen Hmax.
  destruct (Delete_spec idx areas Hr Hlen) as [Dyes Dno].
  destruct (Update_spec idx ra areas Hr Hlen) as [Uyes Uno].
  assert (Hdec : in_use idx areas \/ ~ in_use idx areas).
  { unfold in_use. destruct (Z_le_dec 1 idx) as [H1|H1]; [|right; tauto].
    destruct (areas !! Z.to_nat (idx - 1)) as [ua|]; [|right].
    - destruct (Deleted ua) eqn:Hd; [right|left; eauto].
      intros (_ & ua' & [= <-] & ?). congruence.
    - intros (_ & ua' & ? & _). discriminate. }
  split; [|split; [|split]].
  - intros Hok. destruct Hdec as [Hy|Hn]; [|rewrite (Dno Hn) in Hok; discriminate].
    rewrite (Dyes Hy). cbn [snd]. clear Hok.
    destruct Hy as (H1 & ua & Hua & Hd).
    pose proof (lookup_lt_Some _ _ _ Hua) as Hlt.
    set (k := Z.to_nat (idx - 1)) in *.
    set (areas1 := <[k := mkRestrictionArea true zeroBody]> areas).
    assert (Hk : areas1 !! k = Some (mkRestrictionArea true zeroBody))
      by (apply list_lookup_insert_eq; exact Hlt).
    unfold CreateRestrictionArea.
    destruct (find_deleted areas1 0) as [i|] eqn:Hf.
    + apply find_deleted_Some in Hf as (_ & (ua1 & Hua1 & Hd1) & Hlow).
      rewrite Nat.sub_0_r in Hua1, Hlow. cbn [fst snd].
      assert (Hik : (i <= k)%nat).
      { destruct (le_lt_dec i k) as [Hle|Hgt]; [exact Hle|].
        specialize (Hlow k _ Hgt Hk). discriminate. }
      split; [reflexivity|]. split; [lia|]. split.
      * intros Hnone. destruct (decide (i = k)) as [->|Hne]; [lia|].
        unfold areas1 in Hua1. rewrite list_lookup_insert_ne in Hua1 by congruence.
        assert (i < k)%nat as Hlt' by lia.
        specialize (Hnone i ua1 Hlt' Hua1). congruence.
      * unfold areas1. rewrite !length_insert. reflexivity.
    + exfalso. pose proof (proj1 (find_deleted_None areas1 0) Hf k _ Hk) as H.
      discriminate.
  - pose proof (create_restriction_area_length ra areas) as H. exact (H Hmax).
  - destruct Hdec as [Hy|Hn]; [rewrite (Dyes Hy) | rewrite (Dno Hn)]; cbn [snd];
      [apply length_insert | reflexivity].
  - destruct Hdec as [Hy|Hn]; [rewrite (Uyes Hy) | rewrite (Uno Hn)]; cbn [snd];
      [apply length_insert | reflexivity].
Qed.

End RestrictionAreas.

(** ** A small sim to run the definitions on *)

(** The rate is a whole number, there are no computers, the automation
    and the per-aircraft part do nothing, and [range] goes through the
    keys in the order of [map_to_list]. *)
Definition auto0 (ac : Aircraft) (tgt fac : string) (t : Z) (c : unit)
  : unit * Aircraft := (c, ac).

Definition advance0 (s : @Sim Z unit) : @Sim Z unit := s.

Definition handoffOrder0 (s : @Sim Z unit) : list string :=
  List.map fst (map_to_list (Handoffs s)).

Definition pointOutOrder0 (s : @Sim Z unit) : list string :=
  List.map fst (map_to_list (PointOuts s)).

Definition scale0 (rate d : Z) : Z := rate * d.

Definition tick0 : @Sim Z unit -> @Sim Z unit :=
  tick auto0 advance0 handoffOrder0 pointOutOrder0.

Definition aal12 : Aircraft := mkAircraft "AAL12" "1A" "1A" "2B".

(** Position 1A is the primary controller and the only human; AAL12 is
    tracked by 1A, with a handoff to 2B and a point-out from 1A to 2B,
    both falling due at second 10. *)
Definition sim0 (simTime : Z) (aircraft : gmap string Aircraft) : @Sim Z unit :=
  mkSim (mkState simTime false 2 "1A" "1A" aircraft {["1A"; "2B"]} ["1A"] tt)
        {["1A"]} []
        {["AAL12" := mkHandoff (10 * Second) ""]}
        {["AAL12" := mkPointOut "1A" "2B" (10 * Second)]}
        0 0 0 false ∅.

Ltac by_computation := apply (bool_decide_unpack _); vm_compute; exact I.

Lemma update_whole_seconds_witness :
  let calls := [(700000000, 700000001); (1500000001, 1500000002)] in
  let s := sim0 0 ∅ in
  totalScaled auto0 advance0 handoffOrder0 pointOutOrder0 scale0 calls s
    = 3 * Second
  /\ SimTime (State_ (Updates auto0 advance0 handoffOrder0 pointOutOrder0
                        scale0 calls s)) = 3 * Second
  /\ updateTimeSlop (Updates auto0 advance0 handoffOrder0 pointOutOrder0
                        scale0 calls s) = 0.
Proof.
  intros calls s.
  assert (Hslop : 0 <= updateTimeSlop s < Second) by (vm_compute; split; congruence).
  assert (Hrun : all_running auto0 advance0 handoffOrder0 pointOutOrder0
                   scale0 calls s).
  { repeat split; try by_computation; vm_compute; congruence. }
  destruct (update_whole_seconds auto0 advance0 handoffOrder0 pointOutOrder0
              scale0 (fun s0 => eq_refl) calls s Hslop Hrun)
    as (_ & _ & Ht & Hs & _).
  split; [vm_compute; reflexivity|].
  split; [rewrite Ht | rewrite Hs]; vm_compute; reflexivity.
Defined.

(** The tick that brings [SimTime] to the auto-accept time of the handoff
    of AAL12, whose target 2B is not a human, is the first tick at or
    after that time; it leaves the handoff, the aircraft and the event
    stream as they were. *)
Lemma handoff_pending_at_deadline :
  let s := sim0 (9 * Second) {["AAL12" := aal12]} in
  let ho := mkHandoff (10 * Second) "" in
  prespawn s = false
  /\ Handoffs s !! "AAL12" = Some ho
  /\ SimTime (State_ s) < AutoAcceptTime ho
  /\ AutoAcceptTime ho <= SimTime (State_ (tick0 s))
  /\ (HandoffTrackController aal12 ∉ humanControllers s)
  /\ Handoffs (tick0 s) !! "AAL12" = Some ho
  /\ Aircraft_ (State_ (tick0 s)) !! "AAL12" = Some aal12
  /\ eventStream (tick0 s) = [].
Proof.
  intros s ho.
  split; [reflexivity|]. split; [vm_compute; reflexivity|].
  split; [vm_compute; reflexivity|]. split; [vm_compute; congruence|].
  split; [by_computation|].
  split; [vm_compute; reflexivity|]. split; vm_compute; reflexivity.
Qed.

Lemma handoff_auto_accept_witness :
  let s := sim0 (11 * Second) {["AAL12" := aal12]} in
  Handoffs (resolveHandoffs auto0 ["AAL12"] s) !! "AAL12" = None
  /\ Aircraft_ (State_ (resolveHandoffs auto0 ["AAL12"] s)) !! "AAL12"
     = Some (mkAircraft "AAL12" "2B" "1A" "").
Proof.
  intros s.
  destruct (handoff_auto_accept auto0 (fun _ _ _ _ _ => eq_refl) s ["AAL12"]
              "AAL12" (mkHandoff (10 * Second) ""))
    as [_ Hdue].
  - reflexivity.
  - vm_compute. reflexivity.
  - apply list_elem_of_In. simpl. auto.
  - split.
    + apply Hdue. vm_compute. reflexivity.
    + vm_compute. reflexivity.
Defined.

(** A point-out for an aircraft that is no longer in [State.Aircraft]:
    its time has passed and 2B, to whom it is addressed, is not a human,
    yet the tick posts nothing and keeps the entry. *)
Lemma pointout_without_aircraft_kept :
  let s := sim0 (10 * Second) ∅ in
  let po := mkPointOut "1A" "2B" (10 * Second) in
  PointOuts s !! "AAL12" = Some po
  /\ AcceptTime po < SimTime (State_ (tick0 s))
  /\ (po_ToController po ∉ humanControllers s)
  /\ PointOuts (tick0 s) !! "AAL12" = Some po
  /\ eventStream (tick0 s) = [].
Proof.
  intros s po.
  split; [vm_compute; reflexivity|]. split; [vm_compute; reflexivity|].
  split; [by_computation|].
  split; vm_compute; reflexivity.
Qed.

Lemma pointout_auto_acknowledge_witness :
  let s := sim0 (11 * Second) {["AAL12" := aal12]} in
  PointOuts (resolvePointOuts ["AAL12"] s) !! "AAL12" = None
  /\ eventStream (resolvePointOuts ["AAL12"] s)
     = [mkEvent AcknowledgedPointOutEvent "2B" "1A" "AAL12" ""].
Proof.
  intros s.
  destruct (pointout_auto_acknowledge s ["AAL12"] "AAL12"
              (mkPointOut "1A" "2B" (10 * Second)) aal12)
    as [Hgone _].
  - vm_compute. reflexivity.
  - apply list_elem_of_In. simpl. auto.
  - vm_compute. reflexivity.
  - by_computation.
  - vm_compute. reflexivity.
  - split; [exact Hgone|]. vm_compute. reflexivity.
Defined.



(** ** The loops, the sign-on and the restriction areas on the small sim *)

Lemma sim0_handoffs_covered t a k :
  is_Some (Handoffs (sim0 t a) !! k) -> k ∈ ["AAL12"].
Proof.
  intros [ho Hk]. cbn [sim0 Handoffs] in Hk.
  apply lookup_singleton_Some in Hk as [<- _].
  apply list_elem_of_singleton. reflexivity.
Qed.

Lemma sim0_pointOuts_covered t a k :
  is_Some (PointOuts (sim0 t a) !! k) -> k ∈ ["AAL12"].
Proof.
  intros [po Hk]. cbn [sim0 PointOuts] in Hk.
  apply lookup_singleton_Some in Hk as [<- _].
  apply list_elem_of_singleton. reflexivity.
Qed.

Lemma handoff_loop_result_witness :
  let s := sim0 (11 * Second) {["AAL12" := aal12]} in
  resolveHandoffs auto0 ["AAL12"] (resolveHandoffs auto0 ["AAL12"] s)
  = resolveHandoffs auto0 ["AAL12"] s.
Proof.
  intros s.
  exact (proj1 (proj2 (handoff_loop_result auto0 s ["AAL12"]
                         (sim0_handoffs_covered _ _))) ["AAL12"]).
Defined.

Lemma pointout_loop_result_witness :
  let s := sim0 (11 * Second) {["AAL12" := aal12]} in
  State_ (resolvePointOuts ["AAL12"] s) = State_ s.
Proof.
  intros s.
  exact (proj1 (proj2 (pointout_loop_result s ["AAL12"]
                         (sim0_pointOuts_covered _ _)))).
Defined.

Lemma Update_clock_witness :
  exists n : nat,
    SimTime (State_ (Update auto0 advance0 handoffOrder0 pointOutOrder0 scale0
                       700000000 700000001 (sim0 0 ∅)))
    = SimTime (State_ (sim0 0 ∅)) + Second * Z.of_nat n.
Proof.
  exact (proj1 (Update_clock auto0 advance0 handoffOrder0 pointOutOrder0 scale0
                  (fun s0 => eq_refl) 700000000 700000001 (sim0 0 ∅))).
Defined.

(** The positions that can be signed on to. *)
Definition positions0 : gset string := {["1A"; "3C"]}.

Lemma sim0_signed_in_ok t a : signed_in_ok (sim0 t a).
Proof.
  split; cbn [sim0 humanControllers State_ Controllers HumanControllers Instructors].
  - intros x Hx. apply elem_of_singleton in Hx. subst x.
    apply elem_of_union. left. apply elem_of_singleton. reflexivity.
  - intros x. rewrite list_elem_of_singleton, elem_of_singleton. reflexivity.
  - apply NoDup_singleton.
  - intros x Hx. apply elem_of_empty in Hx. destruct Hx.
Qed.

Lemma sign_on_off_consistent_witness :
  signed_in_ok (snd (signOn positions0 5 "3C" true (sim0 0 ∅)))
  /\ signed_in_ok (snd (SignOff "3C" (sim0 0 ∅))).
Proof.
  exact (sign_on_off_consistent positions0 5 "3C" true (sim0 0 ∅)
           (sim0_signed_in_ok 0 ∅)).
Defined.

Lemma signOn_round_trip_witness :
  let r := signOn positions0 5 "3C" true (sim0 0 ∅) in
  fst r = None
  /\ humanControllers (snd (SignOff "3C" (snd r))) = humanControllers (sim0 0 ∅)
  /\ fst (signOn positions0 9 "3C" false (snd (SignOff "3C" (snd r)))) = None.
Proof.
  intros r.
  destruct (signOn_round_trip positions0 5 9 "3C" true false (sim0 0 ∅)
              (sim0_signed_in_ok 0 ∅)) as (_ & _ & H).
  assert (Hr : fst r = None) by (vm_compute; reflexivity).
  destruct (H Hr) as (_ & _ & E1 & _ & _ & _ & E5).
  split; [exact Hr|]. split; [exact E1 | exact E5].
Defined.

Lemma primary_gates_clock_witness :
  Updates auto0 advance0 handoffOrder0 pointOutOrder0 scale0
    [(700000000, 700000001); (1500000001, 1500000002)]
    (snd (SignOff "1A" (sim0 0 ∅)))
  = snd (SignOff "1A" (sim0 0 ∅)).
Proof.
  apply (proj1 (primary_gates_clock auto0 advance0 handoffOrder0 pointOutOrder0
                  scale0 positions0 0 "1A" false
                  [(700000000, 700000001); (1500000001, 1500000002)]
                  (sim0 0 ∅))).
  - reflexivity.
  - vm_compute. reflexivity.
Defined.

Lemma GetSerializeSim_shared_witness :
  let s := sim0 0 ∅ in
  Controllers (State_ (snd (GetSerializeSim ["1A"] s)))
  = Controllers (State_ s) ∖ humanControllers s.
Proof.
  intros s.
  refine (proj1 (proj2 (GetSerializeSim_shared ["1A"] s _))).
  intros t. cbn [s sim0 humanControllers].
  rewrite list_elem_of_singleton, elem_of_singleton. reflexivity.
Defined.

(** Two areas in use, with room for a third; [UpdateTriangles] keeps the
    area as it is. *)
Definition areas0 : list (@RestrictionArea string) :=
  [mkRestrictionArea false "alpha"; mkRestrictionArea false "bravo"].

Definition triangles0 (ra : @RestrictionArea string) : @RestrictionArea string :=
  ra.

Lemma delete_update_restriction_area_witness :
  fst (DeleteRestrictionArea "" 1
         (snd (DeleteRestrictionArea "" 1 areas0)))
  = Some ErrInvalidRestrictionAreaIndex.
Proof.
  destruct (delete_update_restriction_area "" triangles0 1
              (mkRestrictionArea false "charlie") areas0)
    as (_ & _ & _ & H).
  - lia.
  - vm_compute. reflexivity.
  - destruct H as (_ & _ & _ & _ & H & _).
    + split; [lia|]. exists (mkRestrictionArea false "alpha").
      split; reflexivity.
    + exact H.
Defined.

Lemma restriction_area_slots_witness :
  let r := CreateRestrictionArea triangles0 2
             (mkRestrictionArea false "charlie")
             (snd (DeleteRestrictionArea "" 2 areas0)) in
  snd (fst r) = None /\ fst (fst r) = 2 /\ length (snd r) = length areas0.
Proof.
  intros r.
  destruct (restriction_area_slots "" triangles0 2 2
              (mkRestrictionArea false "charlie") areas0) as (H & _).
  - lia.
  - vm_compute. reflexivity.
  - vm_compute. discriminate.
  - destruct H as (E1 & _ & E3 & E4); [vm_compute; reflexivity|].
    split; [exact E1|]. split; [|exact E4].
    apply E3. intros [|[|j]] ua Hj Hl; cbn in Hl; try lia.
    injection Hl as <-. reflexivity.
Defined.

End SimCore.

(* ===================================================================== *)
(** * The session registry: server/manager.go *)
(* ===================================================================== *)

Module Manager.

Local Open Scope Z_scope.

(** Sessions and sims are reached through pointers: [addr] is the
    address of a [simSession] or of a [sim.Sim]. *)
Definition addr : Type := nat.

Definition Hour : Z := 3600 * 1000000000.

Definition simIdleLimit : Z := 4 * Hour.

(** [connectionState], without the websocket. *)
Record connectionState : Type := mkConnectionState {
  token : string;
  lastUpdateCall : Z;
  warnedNoUpdateCalls : bool;
  disableTextToSpeech : bool
}.

Record simSession : Type := mkSimSession {
  name : string;
  scenarioGroup : string;
  scenario : string;
  sim : addr;
  password : string;
  connectionsByTCP : gmap string connectionState
}.

Record controllerSession : Type := mkControllerSession {
  session : addr;
  tcp : string
}.

(** The fields of [NewSimConfiguration] that [NewSim] reads itself;
    [makeSimConfiguration] reads the scenario out of [Other]. *)
Record NewSimConfiguration (Other : Type) : Type := mkNewSimConfiguration {
  NewSimName : string;
  GroupName : string;
  ScenarioName : string;
  Password : string;
  Instructor : bool;
  DisableTextToSpeech : bool;
  other : Other
}.
Arguments NewSimName {Other} _.
Arguments GroupName {Other} _.
Arguments ScenarioName {Other} _.
Arguments Password {Other} _.
Arguments Instructor {Other} _.
Arguments DisableTextToSpeech {Other} _.
Arguments other {Other} _.

Section Manager.

(** [Sim] stands for [sim.Sim], [SimError] for the errors of
    [Sim.SignOn], [SimConfig] for [sim.NewSimConfiguration]. *)
Context {Sim SimError SimConfig Other : Type}.

Inductive error : Type :=
| ErrDuplicateSimName
| ErrInvalidSSimConfiguration
| ErrSignOn (e : SimError)
| ErrRandom.

(** ** What the manager calls in package sim and elsewhere *)

Variable lastUpdateTime : Sim -> Z.
Variable PrimaryController : Sim -> string.
Variable Activate : Sim -> Sim.
Variable SignOn : string -> bool -> bool -> Sim -> option SimError * Sim.
Variable Prespawn : Sim -> Sim.
Variable makeSimConfiguration : NewSimConfiguration Other -> option SimConfig.
Variable sim_NewSim : SimConfig -> Sim.

(** [Sim.IdleTime], as in pkg/sim/sim.go, with the clock at [now]. *)
Definition IdleTime (now : Z) (s : Sim) : Z :=
  SimCore.Since now (lastUpdateTime s).

(** The manager's two maps and the objects they point to. *)
Record Store : Type := mkStore {
  simSessions : gmap string addr;
  sessionsByToken : gmap string controllerSession;
  sessionHeap : gmap addr simSession;
  simHeap : gmap addr Sim
}.

Definition set_simHeap (h : gmap addr Sim) (st : Store) : Store :=
  mkStore (simSessions st) (sessionsByToken st) (sessionHeap st) h.

(** A nil or dangling pointer makes the call panic. *)
Definition deref {A : Type} (h : gmap addr A) (a : addr) : outcome A :=
  match h !! a with
  | Some x => Done x
  | None => Panic
  end.

Definition bind {A B : Type} (o : outcome A) (k : A -> outcome B) : outcome B :=
  match o with
  | Done a => k a
  | Panic => Panic
  end.

(** ** [Add] *)

(** [signOn]: the sim's [SignOn], then 16 random bytes in base64.
    [rnd] is what reading the random source gives: the token, or
    nothing when the read fails. *)
Definition signOn (position : string) (instructor disableTTS : bool)
    (rnd : option string) (s : Sim) : (error + string) * Sim :=
  match SignOn position instructor disableTTS s with
  | (Some e, s') => (inl (ErrSignOn e), s')
  | (None, s') =>
      match rnd with
      | None => (inl ErrRandom, s')
      | Some tok => (inr tok, s')
      end
  end.

(** [Add], up to the start of the session's goroutine.  It returns the
    error, if any, and the token of the result. *)
Definition Add (a : addr) (initialTCP : string)
    (instructor prespawn disableTTS : bool) (rnd : option string) (now : Z)
    (st : Store) : outcome (option error * string * Store) :=
  bind (deref (sessionHeap st) a) (fun ss =>
  bind (deref (simHeap st) (sim ss)) (fun s =>
    let st := set_simHeap (<[sim ss := Activate s]> (simHeap st)) st in
    if bool_decide (is_Some (simSessions st !! name ss))
       && negb (String.eqb (name ss) "")
    then Done (Some ErrDuplicateSimName, "", st)
    else
      let st := mkStore (<[name ss := a]> (simSessions st)) (sessionsByToken st)
                        (sessionHeap st) (simHeap st) in
      match signOn initialTCP instructor disableTTS rnd (Activate s) with
      | (inl err, s') =>
          Done (Some err, "", set_simHeap (<[sim ss := s']> (simHeap st)) st)
      | (inr tok, s') =>
          let ss' :=
            mkSimSession (name ss) (scenarioGroup ss) (scenario ss) (sim ss)
              (password ss)
              (<[initialTCP := mkConnectionState tok now false disableTTS]>
                 (connectionsByTCP ss)) in
          let s'' := if prespawn then Prespawn s' else s' in
          Done (None, tok,
                mkStore (simSessions st)
                  (<[tok := mkControllerSession a initialTCP]> (sessionsByToken st))
                  (<[a := ss']> (sessionHeap st))
                  (<[sim ss := s'']> (simHeap st)))
      end)).

(** [NewSim]: the sim and the session are new objects. *)
Definition NewSim (config : NewSimConfiguration Other) (rnd : option string)
    (now : Z) (st : Store) : outcome (option error * string * Store) :=
  match makeSimConfiguration config with
  | Some nsc =>
      let s := sim_NewSim nsc in
      let p := fresh (dom (simHeap st)) in
      let a := fresh (dom (sessionHeap st)) in
      let ss := mkSimSession (NewSimName config) (GroupName config)
                  (ScenarioName config) p (Password config) ∅ in
      let st := mkStore (simSessions st) (sessionsByToken st)
                  (<[a := ss]> (sessionHeap st)) (<[p := s]> (simHeap st)) in
      Add a (PrimaryController s) (Instructor config) true
          (DisableTextToSpeech config) rnd now st
  | None => Done (Some ErrInvalidSSimConfiguration, "", st)
  end.

(** ** [SimShouldExit] *)

(** The loop [for _, ss := range sm.simSessions], with [nowAt n] the
    clock when the session registered as [n] is looked at. *)
Fixpoint count_idle (nowAt : string -> Z) (st : Store)
    (entries : list (string * addr)) (nIdle : Z) : outcome Z :=
  match entries with
  | [] => Done nIdle
  | (n, a) :: rest =>
      bind (deref (sessionHeap st) a) (fun ss =>
      bind (deref (simHeap st) (sim ss)) (fun s =>
        count_idle nowAt st rest
          (if simIdleLimit <=? IdleTime (nowAt n) s then nIdle + 1 else nIdle)))
  end.

(** [SimShouldExit] for the sim at [p], with the clock at [now0] when
    its own idle time is read. *)
Definition SimShouldExit (now0 : Z) (nowAt : string -> Z) (p : addr)
    (st : Store) : outcome bool :=
  bind (deref (simHeap st) p) (fun s =>
    if IdleTime now0 s <? simIdleLimit then Done false
    else
      bind (count_idle nowAt st (map_to_list (simSessions st)) 0)
           (fun nIdle => Done (10 <? nIdle))).

(** ** The registry as a whole *)

(** Every registered session is there, with its sim. *)
Definition well_formed (st : Store) : Prop :=
  map_Forall
    (fun (_ : string) (a : addr) =>
       is_Some (sessionHeap st !! a ≫= fun ss => simHeap st !! sim ss))
    (simSessions st).

(** The session registered as [n] is idle at time [t]. *)
Definition idle_at (st : Store) (t : Z) (n : string) : bool :=
  match simSessions st !! n with
  | Some a =>
      match sessionHeap st !! a with
      | Some ss =>
          match simHeap st !! sim ss with
          | Some s => simIdleLimit <=? IdleTime t s
          | None => false
          end
      | None => false
      end
  | None => false
  end.

(** The names under which idle sessions are registered, and those among
    them whose sim is not the one at [p]. *)
Definition idle_names (nowAt : string -> Z) (st : Store) : list string :=
  List.filter (fun n => idle_at st (nowAt n) n)
              (List.map fst (map_to_list (simSessions st))).

Definition is_other (st : Store) (p : addr) (n : string) : bool :=
  match simSessions st !! n with
  | Some a =>
      match sessionHeap st !! a with
      | Some ss => negb (Nat.eqb (sim ss) p)
      | None => true
      end
  | None => true
  end.

Definition other_idle_names (nowAt : string -> Z) (st : Store) (p : addr)
  : list string :=
  List.filter (is_other st p) (idle_names nowAt st).

(** ** Registering under a name that is taken *)

Lemma Add_duplicate a initialTCP instructor prespawn disableTTS rnd now st ss s :
  sessionHeap st !! a = Some ss ->
  simHeap st !! sim ss = Some s ->
  name ss <> "" ->
  is_Some (simSessions st !! name ss) ->
  Add a initialTCP instructor prespawn disableTTS rnd now st
  = Done (Some ErrDuplicateSimName, "",
          set_simHeap (<[sim ss := Activate s]> (simHeap st)) st).
Proof.
  intros Hss Hs Hname Htaken. unfold Add, deref, bind. rewrite Hss, Hs.
  cbn [set_simHeap simSessions].
  rewrite bool_decide_eq_true_2 by exact Htaken.
  apply String.eqb_neq in Hname. rewrite Hname. reflexivity.
Qed.

Lemma Add_empty_name a initialTCP instructor prespawn disableTTS rnd now st ss s :
  sessionHeap st !! a = Some ss ->
  simHeap st !! sim ss = Some s ->
  name ss = "" ->
  exists r tok st',
    Add a initialTCP instructor prespawn disableTTS rnd now st = Done (r, tok, st')
    /\ r <> Some ErrDuplicateSimName
    /\ simSessions st' = <["" := a]> (simSessions st).
Proof.
  intros Hss Hs Hname. unfold Add, deref, bind. rewrite Hss, Hs, Hname.
  rewrite String.eqb_refl, andb_false_r.
  unfold signOn.
  destruct (SignOn _ _ _ _) as [[e|] s'].
  - eexists _, _, _. split; [reflexivity|]. split; [discriminate|reflexivity].
  - destruct rnd as [tok|].
    + eexists _, _, _. split; [reflexivity|]. split; [discriminate|reflexivity].
    + eexists _, _, _. split; [reflexivity|]. split; [discriminate|reflexivity].
Qed.

(** C6.  Registering a session under a name that is not empty and is
    already in [simSessions] fails with the duplicate-name error: the
    two maps of the manager and every session stay as they are, and so
    does every sim but the new session's own, which has been activated.
    [NewSim], whose session and sim are new objects, therefore leaves
    all that was there unchanged.  A session with the empty name is
    registered, in place of the one that was there, without a
    duplicate-name error. *)
Theorem duplicate_name_rejected (st : Store) :
  (forall a initialTCP instructor prespawn disableTTS rnd now ss s,
      sessionHeap st !! a = Some ss ->
      simHeap st !! sim ss = Some s ->
      name ss <> "" ->
      is_Some (simSessions st !! name ss) ->
      exists st',
        Add a initialTCP instructor prespawn disableTTS rnd now st
        = Done (Some ErrDuplicateSimName, "", st')
        /\ simSessions st' = simSessions st
        /\ sessionsByToken st' = sessionsByToken st
        /\ sessionHeap st' = sessionHeap st
        /\ forall q, q <> sim ss -> simHeap st' !! q = simHeap st !! q)
  /\ (forall config rnd now nsc,
        makeSimConfiguration config = Some nsc ->
        NewSimName config <> "" ->
        is_Some (simSessions st !! NewSimName config) ->
        exists st',
          NewSim config rnd now st = Done (Some ErrDuplicateSimName, "", st')
          /\ simSessions st' = simSessions st
          /\ sessionsByToken st' = sessionsByToken st
          /\ (forall b, is_Some (sessionHeap st !! b) ->
                sessionHeap st' !! b = sessionHeap st !! b)
          /\ (forall q, is_Some (simHeap st !! q) ->
                simHeap st' !! q = simHeap st !! q))
  /\ (forall a initialTCP instructor prespawn disableTTS rnd now ss s,
        sessionHeap st !! a = Some ss ->
        simHeap st !! sim ss = Some s ->
        name ss = "" ->
        exists r tok st',
          Add a initialTCP instructor prespawn disableTTS rnd now st
          = Done (r, tok, st')
          /\ r <> Some ErrDuplicateSimName
          /\ simSessions st' = <["" := a]> (simSessions st)).
Proof.
  split; [|split].
  - intros a initialTCP instructor prespawn disableTTS rnd now ss s Hss Hs Hn Ht.
    eexists. split; [eapply Add_duplicate; eassumption|].
    cbn. repeat split.
    intros q Hq. apply lookup_insert_ne. congruence.
  - intros config rnd now nsc Hcfg Hn Ht. unfold NewSim. rewrite Hcfg.
    set (p := fresh (dom (simHeap st))).
    set (a := fresh (dom (sessionHeap st))).
    assert (Hp : simHeap st !! p = None).
    { apply not_elem_of_dom. apply is_fresh. }
    assert (Ha : sessionHeap st !! a = None).
    { apply not_elem_of_dom. apply is_fresh. }
    eexists. split.
    + eapply Add_duplicate; cbn.
      * apply lookup_insert_eq.
      * apply lookup_insert_eq.
      * exact Hn.
      * exact Ht.
    + cbn. repeat split.
      * intros b [x Hb]. apply lookup_insert_ne. congruence.
      * intros q [x Hq]. rewrite !lookup_insert_ne by congruence. reflexivity.
  - intros a initialTCP instructor prespawn disableTTS rnd now ss s Hss Hs Hn.
    eapply Add_empty_name; eassumption.
Qed.

(** ** Idle sessions *)

Lemma count_idle_spec nowAt st entries acc :
  well_formed st ->
  (forall n a, (n, a) ∈ entries -> simSessions st !! n = Some a) ->
  count_idle nowAt st entries acc
  = Done (acc + Z.of_nat (length (List.filter (fun n => idle_at st (nowAt n) n)
                                               (List.map fst entries)))).
Proof.
  intros Hwf. revert acc.
  induction entries as [|[n a] rest IH]; intros acc Hreg.
  - cbn. rewrite Z.add_0_r. reflexivity.
  - assert (Hn : simSessions st !! n = Some a) by (apply Hreg; left).
    destruct (Hwf n a Hn) as [s Hb].
    apply bind_Some in Hb as (ss & Hss & Hs).
    cbn [count_idle List.map fst List.filter]. unfold deref, bind. rewrite Hss, Hs.
    rewrite IH by (intros n' a' Hin; apply Hreg; right; exact Hin).
    unfold idle_at at 2. rewrite Hn, Hss, Hs.
    destruct (simIdleLimit <=? IdleTime (nowAt n) s).
    + cbn [length]. f_equal. lia.
    + reflexivity.
Qed.

(** Counting a list with one marked element. *)
Lemma filter_all_true {A : Type} (g : A -> bool) (l : list A) :
  (forall x, In x l -> g x = true) -> List.filter g l = l.
Proof.
  induction l as [|x l IH]; intros H; simpl; [reflexivity|].
  rewrite (H x) by (left; reflexivity). f_equal. apply IH.
  intros y Hy. apply H. right. exact Hy.
Qed.

Lemma length_filter_but_one {A : Type} (f g : A -> bool) (l : list A) (x0 : A) :
  List.NoDup l -> In x0 l -> f x0 = true -> g x0 = false ->
  (forall x, In x l -> x <> x0 -> g x = true) ->
  length (List.filter f l) = S (length (List.filter g (List.filter f l))).
Proof.
  induction l as [|x l IH]; intros Hnd Hin Hf Hg Hoth; [destruct Hin|].
  inversion Hnd as [|? ? Hnotin Hnd']; subst.
  destruct Hin as [->|Hin].
  - simpl. rewrite Hf. simpl. rewrite Hg. f_equal. f_equal. symmetry.
    apply filter_all_true. intros y Hy. apply filter_In in Hy as [Hy _].
    apply Hoth; [right; exact Hy|]. intros ->. contradiction.
  - assert (Hx : x <> x0) by (intros ->; contradiction).
    specialize (IH Hnd' Hin Hf Hg (fun y Hy => Hoth y (or_intror Hy))).
    simpl. destruct (f x) eqn:Efx; [|exact IH].
    simpl. rewrite (Hoth x (or_introl eq_refl) Hx). simpl. f_equal. exact IH.
Qed.

(** C7, as the code has it.  In a registry whose sessions are all there,
    [SimShouldExit] for a sim answers true exactly when that sim has been
    idle for the limit of four hours and more than ten of the registered
    sessions are idle that long.  The session of the sim itself is one
    of those counted: when it is registered under one name and idle,
    the idle sessions are the other idle sessions and itself, so that it
    goes as soon as ten others are idle too. *)
Theorem SimShouldExit_counts_all (now0 : Z) (nowAt : string -> Z) (p : addr)
    (st : Store) (s : Sim) :
  well_formed st ->
  simHeap st !! p = Some s ->
  SimShouldExit now0 nowAt p st
  = Done ((simIdleLimit <=? IdleTime now0 s)
          && (10 <? Z.of_nat (length (idle_names nowAt st))))
  /\ (forall n0,
        is_other st p n0 = false ->
        (forall n, n <> n0 -> is_other st p n = true) ->
        idle_at st (nowAt n0) n0 = true ->
        length (idle_names nowAt st)
        = S (length (other_idle_names nowAt st p))).
Proof.
  intros Hwf Hs. split.
  - unfold SimShouldExit, deref, bind. rewrite Hs.
    rewrite (Z.leb_antisym (IdleTime now0 s)).
    destruct (IdleTime now0 s <? simIdleLimit); [reflexivity|].
    rewrite (count_idle_spec nowAt st _ 0 Hwf).
    + reflexivity.
    + intros n a Hin. apply elem_of_map_to_list. exact Hin.
  - intros n0 Hself Hothers Hidle.
    unfold other_idle_names, idle_names.
    apply (length_filter_but_one _ _ _ n0).
    + apply NoDup_ListNoDup. apply NoDup_fst_map_to_list.
    + unfold idle_at in Hidle.
      destruct (simSessions st !! n0) as [a|] eqn:Hn0; [|discriminate].
      apply in_map_iff. exists (n0, a). split; [reflexivity|].
      apply list_elem_of_In. apply elem_of_map_to_list. exact Hn0.
    + exact Hidle.
    + exact Hself.
    + intros n _ Hne. apply Hothers. exact Hne.
Qed.

(** ** Connecting, looking up and signing off *)

(** [sim.Sim.SignOff], [sim.Sim.Destroy] and [sim.Sim.PostEvent] with a
    status message, from package sim. *)
Variable sim_SignOff : string -> Sim -> option SimError * Sim.
Variable Destroy : Sim -> Sim.
Variable PostEvent : string -> Sim -> Sim.

(** The errors of [ConnectToSim] and [SignOff]: the manager's own, those
    of its [signOn], and those of the sim's [SignOff]. *)
Inductive connectError : Type :=
| ErrNoNamedSim
| ErrInvalidPassword
| ErrNoSimForControllerToken
| ErrManager (e : error)
| ErrSimSignOff (e : SimError).

Definition set_connections (c : gmap string connectionState) (ss : simSession)
  : simSession :=
  mkSimSession (name ss) (scenarioGroup ss) (scenario ss) (sim ss) (password ss) c.

(** [lookupController]: the position and the sim behind a token. *)
Definition lookupController (tok : string) (st : Store)
  : outcome (option (string * addr)) :=
  match sessionsByToken st !! tok with
  | Some ctrl =>
      bind (deref (sessionHeap st) (session ctrl)) (fun ss =>
        Done (Some (tcp ctrl, sim ss)))
  | None => Done None
  end.

(** [ConnectToSim], with the fields of the configuration it reads. *)
Definition ConnectToSim (RemoteSim Password Position : string)
    (Instructor DisableTextToSpeech : bool) (rnd : option string) (now : Z)
    (st : Store) : outcome ((connectError + string) * Store) :=
  match simSessions st !! RemoteSim with
  | None => Done (inl ErrNoNamedSim, st)
  | Some a =>
      bind (deref (sessionHeap st) a) (fun ss =>
        if negb (String.eqb (password ss) "")
           && negb (String.eqb Password (password ss))
        then Done (inl ErrInvalidPassword, st)
        else
          bind (deref (simHeap st) (sim ss)) (fun s =>
            match signOn Position (Instructor && String.eqb Position "")
                    DisableTextToSpeech rnd s with
            | (inl err, s') =>
                Done (inl (ErrManager err),
                      set_simHeap (<[sim ss := s']> (simHeap st)) st)
            | (inr tok, s') =>
                let ss' :=
                  set_connections
                    (<[Position := mkConnectionState tok now false
                                     DisableTextToSpeech]>
                       (connectionsByTCP ss)) ss in
                Done (inr tok,
                      mkStore (simSessions st)
                        (<[tok := mkControllerSession a Position]>
                           (sessionsByToken st))
                        (<[a := ss']> (sessionHeap st))
                        (<[sim ss := s']> (simHeap st)))
            end))
  end.

(** [signOff]: the token goes first, then the connection of the session,
    then the sim's own [SignOff], whose error is the result. *)
Definition signOff (tok : string) (st : Store)
  : outcome (option connectError * Store) :=
  match sessionsByToken st !! tok with
  | None => Done (Some ErrNoSimForControllerToken, st)
  | Some ctrl =>
      bind (deref (sessionHeap st) (session ctrl)) (fun ss =>
      bind (deref (simHeap st) (sim ss)) (fun s =>
        let '(e, s') := sim_SignOff (tcp ctrl) s in
        Done (option_map ErrSimSignOff e,
              mkStore (simSessions st)
                (delete tok (sessionsByToken st))
                (<[session ctrl :=
                     set_connections (delete (tcp ctrl) (connectionsByTCP ss)) ss]>
                   (sessionHeap st))
                (<[sim ss := s']> (simHeap st)))))
  end.

(** One round of [for token, ctrl := range sm.sessionsByToken] at the
    end of a session's goroutine. *)
Definition dropToken (a : addr) (m : gmap string controllerSession)
    (tok : string) : gmap string controllerSession :=
  match m !! tok with
  | Some ctrl => if Nat.eqb (session ctrl) a then delete tok m else m
  | None => m
  end.

(** What the goroutine of the session at [a] does once [SimShouldExit]
    has answered true; [order] is the order in which [range] yields the
    tokens. *)
Definition teardown (order : list string) (a : addr) (st : Store)
  : outcome Store :=
  bind (deref (sessionHeap st) a) (fun ss =>
  bind (deref (simHeap st) (sim ss)) (fun s =>
    Done (mkStore (delete (name ss) (simSessions st))
            (fold_left (dropToken a) order (sessionsByToken st))
            (sessionHeap st)
            (<[sim ss := Destroy s]> (simHeap st))))).

Lemma ConnectToSim_ok RemoteSim Password Position Instructor disableTTS rnd now
    st tok st' :
  ConnectToSim RemoteSim Password Position Instructor disableTTS rnd now st
  = Done (inr tok, st') ->
  exists a ss s s',
    simSessions st !! RemoteSim = Some a
    /\ sessionHeap st !! a = Some ss
    /\ simHeap st !! sim ss = Some s
    /\ st' = mkStore (simSessions st)
               (<[tok := mkControllerSession a Position]> (sessionsByToken st))
               (<[a := set_connections
                         (<[Position := mkConnectionState tok now false disableTTS]>
                            (connectionsByTCP ss)) ss]> (sessionHeap st))
               (<[sim ss := s']> (simHeap st)).
Proof.
  unfold ConnectToSim, bind, deref. intros H.
  destruct (simSessions st !! RemoteSim) as [a|] eqn:Hn; [|discriminate].
  destruct (sessionHeap st !! a) as [ss|] eqn:Hss; [|discriminate].
  destruct (negb _ && negb _); [discriminate|].
  destruct (simHeap st !! sim ss) as [s|] eqn:Hs; [|discriminate].
  destruct (signOn _ _ _ _ _) as [[err|tok'] s']; [discriminate|].
  injection H as <- <-. exists a, ss, s, s'. repeat split; assumption.
Qed.

(** X15.  The life of a controller token.  After a successful
    [ConnectToSim] the token it returned looks up to the position asked
    for and the sim of the named session, and no other token has
    changed.  [signOff] of the token then returns without a panic;
    whatever the sim's own [SignOff] answers, the token is unknown
    afterwards, the session has no connection for the position, and a
    second [signOff] returns [ErrNoSimForControllerToken] and changes
    nothing. *)
Theorem token_lifecycle (RemoteSim Password Position : string)
    (Instructor disableTTS : bool) (rnd : option string) (now : Z)
    (st st' : Store) (tok : string) :
  ConnectToSim RemoteSim Password Position Instructor disableTTS rnd now st
  = Done (inr tok, st') ->
  exists a ss,
    simSessions st !! RemoteSim = Some a
    /\ sessionHeap st !! a = Some ss
    /\ lookupController tok st' = Done (Some (Position, sim ss))
    /\ (forall t, t <> tok -> sessionsByToken st' !! t = sessionsByToken st !! t)
    /\ exists e st'',
        signOff tok st' = Done (e, st'')
        /\ sessionsByToken st'' !! tok = None
        /\ lookupController tok st'' = Done None
        /\ (exists ss'', sessionHeap st'' !! a = Some ss''
                         /\ connectionsByTCP ss'' !! Position = None)
        /\ (forall t, t <> tok ->
                      sessionsByToken st'' !! t = sessionsByToken st !! t)
        /\ signOff tok st'' = Done (Some ErrNoSimForControllerToken, st'').
Proof.
  intros H. apply ConnectToSim_ok in H as (a & ss & s & s' & Hn & Hss & Hs & ->).
  exists a, ss. split; [exact Hn|]. split; [exact Hss|].
  split.
  { unfold lookupController, bind, deref. cbn [sessionsByToken sessionHeap].
    rewrite lookup_insert_eq. cbn [session tcp].
    rewrite lookup_insert_eq. reflexivity. }
  split.
  { intros t Ht. cbn [sessionsByToken]. apply lookup_insert_ne. congruence. }
  unfold signOff, bind, deref. cbn [sessionsByToken sessionHeap simHeap simSessions].
  rewrite lookup_insert_eq. cbn [session tcp].
  rewrite lookup_insert_eq. cbn [set_connections sim connectionsByTCP].
  rewrite lookup_insert_eq.
  destruct (sim_SignOff Position s') as [e s''].
  eexists _, _. split; [reflexivity|].
  cbn [sessionsByToken sessionHeap].
  split; [apply lookup_delete_eq|].
  split; [unfold lookupController; cbn [sessionsByToken];
          rewrite lookup_delete_eq; reflexivity|].
  split.
  { eexists. split; [apply lookup_insert_eq|].
    cbn [connectionsByTCP]. apply lookup_delete_eq. }
  split.
  { intros t Ht. rewrite lookup_delete_ne by congruence.
    apply lookup_insert_ne. congruence. }
  rewrite lookup_delete_eq. reflexivity.
Qed.

(** X16.  What [ConnectToSim] refuses.  It answers [ErrNoNamedSim]
    exactly when no session is registered under the name, and
    [ErrInvalidPassword] exactly when the session has a password that is
    not empty and differs from the one given; in both cases nothing has
    changed.  Whatever it answers, the registry of names is as before,
    and after any error there is no new token and no session has
    changed. *)
Theorem connect_refused (RemoteSim Password Position : string)
    (Instructor disableTTS : bool) (rnd : option string) (now : Z)
    (st st' : Store) (r : connectError + string) :
  ConnectToSim RemoteSim Password Position Instructor disableTTS rnd now st
  = Done (r, st') ->
  (r = inl ErrNoNamedSim <-> simSessions st !! RemoteSim = None)
  /\ (r = inl ErrInvalidPassword
      <-> exists a ss, simSessions st !! RemoteSim = Some a
                       /\ sessionHeap st !! a = Some ss
                       /\ password ss <> "" /\ Password <> password ss)
  /\ (r = inl ErrNoNamedSim \/ r = inl ErrInvalidPassword -> st' = st)
  /\ simSessions st' = simSessions st
  /\ (forall e, r = inl e ->
        sessionsByToken st' = sessionsByToken st
        /\ sessionHeap st' = sessionHeap st).
Proof using Type.
  clear sim_SignOff Destroy PostEvent.
  unfold ConnectToSim, bind, deref. intros H.
  destruct (simSessions st !! RemoteSim) as [a|] eqn:Hn.
  2:{ injection H as <- <-. split; [tauto|]. split.
      - split; [discriminate|]. intros (a & ss & ? & _). discriminate.
      - auto. }
  destruct (sessionHeap st !! a) as [ss|] eqn:Hss; [|discriminate].
  destruct (String.eqb_spec (password ss) "") as [Hp|Hp];
    destruct (String.eqb_spec Password (password ss)) as [Hq|Hq];
    cbn [negb andb] in H.
  4:{ injection H as <- <-. split; [split; discriminate|]. split.
      - split; [|reflexivity]. intros _. exists a, ss. auto.
      - auto. }
  all: destruct (simHeap st !! sim ss) as [s|]; [|discriminate].
  all: destruct (signOn _ _ _ _ _) as [[err|tok] s'];
    injection H as <- <-; cbn [simSessions sessionsByToken sessionHeap set_simHeap].
  all: split; [split; discriminate|].
  all: split;
    [split; [discriminate|];
     intros (a' & ss' & [= <-] & Hss' & Hne & Hneq);
     rewrite Hss in Hss'; injection Hss' as <-; congruence|].
  all: split; [intros [?|?]; discriminate|].
  all: split; [reflexivity|].
  all: intros e He; try discriminate; auto.
Qed.

Lemma fold_dropToken a order m t :
  fold_left (dropToken a) order m !! t =
    match m !! t with
    | Some ctrl =>
        if Nat.eqb (session ctrl) a && bool_decide (t ∈ order) then None
        else Some ctrl
    | None => None
    end.
Proof.
  revert m. induction order as [|k order IH]; intros m; cbn [fold_left].
  - destruct (m !! t); [|reflexivity].
    rewrite bool_decide_eq_false_2 by apply not_elem_of_nil.
    rewrite andb_false_r. reflexivity.
  - rewrite IH. unfold dropToken.
    destruct (decide (k = t)) as [->|Hne].
    + destruct (m !! t) as [ctrl|] eqn:Ht.
      * destruct (Nat.eqb (session ctrl) a) eqn:Ha.
        -- rewrite lookup_delete_eq. cbn [andb].
           rewrite bool_decide_eq_true_2 by (apply elem_of_cons; left; reflexivity).
           reflexivity.
        -- rewrite Ht, Ha. reflexivity.
      * rewrite Ht. reflexivity.
    + assert (Hsame : match m !! k with
                      | Some ctrl => if Nat.eqb (session ctrl) a then delete k m else m
                      | None => m
                      end !! t = m !! t).
      { destruct (m !! k) as [c|]; [|reflexivity].
        destruct (Nat.eqb (session c) a); [|reflexivity].
        apply lookup_delete_ne. exact Hne. }
      rewrite Hsame. destruct (m !! t) as [ctrl|]; [|reflexivity].
      destruct (Nat.eqb (session ctrl) a); [|reflexivity]. cbn [andb].
      destruct (decide (t ∈ order)) as [Hin|Hnin].
      * rewrite !bool_decide_eq_true_2; [reflexivity| |exact Hin].
        apply elem_of_cons. right. exact Hin.
      * rewrite !bool_decide_eq_false_2; [reflexivity| |exact Hnin].
        intros [Heq|Hin]%elem_of_cons; [congruence|contradiction].
Qed.

(** X17.  The end of a session.  When the goroutine of a session winds
    up, with [range] visiting every token, the tokens left are exactly
    those of the other sessions, each with the session it had; a token
    of the ended session looks up to nothing from then on; and the name
    of the session is no longer registered, while every other name is
    as before. *)
Theorem teardown_tokens (order : list string) (a : addr) (st st' : Store) :
  (forall t, is_Some (sessionsByToken st !! t) -> t ∈ order) ->
  teardown order a st = Done st' ->
  (forall t ctrl,
      sessionsByToken st' !! t = Some ctrl
      <-> sessionsByToken st !! t = Some ctrl /\ session ctrl <> a)
  /\ (forall t ctrl,
        sessionsByToken st !! t = Some ctrl -> session ctrl = a ->
        lookupController t st' = Done None)
  /\ (forall t ctrl,
        sessionsByToken st !! t = Some ctrl -> session ctrl <> a ->
        lookupController t st' = lookupController t st)
  /\ exists ss,
      sessionHeap st !! a = Some ss
      /\ simSessions st' !! name ss = None
      /\ (forall n, n <> name ss -> simSessions st' !! n = simSessions st !! n).
Proof.
  intros Hcover H. unfold teardown, bind, deref in H.
  destruct (sessionHeap st !! a) as [ss|] eqn:Hss; [|discriminate].
  destruct (simHeap st !! sim ss) as [s|]; [|discriminate].
  injection H as <-.
  assert (Hleft : forall t ctrl,
      fold_left (dropToken a) order (sessionsByToken st) !! t = Some ctrl
      <-> sessionsByToken st !! t = Some ctrl /\ session ctrl <> a).
  { intros t ctrl. rewrite fold_dropToken.
    destruct (sessionsByToken st !! t) as [c|] eqn:Ht.
    - rewrite bool_decide_eq_true_2 by (apply Hcover; eauto).
      rewrite andb_true_r. destruct (Nat.eqb_spec (session c) a) as [Ha|Ha].
      + split; [discriminate|]. intros ([= <-] & ?). contradiction.
      + split; [intros [= <-]; auto | intros (? & _); assumption].
    - split; [discriminate|]. intros (? & _). discriminate. }
  split; [exact Hleft|]. split; [|split].
  - intros t ctrl Ht Ha. unfold lookupController. cbn [sessionsByToken].
    destruct (fold_left _ _ _ !! t) as [c|] eqn:Hc; [|reflexivity].
    apply Hleft in Hc as [Hc Hne]. congruence.
  - intros t ctrl Ht Ha. unfold lookupController. cbn [sessionsByToken sessionHeap].
    rewrite (proj2 (Hleft t ctrl) (conj Ht Ha)), Ht. reflexivity.
  - exists ss. split; [reflexivity|]. cbn [simSessions].
    split; [apply lookup_delete_eq|].
    intros n Hn. apply lookup_delete_ne. congruence.
Qed.

(** ** Connections that have gone quiet *)

Definition set_warned (w : bool) (c : connectionState) : connectionState :=
  mkConnectionState (token c) (lastUpdateCall c) w (disableTextToSpeech c).

Definition lostMessage (tcp : string) : string :=
  String.append tcp " has not been heard from for 5 seconds. Connection lost?".

Definition backMessage (tcp : string) : string :=
  String.append tcp " is back online.".

(** The two tests of the loop in [CullIdleControllers], each with the
    clock its [time.Since] reads. *)
Definition quiet5 (now5 : string -> Z) (tcp : string) (c : connectionState)
  : bool :=
  5 * SimCore.Second <? SimCore.Since (now5 tcp) (lastUpdateCall c).

Definition quiet15 (now15 : string -> Z) (tcp : string) (c : connectionState)
  : bool :=
  15 * SimCore.Second <? SimCore.Since (now15 tcp) (lastUpdateCall c).

(** One round of [for tcp, ctrl := range ss.connectionsByTCP]: the
    connections, the sim and the tokens collected so far. *)
Definition cullStep (now5 now15 : string -> Z)
    (acc : gmap string connectionState * Sim * list string) (tcp : string)
  : gmap string connectionState * Sim * list string :=
  let '(conns, s, toks) := acc in
  match conns !! tcp with
  | None => acc
  | Some ctrl =>
      if quiet5 now5 tcp ctrl then
        let '(conns1, s1) :=
          if warnedNoUpdateCalls ctrl then (conns, s)
          else (<[tcp := set_warned true ctrl]> conns,
                PostEvent (lostMessage tcp) s) in
        (conns1, s1,
         if quiet15 now15 tcp ctrl then toks ++ [token ctrl] else toks)
      else acc
  end.

(** [CullIdleControllers] for the session at [a]: the loop above, then
    [sm.SignOff] of every token collected, whose errors are logged and
    dropped. *)
Definition CullIdleControllers (now5 now15 : string -> Z) (order : list string)
    (a : addr) (st : Store) : outcome Store :=
  bind (deref (sessionHeap st) a) (fun ss =>
  bind (deref (simHeap st) (sim ss)) (fun s =>
    let '(conns, s', toks) :=
      fold_left (cullStep now5 now15) order (connectionsByTCP ss, s, []) in
    let st1 :=
      mkStore (simSessions st) (sessionsByToken st)
        (<[a := set_connections conns ss]> (sessionHeap st))
        (<[sim ss := s']> (simHeap st)) in
    fold_left
      (fun o tok => bind o (fun st => bind (signOff tok st) (fun r => Done (snd r))))
      toks (Done st1))).

(** [GotUpdateCallForTCP] for the session at [a], with the clock at
    [now]. *)
Definition GotUpdateCallForTCP (now : Z) (tcp : string) (a : addr) (st : Store)
  : outcome Store :=
  bind (deref (sessionHeap st) a) (fun ss =>
    match connectionsByTCP ss !! tcp with
    | None => Done st
    | Some ctrl =>
        let ctrl' :=
          mkConnectionState (token ctrl) now false (disableTextToSpeech ctrl) in
        let ss' := set_connections (<[tcp := ctrl']> (connectionsByTCP ss)) ss in
        if warnedNoUpdateCalls ctrl then
          bind (deref (simHeap st) (sim ss)) (fun s =>
            Done (mkStore (simSessions st) (sessionsByToken st)
                    (<[a := ss']> (sessionHeap st))
                    (<[sim ss := PostEvent (backMessage tcp) s]> (simHeap st))))
        else
          Done (mkStore (simSessions st) (sessionsByToken st)
                  (<[a := ss']> (sessionHeap st)) (simHeap st))
    end).

(** What the loop makes of one connection, what it collects for it and
    whether it posts a warning for it. *)
Definition culled (now5 : string -> Z) (tcp : string) (c : connectionState)
  : connectionState :=
  if quiet5 now5 tcp c then set_warned true c else c.

Definition collected (now5 now15 : string -> Z)
    (conns : gmap string connectionState) (tcp : string) : option string :=
  match conns !! tcp with
  | Some c => if quiet5 now5 tcp c && quiet15 now15 tcp c then Some (token c)
              else None
  | None => None
  end.

Definition newly_warned (now5 : string -> Z)
    (conns : gmap string connectionState) (tcp : string) : bool :=
  match conns !! tcp with
  | Some c => quiet5 now5 tcp c && negb (warnedNoUpdateCalls c)
  | None => false
  end.

Lemma set_warned_id c : warnedNoUpdateCalls c = true -> set_warned true c = c.
Proof. destruct c as [t l w d]. cbn. intros ->. reflexivity. Qed.

Lemma cullStep_spec now5 now15 conns s toks tcp :
  cullStep now5 now15 (conns, s, toks) tcp
  = (match conns !! tcp with
     | Some c => <[tcp := culled now5 tcp c]> conns
     | None => conns
     end,
     if newly_warned now5 conns tcp then PostEvent (lostMessage tcp) s else s,
     toks ++ match collected now5 now15 conns tcp with
             | Some t => [t]
             | None => []
             end).
Proof.
  unfold cullStep, culled, newly_warned, collected.
  destruct (conns !! tcp) as [c|] eqn:Hc; [|rewrite app_nil_r; reflexivity].
  destruct (quiet5 now5 tcp c); cbn [andb].
  - destruct (warnedNoUpdateCalls c) eqn:Hw; cbn [negb].
    + rewrite set_warned_id by exact Hw. rewrite insert_id by exact Hc.
      destruct (quiet15 now15 tcp c); [|rewrite app_nil_r]; reflexivity.
    + destruct (quiet15 now15 tcp c); [|rewrite app_nil_r]; reflexivity.
  - rewrite insert_id by exact Hc. rewrite app_nil_r. reflexivity.
Qed.

Lemma omap_ext_in {A B} (f g : A -> option B) (l : list A) :
  (forall x, x ∈ l -> f x = g x) -> omap f l = omap g l.
Proof.
  induction l as [|x l IH]; intros H; [reflexivity|]. cbn.
  rewrite (H x) by (apply elem_of_cons; left; reflexivity).
  rewrite IH; [reflexivity|].
  intros y Hy. apply H. apply elem_of_cons. right. exact Hy.
Qed.

Lemma filter_ext_elem {A} (f g : A -> bool) (l : list A) :
  (forall x, x ∈ l -> f x = g x) -> List.filter f l = List.filter g l.
Proof.
  intros H. apply List.filter_ext_in. intros x Hx. apply H.
  apply list_elem_of_In. exact Hx.
Qed.

Lemma cull_fold now5 now15 order conns s toks :
  NoDup order ->
  let r := fold_left (cullStep now5 now15) order (conns, s, toks) in
  (forall tcp,
      fst (fst r) !! tcp =
        match conns !! tcp with
        | Some c => Some (if bool_decide (tcp ∈ order) then culled now5 tcp c else c)
        | None => None
        end)
  /\ snd (fst r)
     = fold_left (fun s tcp => PostEvent (lostMessage tcp) s)
         (List.filter (newly_warned now5 conns) order) s
  /\ snd r = toks ++ omap (collected now5 now15 conns) order.
Proof.
  revert conns s toks. induction order as [|k order IH]; intros conns s toks Hnd.
  - cbn. split; [|split; [reflexivity | rewrite app_nil_r; reflexivity]].
    intros tcp. destruct (conns !! tcp); [|reflexivity].
    rewrite bool_decide_eq_false_2 by apply not_elem_of_nil. reflexivity.
  - apply NoDup_cons in Hnd as [Hk Hnd]. cbn [fold_left].
    rewrite cullStep_spec.
    set (conns1 := match conns !! k with
                   | Some c => <[k := culled now5 k c]> conns
                   | None => conns
                   end).
    assert (Hother : forall t, t <> k -> conns1 !! t = conns !! t).
    { intros t Ht. unfold conns1. destruct (conns !! k); [|reflexivity].
      apply lookup_insert_ne. congruence. }
    destruct (IH conns1
                (if newly_warned now5 conns k then PostEvent (lostMessage k) s else s)
                (toks ++ match collected now5 now15 conns k with
                         | Some t => [t]
                         | None => []
                         end) Hnd) as (H1 & H2 & H3).
    split; [|split].
    + intros tcp. rewrite H1. destruct (decide (tcp = k)) as [->|Hne].
      * rewrite (bool_decide_eq_false_2 (k ∈ order)) by exact Hk.
        rewrite (bool_decide_eq_true_2 (k ∈ k :: order))
          by (apply elem_of_cons; left; reflexivity).
        unfold conns1. destruct (conns !! k) as [c|] eqn:Hc.
        -- rewrite lookup_insert_eq. reflexivity.
        -- rewrite Hc. reflexivity.
      * rewrite (Hother tcp Hne). destruct (conns !! tcp) as [c|]; [|reflexivity].
        destruct (decide (tcp ∈ order)) as [Hin|Hnin].
        -- rewrite !bool_decide_eq_true_2; [reflexivity| |exact Hin].
           apply elem_of_cons. right. exact Hin.
        -- rewrite !bool_decide_eq_false_2; [reflexivity| |exact Hnin].
           intros [Heq|Hin]%elem_of_cons; [congruence|contradiction].
    + rewrite H2. cbn [List.filter].
      rewrite (filter_ext_elem (newly_warned now5 conns1) (newly_warned now5 conns)).
      * destruct (newly_warned now5 conns k); reflexivity.
      * intros t Ht. unfold newly_warned. rewrite Hother; [reflexivity|].
        intros ->. contradiction.
    + rewrite H3.
      change (omap (collected now5 now15 conns) (k :: order))
        with (match collected now5 now15 conns k with
              | Some t => t :: omap (collected now5 now15 conns) order
              | None => omap (collected now5 now15 conns) order
              end).
      rewrite (omap_ext_in (collected now5 now15 conns1) (collected now5 now15 conns)).
      * destruct (collected now5 now15 conns k) as [t|];
          rewrite <- app_assoc; reflexivity.
      * intros t Ht. unfold collected. rewrite Hother; [reflexivity|].
        intros ->. contradiction.
Qed.

(** X18.  The loop of [CullIdleControllers], when [range] visits every
    connection once.  A connection heard from within five seconds is
    left as it is; one that is not gets its warned flag set, and the
    "not been heard from" event is posted for it only if the flag was
    not set before, so once per silence; no connection is added or
    removed by the loop; and the tokens collected for signing off are
    those of the connections silent for more than five seconds at the
    first reading of the clock and more than fifteen at the second. *)
Theorem cull_scan (now5 now15 : string -> Z) (order : list string)
    (conns : gmap string connectionState) (s : Sim) :
  NoDup order ->
  (forall tcp, is_Some (conns !! tcp) -> tcp ∈ order) ->
  let r := fold_left (cullStep now5 now15) order (conns, s, []) in
  (forall tcp c,
      conns !! tcp = Some c ->
      fst (fst r) !! tcp
      = Some (if quiet5 now5 tcp c then set_warned true c else c))
  /\ (forall tcp, conns !! tcp = None -> fst (fst r) !! tcp = None)
  /\ snd (fst r)
     = fold_left (fun s tcp => PostEvent (lostMessage tcp) s)
         (List.filter (newly_warned now5 conns) order) s
  /\ (forall tok,
        tok ∈ snd r
        <-> exists tcp c,
              conns !! tcp = Some c /\ token c = tok
              /\ quiet5 now5 tcp c = true /\ quiet15 now15 tcp c = true).
Proof.
  intros Hnd Hcover r.
  destruct (cull_fold now5 now15 order conns s [] Hnd) as (H1 & H2 & H3).
  fold r in H1, H2, H3.
  split; [|split; [|split]].
  - intros tcp c Hc. rewrite H1, Hc.
    rewrite bool_decide_eq_true_2 by (apply Hcover; eauto). reflexivity.
  - intros tcp Hc. rewrite H1, Hc. reflexivity.
  - exact H2.
  - intros tok. rewrite H3. cbn [app]. rewrite list_elem_of_omap.
    unfold collected. split.
    + intros (tcp & Hin & Hcol).
      destruct (conns !! tcp) as [c|] eqn:Hc; [|discriminate].
      destruct (quiet5 now5 tcp c) eqn:H5; [|discriminate].
      destruct (quiet15 now15 tcp c) eqn:H15; [|discriminate].
      injection Hcol as <-. exists tcp, c. auto.
    + intros (tcp & c & Hc & <- & H5 & H15). exists tcp.
      split; [apply Hcover; eauto|]. rewrite Hc, H5, H15. reflexivity.
Qed.

(** X19.  Keeping a connection alive.  [GotUpdateCallForTCP] for a
    position the session knows records the time of the call and clears
    the warned flag, posting "is back online" only if the flag was set;
    for an unknown position it changes nothing.  A round of the culling
    loop that then reads the clock no more than five seconds later
    leaves the connection as it is, posts nothing and collects nothing
    for it. *)
Theorem keep_alive (now : Z) (tcp : string) (a : addr) (st : Store)
    (ss : simSession) (s : Sim) :
  sessionHeap st !! a = Some ss ->
  simHeap st !! sim ss = Some s ->
  (connectionsByTCP ss !! tcp = None ->
     GotUpdateCallForTCP now tcp a st = Done st)
  /\ (forall c,
        connectionsByTCP ss !! tcp = Some c ->
        exists st' ss',
          GotUpdateCallForTCP now tcp a st = Done st'
          /\ sessionHeap st' !! a = Some ss'
          /\ connectionsByTCP ss' !! tcp
             = Some (mkConnectionState (token c) now false (disableTextToSpeech c))
          /\ (forall t, t <> tcp ->
                        connectionsByTCP ss' !! t = connectionsByTCP ss !! t)
          /\ sessionsByToken st' = sessionsByToken st
          /\ simHeap st' !! sim ss
             = Some (if warnedNoUpdateCalls c then PostEvent (backMessage tcp) s
                     else s)
          /\ forall now5 now15 s1 toks,
               - 2 ^ 63 <= now < 2 ^ 63 ->
               now5 tcp <= now + 5 * SimCore.Second ->
               cullStep now5 now15 (connectionsByTCP ss', s1, toks) tcp
               = (connectionsByTCP ss', s1, toks)).
Proof.
  intros Hss Hs. unfold GotUpdateCallForTCP, bind, deref. rewrite Hss.
  split; [intros ->; reflexivity|].
  intros c Hc. rewrite Hc.
  set (c' := mkConnectionState (token c) now false (disableTextToSpeech c)).
  set (ss' := set_connections (<[tcp := c']> (connectionsByTCP ss)) ss).
  assert (Hstep : forall now5 now15 s1 toks,
             - 2 ^ 63 <= now < 2 ^ 63 ->
             now5 tcp <= now + 5 * SimCore.Second ->
             cullStep now5 now15 (connectionsByTCP ss', s1, toks) tcp
             = (connectionsByTCP ss', s1, toks)).
  { intros now5 now15 s1 toks Hnow Hle. unfold cullStep.
    cbn [ss' set_connections connectionsByTCP]. rewrite lookup_insert_eq.
    unfold quiet5. cbn [c' lastUpdateCall].
    replace (5 * SimCore.Second <? SimCore.Since (now5 tcp) now) with false;
      [reflexivity|].
    symmetry. apply Z.ltb_ge.
    unfold SimCore.Since, SimCore.Sub, SimCore.Second in *. lia. }
  destruct (warnedNoUpdateCalls c).
  - rewrite Hs. eexists _, ss'. split; [reflexivity|].
    cbn [sessionHeap sessionsByToken simHeap].
    split; [apply lookup_insert_eq|].
    split; [cbn [ss' set_connections connectionsByTCP]; apply lookup_insert_eq|].
    split.
    { intros t Ht. cbn [ss' set_connections connectionsByTCP].
      apply lookup_insert_ne. congruence. }
    split; [reflexivity|]. split; [apply lookup_insert_eq | exact Hstep].
  - eexists _, ss'. split; [reflexivity|].
    cbn [sessionHeap sessionsByToken simHeap].
    split; [apply lookup_insert_eq|].
    split; [cbn [ss' set_connections connectionsByTCP]; apply lookup_insert_eq|].
    split.
    { intros t Ht. cbn [ss' set_connections connectionsByTCP].
      apply lookup_insert_ne. congruence. }
    split; [reflexivity|]. split; [exact Hs | exact Hstep].
Qed.

(** *** Signing off the connections collected *)

(** The second loop of [CullIdleControllers]. *)
Definition signOffAll (toks : list string) (o : outcome Store) : outcome Store :=
  fold_left
    (fun o tok => bind o (fun st => bind (signOff tok st) (fun r => Done (snd r))))
    toks o.

(** Every connection of the session at [a] has its token registered, for
    that session and that position. *)
Definition linked (a : addr) (ss : simSession) (st : Store) : Prop :=
  forall tcp c,
    connectionsByTCP ss !! tcp = Some c ->
    sessionsByToken st !! token c = Some (mkControllerSession a tcp).

Lemma signOff_linked a st ss s pos c :
  sessionHeap st !! a = Some ss ->
  simHeap st !! sim ss = Some s ->
  connectionsByTCP ss !! pos = Some c ->
  linked a ss st ->
  signOff (token c) st
  = Done (option_map ErrSimSignOff (fst (sim_SignOff pos s)),
          mkStore (simSessions st) (delete (token c) (sessionsByToken st))
            (<[a := set_connections (delete pos (connectionsByTCP ss)) ss]>
               (sessionHeap st))
            (<[sim ss := snd (sim_SignOff pos s)]> (simHeap st))).
Proof.
  intros Hss Hs Hc Hl. unfold signOff, bind, deref.
  rewrite (Hl pos c Hc). cbn [session tcp]. rewrite Hss, Hs.
  destruct (sim_SignOff pos s) as [e s']. reflexivity.
Qed.

Lemma signOffAll_linked a (f : string -> option string) order :
  forall st ss s,
    NoDup order ->
    sessionHeap st !! a = Some ss ->
    simHeap st !! sim ss = Some s ->
    (forall tcp tok, tcp ∈ order -> f tcp = Some tok ->
       exists c, connectionsByTCP ss !! tcp = Some c /\ token c = tok) ->
    linked a ss st ->
    exists st' ss' s',
      signOffAll (omap f order) (Done st) = Done st'
      /\ sessionHeap st' !! a = Some ss'
      /\ sim ss' = sim ss
      /\ simHeap st' !! sim ss = Some s'
      /\ simSessions st' = simSessions st
      /\ (forall tcp,
            connectionsByTCP ss' !! tcp
            = if bool_decide (tcp ∈ order) && bool_decide (is_Some (f tcp))
              then None else connectionsByTCP ss !! tcp)
      /\ (forall t,
            sessionsByToken st' !! t
            = if bool_decide (t ∈ omap f order) then None
              else sessionsByToken st !! t).
Proof.
  induction order as [|k order IH]; intros st ss s Hnd Hss Hs Hf Hl.
  - exists st, ss, s. cbn. repeat split; try assumption; try reflexivity.
  - apply NoDup_cons in Hnd as [Hk Hnd].
    change (omap f (k :: order))
      with (match f k with
            | Some t => t :: omap f order
            | None => omap f order
            end).
    destruct (f k) as [tok|] eqn:Hfk.
    + destruct (Hf k tok) as (c & Hc & Htok);
        [apply elem_of_cons; left; reflexivity | exact Hfk |].
      subst tok. unfold signOffAll. cbn [fold_left bind].
      rewrite (signOff_linked a st ss s k c Hss Hs Hc Hl). cbn [bind snd].
      set (ss2 := set_connections (delete k (connectionsByTCP ss)) ss).
      set (st2 := mkStore _ _ _ _).
      destruct (IH st2 ss2 (snd (sim_SignOff k s)) Hnd)
        as (st' & ss' & s' & E & Hss' & Hsim & Hs' & Hnames & Hconn & Htoks).
      * apply lookup_insert_eq.
      * cbn [st2 simHeap ss2 set_connections sim]. apply lookup_insert_eq.
      * intros tcp tok Hin Hft.
        destruct (Hf tcp tok) as (c' & Hc' & Ht');
          [apply elem_of_cons; right; exact Hin | exact Hft |].
        exists c'. split; [|exact Ht'].
        cbn [ss2 set_connections connectionsByTCP].
        rewrite lookup_delete_ne; [exact Hc'|]. intros <-. contradiction.
      * intros tcp c' Hc'. cbn [ss2 set_connections connectionsByTCP] in Hc'.
        destruct (decide (k = tcp)) as [<-|Hne];
          [rewrite lookup_delete_eq in Hc'; discriminate|].
        rewrite lookup_delete_ne in Hc' by exact Hne.
        cbn [st2 sessionsByToken]. rewrite lookup_delete_ne; [exact (Hl _ _ Hc')|].
        intros Heq. pose proof (Hl _ _ Hc') as H1. pose proof (Hl _ _ Hc) as H2.
        rewrite <- Heq in H1. rewrite H1 in H2. injection H2 as H2. congruence.
      * exists st', ss', s'. split; [exact E|]. split; [exact Hss'|].
        split; [exact Hsim|]. split; [exact Hs'|]. split; [exact Hnames|].
        split.
        -- intros tcp. rewrite Hconn. cbn [ss2 set_connections connectionsByTCP].
           destruct (decide (tcp = k)) as [->|Hne].
           ++ rewrite (bool_decide_eq_true_2 (k ∈ k :: order))
                by (apply elem_of_cons; left; reflexivity).
              rewrite (bool_decide_eq_true_2 (is_Some (f k))) by (rewrite Hfk; eauto).
              rewrite lookup_delete_eq.
              destruct (bool_decide (k ∈ order) && _); reflexivity.
           ++ rewrite lookup_delete_ne by congruence.
              destruct (decide (tcp ∈ order)) as [Hin|Hnin].
              ** rewrite (bool_decide_eq_true_2 (tcp ∈ order)) by exact Hin.
                 rewrite (bool_decide_eq_true_2 (tcp ∈ k :: order));
                   [reflexivity|]. apply elem_of_cons. right. exact Hin.
              ** rewrite (bool_decide_eq_false_2 (tcp ∈ order)) by exact Hnin.
                 rewrite (bool_decide_eq_false_2 (tcp ∈ k :: order));
                   [reflexivity|].
                 intros [Heq|Hin]%elem_of_cons; [congruence|contradiction].
        -- intros t. rewrite Htoks. cbn [st2 sessionsByToken].
           destruct (decide (t = token c)) as [->|Hne].
           ++ rewrite (bool_decide_eq_true_2 (token c ∈ token c :: omap f order))
                by (apply elem_of_cons; left; reflexivity).
              rewrite lookup_delete_eq.
              destruct (bool_decide (token c ∈ omap f order)); reflexivity.
           ++ rewrite lookup_delete_ne by congruence.
              destruct (decide (t ∈ omap f order)) as [Hin|Hnin].
              ** rewrite (bool_decide_eq_true_2 (t ∈ omap f order)) by exact Hin.
                 rewrite bool_decide_eq_true_2; [reflexivity|].
                 apply elem_of_cons. right. exact Hin.
              ** rewrite (bool_decide_eq_false_2 (t ∈ omap f order)) by exact Hnin.
                 rewrite bool_decide_eq_false_2; [reflexivity|].
                 intros [Heq|Hin]%elem_of_cons; [congruence|contradiction].
    + destruct (IH st ss s Hnd Hss Hs)
        as (st' & ss' & s' & E & Hss' & Hsim & Hs' & Hnames & Hconn & Htoks).
      * intros tcp tok Hin Hft. apply (Hf tcp tok); [|exact Hft].
        apply elem_of_cons. right. exact Hin.
      * exact Hl.
      * exists st', ss', s'. split; [exact E|]. split; [exact Hss'|].
        split; [exact Hsim|]. split; [exact Hs'|]. split; [exact Hnames|].
        split; [|exact Htoks].
        intros tcp. rewrite Hconn. destruct (decide (tcp = k)) as [->|Hne].
        -- rewrite (bool_decide_eq_false_2 (k ∈ order)) by exact Hk.
           rewrite (bool_decide_eq_false_2 (is_Some (f k)))
             by (rewrite Hfk; intros [? ?]; discriminate).
           rewrite !andb_false_r. reflexivity.
        -- destruct (decide (tcp ∈ order)) as [Hin|Hnin].
           ++ rewrite (bool_decide_eq_true_2 (tcp ∈ order)) by exact Hin.
              rewrite (bool_decide_eq_true_2 (tcp ∈ k :: order)); [reflexivity|].
              apply elem_of_cons. right. exact Hin.
           ++ rewrite (bool_decide_eq_false_2 (tcp ∈ order)) by exact Hnin.
              rewrite (bool_decide_eq_false_2 (tcp ∈ k :: order)); [reflexivity|].
              intros [Heq|Hin]%elem_of_cons; [congruence|contradiction].
Qed.

Lemma culled_token now5 tcp c : token (culled now5 tcp c) = token c.
Proof. unfold culled. destruct (quiet5 now5 tcp c); reflexivity. Qed.

(** X20.  [CullIdleControllers] as a whole, for a session whose
    connections all have their tokens registered.  It returns without a
    panic.  A connection silent for more than five seconds at the first
    reading of the clock and more than fifteen at the second is gone
    afterwards, and so is its token; every other connection is still
    there, warned if it was silent for more than five seconds, with its
    token registered as before.  The tokens of other sessions and the
    registry of names are untouched. *)
Theorem cull_signs_off (now5 now15 : string -> Z) (order : list string)
    (a : addr) (st : Store) (ss : simSession) (s : Sim) :
  NoDup order ->
  (forall tcp, is_Some (connectionsByTCP ss !! tcp) -> tcp ∈ order) ->
  sessionHeap st !! a = Some ss ->
  simHeap st !! sim ss = Some s ->
  linked a ss st ->
  exists st' ss',
    CullIdleControllers now5 now15 order a st = Done st'
    /\ sessionHeap st' !! a = Some ss'
    /\ (forall tcp c,
          connectionsByTCP ss !! tcp = Some c ->
          if quiet5 now5 tcp c && quiet15 now15 tcp c
          then connectionsByTCP ss' !! tcp = None
               /\ sessionsByToken st' !! token c = None
          else connectionsByTCP ss' !! tcp
               = Some (if quiet5 now5 tcp c then set_warned true c else c)
               /\ sessionsByToken st' !! token c
                  = Some (mkControllerSession a tcp))
    /\ (forall t ctrl,
          sessionsByToken st !! t = Some ctrl -> session ctrl <> a ->
          sessionsByToken st' !! t = Some ctrl)
    /\ simSessions st' = simSessions st.
Proof.
  intros Hnd Hcover Hss Hs Hl.
  unfold CullIdleControllers, bind, deref. rewrite Hss, Hs.
  destruct (cull_fold now5 now15 order (connectionsByTCP ss) s [] Hnd)
    as (H1 & H2 & H3).
  destruct (fold_left (cullStep now5 now15) order (connectionsByTCP ss, s, []))
    as [[conns1 s1] toks]. cbn [fst snd app] in H1, H2, H3. subst toks.
  set (ss1 := set_connections conns1 ss).
  set (st1 := mkStore _ _ _ _).
  assert (Hconns1 : forall tcp c, connectionsByTCP ss !! tcp = Some c ->
                                  conns1 !! tcp = Some (culled now5 tcp c)).
  { intros tcp c Hc. rewrite H1, Hc.
    rewrite bool_decide_eq_true_2 by (apply Hcover; eauto). reflexivity. }
  assert (Hback : forall tcp c1, conns1 !! tcp = Some c1 ->
            exists c, connectionsByTCP ss !! tcp = Some c
                      /\ c1 = culled now5 tcp c).
  { intros tcp c1 Hc1. rewrite H1 in Hc1.
    destruct (connectionsByTCP ss !! tcp) as [c|] eqn:Hc; [|discriminate].
    rewrite bool_decide_eq_true_2 in Hc1 by (apply Hcover; eauto).
    injection Hc1 as <-. eauto. }
  destruct (signOffAll_linked a (collected now5 now15 (connectionsByTCP ss))
              order st1 ss1 s1 Hnd)
    as (st' & ss' & s' & E & Hss' & _ & _ & Hnames & Hconn & Htoks).
  { apply lookup_insert_eq. }
  { cbn [st1 simHeap ss1 set_connections sim]. apply lookup_insert_eq. }
  { intros tcp tok _ Hcol. unfold collected in Hcol.
    destruct (connectionsByTCP ss !! tcp) as [c|] eqn:Hc; [|discriminate].
    destruct (quiet5 now5 tcp c && quiet15 now15 tcp c); [|discriminate].
    injection Hcol as <-. exists (culled now5 tcp c).
    split; [exact (Hconns1 _ _ Hc) | apply culled_token]. }
  { intros tcp c1 Hc1. cbn [ss1 set_connections connectionsByTCP] in Hc1.
    destruct (Hback _ _ Hc1) as (c & Hc & ->).
    rewrite culled_token. exact (Hl _ _ Hc). }
  assert (Hin_toks : forall t,
            t ∈ omap (collected now5 now15 (connectionsByTCP ss)) order ->
            exists tcp c, connectionsByTCP ss !! tcp = Some c /\ token c = t
                          /\ quiet5 now5 tcp c && quiet15 now15 tcp c = true).
  { intros t Ht. apply list_elem_of_omap in Ht as (tcp & _ & Hcol).
    unfold collected in Hcol.
    destruct (connectionsByTCP ss !! tcp) as [c|] eqn:Hc; [|discriminate].
    destruct (quiet5 now5 tcp c && quiet15 now15 tcp c) eqn:Hq; [|discriminate].
    injection Hcol as <-. exists tcp, c. auto. }
  exists st', ss'. split; [exact E|]. split; [exact Hss'|].
  split; [|split; [|exact Hnames]].
  - intros tcp c Hc.
    assert (Hord : tcp ∈ order) by (apply Hcover; eauto).
    destruct (quiet5 now5 tcp c && quiet15 now15 tcp c) eqn:Hq.
    + assert (Hcol : collected now5 now15 (connectionsByTCP ss) tcp = Some (token c))
        by (unfold collected; rewrite Hc, Hq; reflexivity).
      split.
      * rewrite Hconn, (bool_decide_eq_true_2 _ Hord).
        rewrite bool_decide_eq_true_2 by (rewrite Hcol; eauto). reflexivity.
      * rewrite Htoks, bool_decide_eq_true_2; [reflexivity|].
        apply list_elem_of_omap. exists tcp. auto.
    + assert (Hcol : collected now5 now15 (connectionsByTCP ss) tcp = None)
        by (unfold collected; rewrite Hc, Hq; reflexivity).
      split.
      * rewrite Hconn, (bool_decide_eq_true_2 _ Hord).
        rewrite bool_decide_eq_false_2
          by (rewrite Hcol; intros [? ?]; discriminate).
        cbn [andb ss1 set_connections connectionsByTCP].
        exact (Hconns1 _ _ Hc).
      * rewrite Htoks, bool_decide_eq_false_2; [exact (Hl _ _ Hc)|].
        intros Hin. apply Hin_toks in Hin as (tcp' & c' & Hc' & Ht & Hq').
        pose proof (Hl _ _ Hc') as E1. rewrite Ht, (Hl _ _ Hc) in E1.
        injection E1 as E1. subst tcp'. rewrite Hc in Hc'. injection Hc' as <-.
        congruence.
  - intros t ctrl Ht Hne. rewrite Htoks, bool_decide_eq_false_2; [exact Ht|].
    intros Hin. apply Hin_toks in Hin as (tcp' & c' & Hc' & Ht' & _).
    pose proof (Hl _ _ Hc') as E1. rewrite Ht', Ht in E1.
    injection E1 as ->. apply Hne. reflexivity.
Qed.

(** *** A new sim and its first connection *)

Lemma NewSim_ok config rnd now st tok st' :
  NewSim config rnd now st = Done (None, tok, st') ->
  exists nsc s',
    makeSimConfiguration config = Some nsc
    /\ let p := fresh (dom (simHeap st)) in
       let a := fresh (dom (sessionHeap st)) in
       let primary := PrimaryController (sim_NewSim nsc) in
       st' = mkStore (<[NewSimName config := a]> (simSessions st))
               (<[tok := mkControllerSession a primary]> (sessionsByToken st))
               (<[a := mkSimSession (NewSimName config) (GroupName config)
                         (ScenarioName config) p (Password config)
                         (<[primary := mkConnectionState tok now false
                                         (DisableTextToSpeech config)]> ∅)]>
                  (<[a := mkSimSession (NewSimName config) (GroupName config)
                            (ScenarioName config) p (Password config) ∅]>
                     (sessionHeap st)))
               (<[p := s']>
                  (<[p := Activate (sim_NewSim nsc)]>
                     (<[p := sim_NewSim nsc]> (simHeap st)))).
Proof.
  unfold NewSim. destruct (makeSimConfiguration config) as [nsc|]; [|discriminate].
  unfold Add, bind, deref. cbn [sessionHeap simHeap].
  rewrite lookup_insert_eq. cbn [sim]. rewrite lookup_insert_eq.
  cbn [set_simHeap simSessions sessionsByToken sessionHeap simHeap name
       scenarioGroup scenario sim password connectionsByTCP].
  destruct (bool_decide _ && negb _); [discriminate|].
  destruct (signOn _ _ _ _ _) as [[err|tok'] s']; [discriminate|].
  intros H. injection H as <- <-. exists nsc. eexists. split; reflexivity.
Qed.

(** X26.  What [NewSim] leaves behind when it succeeds.  The session is
    a new object, registered under the name asked for, with the password
    given and one connection, that of the primary controller, made at
    the time of the call with the token returned; the token looks up to
    the primary controller and the session's sim.  Every other name,
    token and session is as it was.  [ConnectToSim] to that name then
    returns without a panic, never answers that there is no such sim,
    and does not refuse the password the sim was made with. *)
Theorem new_sim_connectable (config : NewSimConfiguration Other)
    (rnd : option string) (now : Z) (st st' : Store) (tok : string) :
  NewSim config rnd now st = Done (None, tok, st') ->
  exists nsc a ss,
    makeSimConfiguration config = Some nsc
    /\ sessionHeap st !! a = None
    /\ simSessions st' !! NewSimName config = Some a
    /\ sessionHeap st' !! a = Some ss
    /\ name ss = NewSimName config
    /\ password ss = Password config
    /\ (forall pos c,
          connectionsByTCP ss !! pos = Some c
          <-> pos = PrimaryController (sim_NewSim nsc)
              /\ c = mkConnectionState tok now false (DisableTextToSpeech config))
    /\ lookupController tok st'
       = Done (Some (PrimaryController (sim_NewSim nsc), sim ss))
    /\ (forall n, n <> NewSimName config ->
                  simSessions st' !! n = simSessions st !! n)
    /\ (forall t, t <> tok -> sessionsByToken st' !! t = sessionsByToken st !! t)
    /\ (forall a', a' <> a -> sessionHeap st' !! a' = sessionHeap st !! a')
    /\ (forall pw pos i d rnd' now',
          exists r st2,
            ConnectToSim (NewSimName config) pw pos i d rnd' now' st'
            = Done (r, st2)
            /\ r <> inl ErrNoNamedSim
            /\ (pw = Password config -> r <> inl ErrInvalidPassword)).
Proof.
  intros H. apply NewSim_ok in H as (nsc & s' & Hcfg & Hst). cbv zeta in Hst.
  set (p := fresh (dom (simHeap st))) in *.
  set (a := fresh (dom (sessionHeap st))) in *.
  set (primary := PrimaryController (sim_NewSim nsc)) in *.
  exists nsc, a. eexists. split; [exact Hcfg|].
  split; [apply not_elem_of_dom; apply is_fresh|].
  subst st'. cbn [simSessions sessionHeap sessionsByToken simHeap].
  split; [apply lookup_insert_eq|].
  split; [apply lookup_insert_eq|].
  cbn [name password connectionsByTCP sim].
  split; [reflexivity|]. split; [reflexivity|].
  split.
  { intros pos c. rewrite lookup_insert_Some, lookup_empty. split.
    - intros [[<- <-]|[_ Hc]]; [auto | discriminate].
    - intros [-> ->]. left. auto. }
  split.
  { unfold lookupController, bind, deref. cbn [sessionsByToken sessionHeap].
    rewrite lookup_insert_eq. cbn [session tcp]. rewrite lookup_insert_eq.
    reflexivity. }
  split; [intros n Hn; apply lookup_insert_ne; congruence|].
  split; [intros t Ht; apply lookup_insert_ne; congruence|].
  split; [intros a' Ha'; rewrite !lookup_insert_ne by congruence; reflexivity|].
  intros pw pos i d rnd' now'. unfold ConnectToSim, bind, deref.
  cbn [simSessions sessionHeap simHeap]. rewrite !lookup_insert_eq.
  cbn [password sim]. rewrite ?lookup_insert_eq.
  destruct (String.eqb_spec (Password config) "") as [Hp|Hp];
    destruct (String.eqb_spec pw (Password config)) as [Hq|Hq];
    cbn [negb andb].
  4:{ eexists _, _. split; [reflexivity|]. split; [discriminate|].
      intros Heq. contradiction. }
  all: destruct (signOn _ _ _ _ _) as [[err|tok'] s2];
    (eexists _, _; split; [reflexivity|]; split; [discriminate|];
     intros _; discriminate).
Qed.

End Manager.

(** ** A small registry to run the definitions on *)

(** A sim is its [lastUpdateTime]; signing on always succeeds. *)
Definition lastUpdateTime0 (s : Z) : Z := s.
Definition PrimaryController0 (s : Z) : string := "1A".
Definition Activate0 (s : Z) : Z := s.
Definition SignOn0 (position : string) (instructor disableTTS : bool) (s : Z)
  : option unit * Z := (None, s).
Definition Prespawn0 (s : Z) : Z := s.
Definition makeSimConfiguration0 (c : NewSimConfiguration unit) : option unit :=
  Some tt.
Definition sim_NewSim0 (c : unit) : Z := 0.

Definition names11 : list string :=
  ["a"; "b"; "c"; "d"; "e"; "f"; "g"; "h"; "i"; "j"; "k"].

(** Eleven sessions, registered as a to k, each with a sim of its own,
    last updated at time 0. *)
Definition store11 : @Store Z :=
  mkStore
    (list_to_map (zip names11 (seq 0%nat 11%nat)))
    ∅
    (list_to_map
       (List.map (fun i => (i, mkSimSession (nth i names11 "") "" "" i "" ∅))
                 (seq 0%nat 11%nat)))
    (list_to_map (List.map (fun i => (i, 0)) (seq 0%nat 11%nat))).

(** The same with a twelfth session, not registered, that asks for the
    name a. *)
Definition store11_new : @Store Z :=
  mkStore (simSessions store11) (sessionsByToken store11)
          (<[11%nat := mkSimSession "a" "" "" 11%nat "" ∅]> (sessionHeap store11))
          (<[11%nat := 7]> (simHeap store11)).

Lemma duplicate_name_rejected_witness :
  exists st',
    Add Activate0 SignOn0 Prespawn0 11%nat "1A" false true false (Some "tok") 0
        store11_new
    = Done (Some ErrDuplicateSimName, "", st')
    /\ simSessions st' = simSessions store11_new.
Proof.
  destruct (duplicate_name_rejected PrimaryController0 Activate0 SignOn0
              Prespawn0 makeSimConfiguration0 sim_NewSim0 store11_new)
    as (Hadd & _ & _).
  destruct (Hadd 11%nat "1A" false true false (Some "tok") 0
              (mkSimSession "a" "" "" 11%nat "" ∅) 7)
    as (st' & Heq & Hreg & _).
  - vm_compute. reflexivity.
  - vm_compute. reflexivity.
  - discriminate.
  - apply (bool_decide_unpack _). vm_compute. exact I.
  - exists st'. auto.
Defined.

(** Five hours on, all eleven sessions are idle.  The session a has ten
    other idle sessions around it, and [SimShouldExit] answers true for
    its sim. *)
Lemma exits_with_ten_others_idle :
  let now := 5 * Hour in
  simIdleLimit <= IdleTime lastUpdateTime0 now 0
  /\ length (other_idle_names lastUpdateTime0 (fun _ => now) store11 0%nat) = 10%nat
  /\ SimShouldExit lastUpdateTime0 now (fun _ => now) 0%nat store11 = Done true.
Proof.
  intros now. split; [vm_compute; congruence|].
  split; vm_compute; reflexivity.
Qed.

Lemma SimShouldExit_counts_all_witness :
  let now := 5 * Hour in
  SimShouldExit lastUpdateTime0 now (fun _ => now) 0%nat store11 = Done true
  /\ length (idle_names lastUpdateTime0 (fun _ => now) store11)
     = S (length (other_idle_names lastUpdateTime0 (fun _ => now) store11 0%nat)).
Proof.
  intros now.
  assert (Hwf : well_formed store11).
  { apply (bool_decide_unpack _). vm_compute. exact I. }
  assert (Hs : simHeap store11 !! 0%nat = Some 0) by (vm_compute; reflexivity).
  destruct (SimShouldExit_counts_all lastUpdateTime0 now (fun _ => now) 0%nat
              store11 0 Hwf Hs) as [Hexit Hcount].
  split.
  - rewrite Hexit. vm_compute. reflexivity.
  - vm_compute. reflexivity.
Defined.

(** ** Connections on the small registry *)

Definition sim_SignOff0 (position : string) (s : Z) : option unit * Z := (None, s).
Definition Destroy0 (s : Z) : Z := s.
Definition PostEvent0 (message : string) (s : Z) : Z := s.

Definition ConnectToSim0 := ConnectToSim SignOn0.

(** Position 2B connects to the session registered as a. *)
Definition store_connected : @Store Z :=
  match ConnectToSim0 "a" "" "2B" false false (Some "tok") 7 store11 with
  | Done (_, st) => st
  | Panic => store11
  end.

Lemma connect_store11 :
  ConnectToSim0 "a" "" "2B" false false (Some "tok") 7 store11
  = Done (inr "tok", store_connected).
Proof. vm_compute. reflexivity. Qed.

Lemma token_lifecycle_witness :
  sessionsByToken store_connected !! "other" = sessionsByToken store11 !! "other"
  /\ exists e st'',
       signOff sim_SignOff0 "tok" store_connected = Done (e, st'')
       /\ lookupController "tok" st'' = Done None.
Proof.
  destruct (token_lifecycle SignOn0 sim_SignOff0 "a" "" "2B" false false
              (Some "tok") 7 store11 store_connected "tok" connect_store11)
    as (a & ss & _ & _ & _ & Hother & e & st'' & Hoff & _ & Hlook & _).
  split; [apply Hother; discriminate|].
  exists e, st''. auto.
Defined.

Lemma connect_refused_witness :
  simSessions store_connected = simSessions store11.
Proof.
  exact (proj1 (proj2 (proj2 (proj2
           (connect_refused SignOn0 "a" "" "2B" false false (Some "tok") 7
              store11 store_connected (inr "tok") connect_store11))))).
Defined.

Lemma teardown_tokens_witness :
  exists st',
    teardown Destroy0 ["tok"] 0%nat store_connected = Done st'
    /\ lookupController "tok" st' = Done None.
Proof.
  eexists. split; [vm_compute; reflexivity|].
  refine (proj1 (proj2 (teardown_tokens Destroy0 ["tok"] 0%nat store_connected
                          _ _ _)) "tok" (mkControllerSession 0%nat "2B") _ _).
  - intros t [ctrl Ht].
    assert (Htoks : sessionsByToken store_connected
                    = {["tok" := mkControllerSession 0%nat "2B"]})
      by (vm_compute; reflexivity).
    rewrite Htoks in Ht. apply lookup_singleton_Some in Ht as [<- _].
    apply list_elem_of_singleton. reflexivity.
  - vm_compute. reflexivity.
  - vm_compute. reflexivity.
  - reflexivity.
Defined.

(** The connections of a session: 2B heard from at second 1, 3C at
    second 20; the clock stands at second 22. *)
Definition conns0 : gmap string connectionState :=
  {["2B" := mkConnectionState "tok2" (1 * SimCore.Second) false false;
    "3C" := mkConnectionState "tok3" (20 * SimCore.Second) false false]}.

Definition clock22 (tcp : string) : Z := 22 * SimCore.Second.

Lemma conns0_covered tcp : is_Some (conns0 !! tcp) -> tcp ∈ ["2B"; "3C"].
Proof.
  intros [c Hc]. unfold conns0 in Hc.
  apply lookup_insert_Some in Hc as [[<- _]|[_ Hc]].
  - apply elem_of_cons. left. reflexivity.
  - apply lookup_singleton_Some in Hc as [<- _].
    apply elem_of_cons. right. apply list_elem_of_singleton. reflexivity.
Qed.

Lemma order0_nodup : NoDup ["2B"; "3C"].
Proof.
  apply NoDup_cons. split; [|apply NoDup_singleton].
  intros H. apply list_elem_of_singleton in H. discriminate.
Qed.

Lemma cull_scan_witness :
  let r := fold_left (cullStep PostEvent0 clock22 clock22) ["2B"; "3C"]
             (conns0, 0, []) in
  fst (fst r) !! "3C"
  = Some (mkConnectionState "tok3" (20 * SimCore.Second) false false)
  /\ snd r = ["tok2"].
Proof.
  intros r.
  destruct (cull_scan PostEvent0 clock22 clock22 ["2B"; "3C"] conns0 0
              order0_nodup conns0_covered) as (H & _).
  split.
  - exact (H "3C" (mkConnectionState "tok3" (20 * SimCore.Second) false false)
             ltac:(vm_compute; reflexivity)).
  - vm_compute. reflexivity.
Defined.

(** The session a with the two connections, and their tokens. *)
Definition store_two : @Store Z :=
  mkStore (simSessions store11)
    {["tok2" := mkControllerSession 0%nat "2B";
      "tok3" := mkControllerSession 0%nat "3C"]}
    (<[0%nat := mkSimSession "a" "" "" 0%nat "" conns0]> (sessionHeap store11))
    (simHeap store11).

Lemma keep_alive_witness :
  exists st' ss',
    GotUpdateCallForTCP PostEvent0 (21 * SimCore.Second) "2B" 0%nat store_two
    = Done st'
    /\ sessionHeap st' !! 0%nat = Some ss'
    /\ connectionsByTCP ss' !! "2B"
       = Some (mkConnectionState "tok2" (21 * SimCore.Second) false false).
Proof.
  destruct (keep_alive PostEvent0 (21 * SimCore.Second) "2B" 0%nat store_two
              (mkSimSession "a" "" "" 0%nat "" conns0) 0) as [_ H].
  - vm_compute. reflexivity.
  - vm_compute. reflexivity.
  - destruct (H (mkConnectionState "tok2" (1 * SimCore.Second) false false))
      as (st' & ss' & E & Hss & Hc & _).
    + vm_compute. reflexivity.
    + exists st', ss'. auto.
Defined.

Lemma store_two_linked :
  linked 0%nat (mkSimSession "a" "" "" 0%nat "" conns0) store_two.
Proof.
  intros tcp c Hc. cbn [connectionsByTCP] in Hc. unfold conns0 in Hc.
  apply lookup_insert_Some in Hc as [[<- <-]|[_ Hc]].
  - vm_compute. reflexivity.
  - apply lookup_singleton_Some in Hc as [<- <-]. vm_compute. reflexivity.
Qed.

Lemma cull_signs_off_witness :
  exists st' ss',
    CullIdleControllers sim_SignOff0 PostEvent0 clock22 clock22 ["2B"; "3C"]
      0%nat store_two = Done st'
    /\ sessionHeap st' !! 0%nat = Some ss'
    /\ connectionsByTCP ss' !! "2B" = None
    /\ sessionsByToken st' !! "tok2" = None.
Proof.
  destruct (cull_signs_off sim_SignOff0 PostEvent0 clock22 clock22 ["2B"; "3C"]
              0%nat store_two (mkSimSession "a" "" "" 0%nat "" conns0) 0
              order0_nodup)
    as (st' & ss' & E & Hss & Hconn & _).
  - exact conns0_covered.
  - vm_compute. reflexivity.
  - vm_compute. reflexivity.
  - exact store_two_linked.
  - exists st', ss'. split; [exact E|]. split; [exact Hss|].
    exact (Hconn "2B" (mkConnectionState "tok2" (1 * SimCore.Second) false false)
             ltac:(vm_compute; reflexivity)).
Defined.

Lemma new_sim_connectable_witness :
  exists st' a,
    NewSim PrimaryController0 Activate0 SignOn0 Prespawn0
      makeSimConfiguration0 sim_NewSim0
      (mkNewSimConfiguration unit "l" "" "" "pw" false false tt) (Some "tok") 3
      store11 = Done (None, "tok", st')
    /\ simSessions st' !! "l" = Some a.
Proof.
  eexists. 
  destruct (new_sim_connectable PrimaryController0 Activate0 SignOn0 Prespawn0
              makeSimConfiguration0 sim_NewSim0
              (mkNewSimConfiguration unit "l" "" "" "pw" false false tt)
              (Some "tok") 3 store11 _ "tok" ltac:(vm_compute; reflexivity))
    as (nsc & a & ss & _ & _ & Hreg & _).
  exists a. split; [vm_compute; reflexivity | exact Hreg].
Defined.

End Manager.

(* ===================================================================== *)
(** * The command interpreter: pkg/server/dispatcher.go *)
(* ===================================================================== *)

Module Dispatcher.

Local Open Scope Z_scope.

(** ** Strings: the Go library functions the interpreter uses

    A Go string is a sequence of bytes, indexed by byte. *)

Definition len (s : string) : Z := Z.of_nat (String.length s).

(** [s[n:]] and [s[:n]], for [n] within the string. *)
Definition from (n : nat) (s : string) : string :=
  String.substring n (String.length s - n) s.

Definition upto (n : nat) (s : string) : string := String.substring 0 n s.

(** [s[len(s)-1]], for a string that is not empty. *)
Fixpoint last_byte (s : string) : ascii :=
  match s with
  | EmptyString => Ascii.zero
  | String c EmptyString => c
  | String _ rest => last_byte rest
  end.

(** [s[:len(s)-1]], for a string that is not empty. *)
Fixpoint but_last (s : string) : string :=
  match s with
  | EmptyString => EmptyString
  | String c EmptyString => EmptyString
  | String c rest => String c (but_last rest)
  end.

Definition is_digit (c : ascii) : bool :=
  (48 <=? Z.of_nat (nat_of_ascii c)) && (Z.of_nat (nat_of_ascii c) <=? 57).

(** The white space of [unicode.IsSpace], as bytes of UTF-8: the number of
    bytes of the space that starts [s], or 0.  Tab, line feed, vertical
    tab, form feed, carriage return, space; U+0085 and U+00A0; U+1680;
    U+2000 to U+200A, U+2028, U+2029, U+202F; U+205F; U+3000. *)
Definition space_width (s : string) : nat :=
  match s with
  | EmptyString => 0
  | String c rest =>
      let b := nat_of_ascii c in
      if ((9 <=? b) && (b <=? 13))%nat || (b =? 32)%nat then 1%nat
      else
        match rest with
        | EmptyString => 0
        | String c1 rest1 =>
            let b1 := nat_of_ascii c1 in
            if (b =? 194)%nat then
              if (b1 =? 133)%nat || (b1 =? 160)%nat then 2%nat else 0%nat
            else
              match rest1 with
              | EmptyString => 0
              | String c2 _ =>
                  let b2 := nat_of_ascii c2 in
                  if (b =? 225)%nat && (b1 =? 154)%nat && (b2 =? 128)%nat then 3%nat
                  else if (b =? 226)%nat && (b1 =? 128)%nat
                          && (((128 <=? b2) && (b2 <=? 138))%nat
                              || (b2 =? 168)%nat || (b2 =? 169)%nat
                              || (b2 =? 175)%nat) then 3%nat
                  else if (b =? 226)%nat && (b1 =? 129)%nat && (b2 =? 159)%nat then 3%nat
                  else if (b =? 227)%nat && (b1 =? 128)%nat && (b2 =? 128)%nat then 3%nat
                  else 0%nat
              end
        end
  end.

Definition flush (cur : string) : list string :=
  match cur with
  | EmptyString => []
  | _ => [cur]
  end.

(** [skip] counts the bytes still to pass of a space of several bytes;
    [cur] is the field read so far. *)
Fixpoint fields_from (s : string) (skip : nat) (cur : string) : list string :=
  match s with
  | EmptyString => flush cur
  | String c rest =>
      match skip with
      | S k => fields_from rest k cur
      | O =>
          match space_width s with
          | O => fields_from rest 0 (String.append cur (String c EmptyString))
          | S k => flush cur ++ fields_from rest k EmptyString
          end
      end
  end.

(** [strings.Fields]. *)
Definition Fields (s : string) : list string := fields_from s 0 EmptyString.

(** [strings.Join(l, " ")]. *)
Fixpoint Join (l : list string) : string :=
  match l with
  | [] => EmptyString
  | [x] => x
  | x :: rest => String.append x (String " " (Join rest))
  end.

(** [strings.Split(s, "/")]. *)
Fixpoint Split (s : string) : list string :=
  match s with
  | EmptyString => [EmptyString]
  | String c rest =>
      if Ascii.eqb c "/" then EmptyString :: Split rest
      else
        match Split rest with
        | [] => [String c EmptyString]
        | x :: xs => String c x :: xs
        end
  end.

(** ** [strconv.Atoi] *)

Inductive NumErrorKind : Type := ErrSyntax | ErrRange.

(** The loop of [ParseUint] in base 10 on 64 bits. *)
Fixpoint ParseUint_loop (s : string) (n : Z) : NumErrorKind + Z :=
  match s with
  | EmptyString => inr n
  | String c rest =>
      if is_digit c then
        if 1844674407370955162 <=? n then inl ErrRange
        else
          let n1 := n * 10 + (Z.of_nat (nat_of_ascii c) - 48) in
          if 2 ^ 64 - 1 <? n1 then inl ErrRange else ParseUint_loop rest n1
      else inl ErrSyntax
  end.

Definition ParseInt (s : string) : NumErrorKind + Z :=
  match s with
  | EmptyString => inl ErrSyntax
  | String c rest =>
      let neg := Ascii.eqb c "-" in
      let body := if Ascii.eqb c "+" || Ascii.eqb c "-" then rest else s in
      match body with
      | EmptyString => inl ErrSyntax
      | _ =>
          match ParseUint_loop body 0 with
          | inl e => inl e
          | inr un =>
              if negb neg && (2 ^ 63 <=? un) then inl ErrRange
              else if neg && (2 ^ 63 <? un) then inl ErrRange
              else inr (if neg then - un else un)
          end
      end
  end.

(** [Atoi] gives the number, or the kind of error; the error value also
    carries the string that was parsed. *)
Definition Atoi (s : string) : NumErrorKind + Z := ParseInt s.

(** ** Calls into the engine *)

(** [sim.HeadingArgs], without [TCP] and [Callsign]; [Turn] is the number
    of an [av.TurnMethod]. *)
Record HeadingArgs : Type := mkHeadingArgs {
  Heading : Z;
  Present : bool;
  LeftDegrees : Z;
  RightDegrees : Z;
  Turn : Z
}.

Inductive TransponderMode : Type := Standby | Altitude | On.

Record AircraftCommandsArgs : Type := mkArgs {
  ControllerToken : string;
  Callsign : string;
  Commands : string
}.

Record AircraftCommandsResult : Type := mkResult {
  ErrorMessage : string;
  RemainingInput : string
}.

Section Interpreter.

(** [F32] stands for float32, [Squawk] for [av.Squawk], [ExtError] for
    the errors that come out of packages aviation and sim, [SimState] for the
    state behind the [*sim.Sim] the token resolves to. *)
Context {F32 Squawk ExtError SimState : Type}.

(** [av.AltitudeRestriction]. *)
Record AltitudeRestriction : Type := mkAltitudeRestriction {
  Range0 : F32;
  Range1 : F32
}.

(** A method of [Sim] with its arguments, but for the controller position
    and the callsign, which are the same for every call. *)
Inductive Call : Type :=
| CancelApproachClearance
| ClimbViaSID
| ClearedApproach (approach : string) (straightIn : bool)
| CrossFixAt (fixname : string) (ar : option AltitudeRestriction) (speed : Z)
| AtFixCleared (fixname approach : string)
| AssignAltitude (altitude : Z) (afterSpeed : bool)
| DescendViaSTAR
| DepartFixDirect (fixa fixb : string)
| DepartFixHeading (fixname : string) (hdg : Z)
| DirectFix (fixname : string)
| ExpediteDescent
| ExpediteClimb
| ExpectApproach (approach : string)
| HandoffControl
| AssignHeading (args : HeadingArgs)
| InterceptLocalizer
| Ident
| AssignSpeed (kts : Z) (afterAltitude : bool)
| MaintainSlowestPractical
| MaintainMaximumForward
| SaySpeed
| ChangeTransponderMode (mode : TransponderMode)
| ChangeSquawk (sq : Squawk)
| SayHeading
| SayAltitude
| ContactTower
| DeleteAircraft.

Inductive error : Type :=
| ErrInvalidCommandSyntax
| ErrNum (num : string) (kind : NumErrorKind)
| ErrExt (e : ExtError).

(** ** What the interpreter calls in other packages *)

(** [x * 100] in float32. *)
Variable times100 : F32 -> F32.
Variable IsAllNumbers : string -> bool.
Variable ToUpper : string -> string.
Variable Quote : string -> string.
Variable ParseAltitudeRestriction : string -> ExtError + AltitudeRestriction.
Variable ParseSquawk : string -> ExtError + Squawk.
Variable Locate : SimState -> string -> bool.
Variable ExtError_Error : ExtError -> string.
Variable TurnClosest TurnLeft TurnRight : Z.

(** The engine: the method called for the controller position and the
    callsign, its error and the state it leaves. *)
Variable engine :
  string -> string -> Call -> SimState -> option ExtError * SimState.

(** [err.Error()]. *)
Definition Error (e : error) : string :=
  match e with
  | ErrInvalidCommandSyntax => "Invalid command syntax"
  | ErrNum num kind =>
      String.append "strconv.Atoi: parsing "
        (String.append (Quote num)
           (String.append ": "
              match kind with
              | ErrSyntax => "invalid syntax"
              | ErrRange => "value out of range"
              end))
  | ErrExt e => ExtError_Error e
  end.

(** [strconv.Atoi(s)] followed by [k] on the number, or by the error. *)
Definition with_Atoi (s : string) (k : Z -> error + Call) : error + Call :=
  match Atoi s with
  | inl kind => inl (ErrNum s kind)
  | inr n => k n
  end.

(** [100 * alt] on int. *)
Definition hundreds (alt : Z) : Z := SimCore.wrap64 (100 * alt).

(** The loop over the clauses after the fix of a cross-fix command. *)
Fixpoint cross_clauses (clauses : list string)
    (ar : option AltitudeRestriction) (speed : Z)
  : error + (option AltitudeRestriction * Z) :=
  match clauses with
  | [] => inr (ar, speed)
  | cmd :: rest =>
      match cmd with
      | EmptyString => inl ErrInvalidCommandSyntax
      | String c tail =>
          if Ascii.eqb c "A" && (1 <? len cmd) then
            match ParseAltitudeRestriction tail with
            | inl e => inl (ErrExt e)
            | inr r =>
                cross_clauses rest
                  (Some (mkAltitudeRestriction (times100 (Range0 r))
                                               (times100 (Range1 r))))
                  speed
            end
          else if Ascii.eqb c "S" then
            match Atoi tail with
            | inl kind => inl (ErrNum tail kind)
            | inr n => cross_clauses rest ar n
            end
          else inl ErrInvalidCommandSyntax
      end
  end.

Definition heading (h turn : Z) : HeadingArgs := mkHeadingArgs h false 0 0 turn.
Definition left_degrees (d : Z) : HeadingArgs := mkHeadingArgs 0 false d 0 0.
Definition right_degrees (d : Z) : HeadingArgs := mkHeadingArgs 0 false 0 d 0.

(** The body of [switch command[0]] up to the call of the engine: the
    method that the command asks for, or the error it stops with.
    [tail] is [command[1:]]. *)
Definition interpret_AC (command : string) (c : ascii) (tail : string)
  : error + Call :=
  if String.eqb command "CAC" then inr CancelApproachClearance
  else if String.eqb command "CVS" then inr ClimbViaSID
  else if (4 <? len command) && String.eqb (upto 3 command) "CSI"
          && negb (IsAllNumbers (from 3 command))
  then inr (ClearedApproach (from 3 command) true)
  else if Ascii.eqb c "C" && (2 <? len command) && negb (IsAllNumbers tail) then
    match Split command with
    | first :: ((_ :: _) as clauses) =>
        match cross_clauses clauses None 0 with
        | inl e => inl e
        | inr (ar, speed) => inr (CrossFixAt (from 1 first) ar speed)
        end
    | _ => inr (ClearedApproach tail false)
    end
  else if Ascii.eqb c "A" then
    match Split command with
    | [first; String "C" approach] =>
        inr (AtFixCleared (ToUpper (from 1 first)) approach)
    | _ => inl ErrInvalidCommandSyntax
    end
  else with_Atoi tail (fun alt => inr (AssignAltitude (hundreds alt) false)).

Definition interpret_D (s : SimState) (command tail : string) : error + Call :=
  if String.eqb command "DVS" then inr DescendViaSTAR
  else
    match Split command with
    | first :: String c1 (String c2 r2) :: _ =>
        let fixname := from 1 first in
        if Ascii.eqb c1 "D" then inr (DepartFixDirect fixname (String c2 r2))
        else if Ascii.eqb c1 "H" then
          with_Atoi (String c2 r2) (fun hdg => inr (DepartFixHeading fixname hdg))
        else inl ErrInvalidCommandSyntax
    | _ =>
        match tail with
        | String c1 _ =>
            if is_digit c1 then
              with_Atoi tail (fun alt => inr (AssignAltitude (hundreds alt) false))
            else if Locate s tail then inr (DirectFix tail)
            else inl ErrInvalidCommandSyntax
        | EmptyString =>
            if Locate s tail then inr (DirectFix tail)
            else inl ErrInvalidCommandSyntax
        end
    end.

Definition interpret_S (command tail : string) : error + Call :=
  if len command =? 1 then inr (AssignSpeed 0 false)
  else if String.eqb command "SMIN" then inr MaintainSlowestPractical
  else if String.eqb command "SMAX" then inr MaintainMaximumForward
  else if String.eqb command "SS" then inr SaySpeed
  else if String.eqb command "SQS" then inr (ChangeTransponderMode Standby)
  else if String.eqb command "SQA" then inr (ChangeTransponderMode Altitude)
  else if String.eqb command "SQON" then inr (ChangeTransponderMode On)
  else if (len command =? 6) && String.eqb (upto 2 command) "SQ" then
    match ParseSquawk (from 2 command) with
    | inl e => inl (ErrExt e)
    | inr sq => inr (ChangeSquawk sq)
    end
  else if String.eqb command "SH" then inr SayHeading
  else if String.eqb command "SA" then inr SayAltitude
  else with_Atoi tail (fun kts => inr (AssignSpeed kts false)).

Definition interpret_T (command tail : string) : error + Call :=
  if String.eqb command "TO" then inr ContactTower
  else if 2 <? len command then
    let by_prefix :=
      if String.eqb (upto 2 command) "TS" then
        with_Atoi (from 2 command) (fun kts => inr (AssignSpeed kts true))
      else if String.eqb (upto 2 command) "TA"
              || String.eqb (upto 2 command) "TC"
              || String.eqb (upto 2 command) "TD" then
        with_Atoi (from 2 command)
                  (fun alt => inr (AssignAltitude (hundreds alt) true))
      else inl ErrInvalidCommandSyntax in
    match Atoi (but_last tail) with
    | inr deg =>
        if Ascii.eqb (last_byte command) "L" then inr (AssignHeading (left_degrees deg))
        else if Ascii.eqb (last_byte command) "R" then
          inr (AssignHeading (right_degrees deg))
        else by_prefix
    | inl _ => by_prefix
    end
  else inl ErrInvalidCommandSyntax.

(** The index expression [command[0]] panics on an empty command. *)
Definition interpret (s : SimState) (command : string) : outcome (error + Call) :=
  match command with
  | EmptyString => Panic
  | String c tail =>
      Done
        (if Ascii.eqb c "A" || Ascii.eqb c "C" then interpret_AC command c tail
         else if Ascii.eqb c "D" then interpret_D s command tail
         else if Ascii.eqb c "E" then
           if String.eqb command "ED" then inr ExpediteDescent
           else if String.eqb command "EC" then inr ExpediteClimb
           else if 1 <? len command then inr (ExpectApproach tail)
           else inl ErrInvalidCommandSyntax
         else if Ascii.eqb c "F" then
           if String.eqb command "FC" then inr HandoffControl
           else inl ErrInvalidCommandSyntax
         else if Ascii.eqb c "H" then
           if len command =? 1
           then inr (AssignHeading (mkHeadingArgs 0 true 0 0 0))
           else with_Atoi tail
                  (fun hdg => inr (AssignHeading (heading hdg TurnClosest)))
         else if Ascii.eqb c "I" then
           if len command =? 1 then inr InterceptLocalizer
           else if String.eqb command "ID" then inr Ident
           else inl ErrInvalidCommandSyntax
         else if Ascii.eqb c "L" then
           if (2 <? len command) && Ascii.eqb (last_byte command) "D" then
             with_Atoi (but_last tail)
                       (fun deg => inr (AssignHeading (left_degrees deg)))
           else with_Atoi tail
                  (fun hdg => inr (AssignHeading (heading hdg TurnLeft)))
         else if Ascii.eqb c "R" then
           if (2 <? len command) && Ascii.eqb (last_byte command) "D" then
             with_Atoi (but_last tail)
                       (fun deg => inr (AssignHeading (right_degrees deg)))
           else with_Atoi tail
                  (fun hdg => inr (AssignHeading (heading hdg TurnRight)))
         else if Ascii.eqb c "S" then interpret_S command tail
         else if Ascii.eqb c "T" then interpret_T command tail
         else if Ascii.eqb c "X" then inr DeleteAircraft
         else inl ErrInvalidCommandSyntax)
  end.

(** The call of the engine for one command; what [DeleteAircraft]
    returns is dropped. *)
Definition perform (tcp callsign : string) (call : Call) (s : SimState)
  : option ExtError * SimState :=
  match call with
  | DeleteAircraft => (None, snd (engine tcp callsign call s))
  | _ => engine tcp callsign call s
  end.

(** [rewriteError], with [commands[i:]] as [remaining]. *)
Definition rewriteError (err : error) (remaining : list string)
    (result : AircraftCommandsResult) : AircraftCommandsResult :=
  mkResult (Error err) (Join remaining).

(** The loop [for i, command := range commands], from index [i] on, where
    [commands[i:]] is [remaining]. *)
Fixpoint run (tcp callsign : string) (remaining : list string)
    (result : AircraftCommandsResult) (s : SimState)
  : outcome (AircraftCommandsResult * SimState) :=
  match remaining with
  | [] => Done (result, s)
  | command :: rest =>
      match interpret s command with
      | Panic => Panic
      | Done (inl err) => Done (rewriteError err remaining result, s)
      | Done (inr call) =>
          match perform tcp callsign call s with
          | (Some e, s') => Done (rewriteError (ErrExt e) remaining result, s')
          | (None, s') => run tcp callsign rest result s'
          end
      end
  end.

Inductive rpc_error : Type := ErrNoSimForControllerToken.

(** [RunAircraftCommands].  [tcp] is the controller position that
    [LookupController] finds for the token, if any, and [s] the state of
    the sim it finds.  The function gives the error it returns, the
    result structure and the state of the sim. *)
Definition RunAircraftCommands (tcp : option string) (cmds : AircraftCommandsArgs)
    (result : AircraftCommandsResult) (s : SimState)
  : outcome (option rpc_error * AircraftCommandsResult * SimState) :=
  match tcp with
  | None => Done (Some ErrNoSimForControllerToken, result, s)
  | Some tcp =>
      match run tcp (Callsign cmds) (Fields (Commands cmds)) result s with
      | Panic => Panic
      | Done (result', s') => Done (None, result', s')
      end
  end.

(** ** Strings and numbers *)

Lemma flush_nonempty cur : Forall (fun t => t <> EmptyString) (flush cur).
Proof. destruct cur; simpl; [constructor|]. repeat constructor. discriminate. Qed.

Lemma fields_from_nonempty s skip cur :
  Forall (fun t => t <> EmptyString) (fields_from s skip cur).
Proof.
  revert skip cur. induction s as [|c rest IH]; intros skip cur.
  - apply flush_nonempty.
  - cbn [fields_from]. destruct skip as [|k]; [|apply IH].
    destruct (space_width (String c rest)) as [|k]; [apply IH|].
    apply Forall_app. split; [apply flush_nonempty | apply IH].
Qed.

(** The fields that [strings.Fields] gives are not empty. *)
Lemma Fields_nonempty s : Forall (fun t => t <> EmptyString) (Fields s).
Proof. apply fields_from_nonempty. Qed.






Fixpoint all_digits (s : string) : bool :=
  match s with
  | EmptyString => true
  | String c rest => is_digit c && all_digits rest
  end.


(** A string that [Atoi] takes is a sign or a digit followed by digits,
    with a digit at least. *)
Definition is_sign (c : ascii) : bool := Ascii.eqb c "+" || Ascii.eqb c "-".



(** A byte that starts a number is none of the letters and marks that
    the interpreter looks for. *)
Definition starts_number (c : ascii) : bool := is_digit c || is_sign c.











(** ** Running the commands *)

(** The commands run one after the other, none stopping with an error,
    and take the sim from the first state to the second. *)
Inductive all_applied (tcp callsign : string)
  : list string -> SimState -> SimState -> Prop :=
| applied_nil s : all_applied tcp callsign [] s s
| applied_cons command rest call s s1 s2 :
    interpret s command = Done (inr call) ->
    perform tcp callsign call s = (None, s1) ->
    all_applied tcp callsign rest s1 s2 ->
    all_applied tcp callsign (command :: rest) s s2.

(** The command stops with [err]: either it is malformed, and the sim is
    left as it was, or the engine refuses it. *)
Definition fails (tcp callsign command : string) (s : SimState) (err : error)
    (s' : SimState) : Prop :=
  (interpret s command = Done (inl err) /\ s' = s)
  \/ exists call e,
      interpret s command = Done (inr call)
      /\ perform tcp callsign call s = (Some e, s')
      /\ err = ErrExt e.

Lemma interpret_nonempty s command :
  command <> EmptyString -> exists r, interpret s command = Done r.
Proof. destruct command; [contradiction|]. intros _. eexists. reflexivity. Qed.

Lemma run_spec tcp callsign commands result s :
  Forall (fun t => t <> EmptyString) commands ->
  exists result' s',
    run tcp callsign commands result s = Done (result', s')
    /\ ((all_applied tcp callsign commands s s' /\ result' = result)
        \/ exists applied command rest err s1,
            commands = applied ++ command :: rest
            /\ all_applied tcp callsign applied s s1
            /\ fails tcp callsign command s1 err s'
            /\ result' = mkResult (Error err) (Join (command :: rest))).
Proof.
  intros Hne. revert s.
  induction Hne as [|command rest Hc Hrest IH]; intros s.
  - exists result, s. split; [reflexivity|]. left. split; [constructor|reflexivity].
  - destruct (interpret_nonempty s command Hc) as [r Hr].
    cbn [run]. rewrite Hr. destruct r as [err|call].
    + eexists _, s. split; [reflexivity|]. right.
      exists [], command, rest, err, s. split; [reflexivity|].
      split; [constructor|]. split; [left; auto | reflexivity].
    + destruct (perform tcp callsign call s) as [[e|] s1] eqn:Hp.
      * eexists _, s1. split; [reflexivity|]. right.
        exists [], command, rest, (ErrExt e), s. split; [reflexivity|].
        split; [constructor|]. split; [|reflexivity].
        right. exists call, e. auto.
      * destruct (IH s1) as (result' & s' & Hrun & Hcases).
        exists result', s'. split; [exact Hrun|].
        destruct Hcases as [[Hall ->]|(applied & c & r & err & s2 & -> & Hall & Hf & ->)].
        -- left. split; [|reflexivity]. econstructor; eassumption.
        -- right. exists (command :: applied), c, r, err, s2.
           split; [reflexivity|]. split; [econstructor; eassumption|]. auto.
Qed.

(** C3.  With the token resolved, [RunAircraftCommands] returns no error
    of its own.  Either all the fields of the command string have been
    applied, in order, and the result structure is as it was; or the
    fields before some field have been applied, in order, that field has
    failed, nothing after it has been run, and the result structure holds
    the message of its error and that field and the ones after it, joined
    by spaces.  For "H090 S250 ZZZ", if the engine takes the heading
    and then the speed, they are applied and the result holds the
    message of the syntax error and "ZZZ". *)
Theorem commands_stop_at_first_failure (tcp : string) :
  (forall cmds result s,
      exists result' s',
        RunAircraftCommands (Some tcp) cmds result s = Done (None, result', s')
        /\ ((all_applied tcp (Callsign cmds) (Fields (Commands cmds)) s s'
             /\ result' = result)
            \/ exists applied command rest err s1,
                Fields (Commands cmds) = applied ++ command :: rest
                /\ all_applied tcp (Callsign cmds) applied s s1
                /\ fails tcp (Callsign cmds) command s1 err s'
                /\ result' = mkResult (Error err) (Join (command :: rest))))
  /\ (forall token callsign result s s1 s2,
        engine tcp callsign (AssignHeading (heading 90 TurnClosest)) s = (None, s1) ->
        engine tcp callsign (AssignSpeed 250 false) s1 = (None, s2) ->
        RunAircraftCommands (Some tcp) (mkArgs token callsign "H090 S250 ZZZ")
                            result s
        = Done (None, mkResult "Invalid command syntax" "ZZZ", s2)).
Proof.
  split.
  - intros cmds result s. unfold RunAircraftCommands.
    destruct (run_spec tcp (Callsign cmds) (Fields (Commands cmds)) result s
                (Fields_nonempty _)) as (result' & s' & Hrun & Hcases).
    exists result', s'. rewrite Hrun. auto.
  - intros token callsign result s s1 s2 Hh Hs. unfold RunAircraftCommands.
    cbn [Callsign Commands].
    change (Fields "H090 S250 ZZZ") with ["H090"; "S250"; "ZZZ"].
    cbn [run].
    change (interpret s "H090")
      with (Done (inr (AssignHeading (heading 90 TurnClosest)) : error + Call)).
    cbn [perform]. rewrite Hh.
    change (interpret s1 "S250")
      with (Done (inr (AssignSpeed 250 false) : error + Call)).
    cbn [perform]. rewrite Hs.
    change (interpret s2 "ZZZ")
      with (Done (inl ErrInvalidCommandSyntax : error + Call)).
    reflexivity.
Qed.

(** ** Numbers in commands *)

#[local] Arguments Atoi : simpl never.
#[local] Arguments with_Atoi : simpl never.
#[local] Arguments hundreds : simpl never.
#[local] Arguments len : simpl never.
#[local] Arguments Split : simpl never.
#[local] Arguments from : simpl never.
#[local] Arguments last_byte : simpl never.
#[local] Arguments but_last : simpl never.



(** [Atoi] takes no string that starts with a letter. *)
Lemma Atoi_letter c rest :
  starts_number c = false -> Atoi (String c rest) = inl ErrSyntax.
Proof.
  unfold starts_number, is_sign. intros H.
  apply orb_false_iff in H as [Hd Hs]. apply orb_false_iff in Hs as [Hp Hm].
  unfold Atoi, ParseInt. rewrite Hp, Hm. cbn [orb ParseUint_loop]. rewrite Hd.
  reflexivity.
Qed.



















(** ** Splitting what was joined *)

(** What follows a field in a string made by [Join]: nothing, or the
    separating space. *)
Definition ends_field (z : string) : Prop :=
  z = EmptyString \/ exists r, z = String " " r.

(** No white space starts inside [t] when [t] is followed by [z]. *)
Definition unbroken (t z : string) : Prop :=
  forall u v, t = String.append u v -> v <> EmptyString ->
    space_width (String.append v z) = 0%nat.

(** A field as [Join] needs it: not empty, and without white space
    wherever it is put in front of a space or at the end. *)
Definition whole (t : string) : Prop :=
  t <> EmptyString /\ forall z, ends_field z -> unbroken t z.

Lemma append_nil_l t : String.append EmptyString t = t.
Proof. reflexivity. Qed.

Lemma append_String c s t :
  String.append (String c s) t = String c (String.append s t).
Proof. reflexivity. Qed.

Lemma append_nil_r s : String.append s EmptyString = s.
Proof.
  induction s as [|c s IH]; [reflexivity|]. rewrite append_String, IH. reflexivity.
Qed.

Lemma append_assoc s1 s2 s3 :
  String.append (String.append s1 s2) s3 = String.append s1 (String.append s2 s3).
Proof.
  induction s1 as [|c s1 IH]; [reflexivity|].
  rewrite !append_String, IH. reflexivity.
Qed.

Lemma space_width_transfer v z z' :
  v <> EmptyString -> space_width (String.append v z) = 0%nat ->
  ends_field z' -> space_width (String.append v z') = 0%nat.
Proof.
  destruct v as [|c v']; [contradiction|]. intros _ H Hz'.
  rewrite append_String in *. cbn [space_width] in *.
  destruct ((9 <=? nat_of_ascii c)%nat && (nat_of_ascii c <=? 13)%nat
            || (nat_of_ascii c =? 32)%nat); [discriminate|].
  destruct v' as [|c1 v''].
  - rewrite append_nil_l in *.
    destruct Hz' as [->|[r ->]]; [reflexivity|].
    change (nat_of_ascii " ") with 32%nat. cbn [Nat.eqb orb].
    destruct (nat_of_ascii c =? 194)%nat; [reflexivity|].
    destruct r as [|c2 r]; [reflexivity|].
    rewrite !andb_false_r. cbn [andb]. reflexivity.
  - rewrite append_String in *.
    destruct (nat_of_ascii c =? 194)%nat; [exact H|].
    destruct v'' as [|c2 v3]; [|rewrite append_String in *; exact H].
    rewrite append_nil_l in *.
    destruct Hz' as [->|[r ->]]; [reflexivity|].
    change (nat_of_ascii " ") with 32%nat.
    cbn [Nat.eqb Nat.leb andb orb]. rewrite !andb_false_r. reflexivity.
Qed.

Lemma fields_from_unbroken t z cur :
  unbroken t z ->
  fields_from (String.append t z) 0 cur = fields_from z 0 (String.append cur t).
Proof.
  revert cur. induction t as [|c t IH]; intros cur Hun.
  - rewrite append_nil_l, append_nil_r. reflexivity.
  - pose proof (Hun EmptyString (String c t) eq_refl ltac:(discriminate)) as H0.
    rewrite append_String in *. cbn [fields_from]. rewrite H0.
    rewrite IH.
    + rewrite append_assoc. reflexivity.
    + intros u v -> Hv. apply (Hun (String c u) v); [reflexivity | exact Hv].
Qed.

(** A suffix of [cur] followed by one more byte: either that byte alone
    or a suffix of [cur] that is not empty, followed by it. *)
Lemma suffix_snoc cur c u v :
  String.append cur (String c EmptyString) = String.append u v ->
  v <> EmptyString ->
  v = String c EmptyString
  \/ exists v0, v = String.append v0 (String c EmptyString)
                /\ v0 <> EmptyString /\ cur = String.append u v0.
Proof.
  revert cur. induction u as [|a u IHu]; intros cur Huv Hv.
  - rewrite append_nil_l in Huv. subst v.
    destruct cur as [|b cur]; [left; reflexivity|].
    right. exists (String b cur). split; [reflexivity|].
    split; [discriminate | reflexivity].
  - destruct cur as [|b cur].
    + rewrite append_nil_l, append_String in Huv. injection Huv as _ Huv.
      destruct u as [|a' u].
      * rewrite append_nil_l in Huv. subst v. contradiction.
      * rewrite append_String in Huv. discriminate.
    + rewrite !append_String in Huv. injection Huv as -> Huv.
      destruct (IHu cur Huv Hv) as [->|(v0 & -> & Hv0 & ->)];
        [left; reflexivity|].
      right. exists v0. split; [reflexivity|]. split; [exact Hv0 | reflexivity].
Qed.

(** The fields that [fields_from] gives are whole, when the one being
    read is unbroken so far. *)
Lemma fields_from_whole s skip cur :
  (cur = EmptyString \/ (skip = 0%nat /\ unbroken cur s)) ->
  Forall whole (fields_from s skip cur).
Proof.
  assert (Hflush : forall cur z, unbroken cur z -> Forall whole (flush cur)).
  { intros c0 z Hun. destruct c0 as [|a c0]; cbn [flush]; [constructor|].
    constructor; [|constructor]. split; [discriminate|].
    intros z' Hz' u v Huv Hv.
    exact (space_width_transfer v z z' Hv (Hun u v Huv Hv) Hz'). }
  revert skip cur. induction s as [|c rest IH]; intros skip cur Hcur.
  - cbn [fields_from]. destruct Hcur as [->|[_ Hun]]; [constructor|].
    exact (Hflush _ _ Hun).
  - cbn [fields_from]. destruct skip as [|k].
    + destruct (space_width (String c rest)) as [|k] eqn:Hw.
      * apply IH. right. split; [reflexivity|].
        intros u v Huv Hv.
        destruct (suffix_snoc cur c u v Huv Hv) as [->|(v0 & -> & Hv0 & Hcur0)].
        -- rewrite append_String, append_nil_l. exact Hw.
        -- rewrite append_assoc, append_String, append_nil_l.
           destruct Hcur as [->|[_ Hun]].
           ++ destruct u; destruct v0; try discriminate. contradiction.
           ++ apply (Hun u v0); [exact Hcur0 | exact Hv0].
      * apply Forall_app. split.
        -- destruct Hcur as [->|[_ Hun]]; [constructor|]. exact (Hflush _ _ Hun).
        -- apply IH. left. reflexivity.
    + destruct Hcur as [->|[Hk _]]; [|discriminate]. apply IH. left. reflexivity.
Qed.

Lemma Fields_whole s : Forall whole (Fields s).
Proof. apply fields_from_whole. left. reflexivity. Qed.

Lemma Fields_Join_whole toks : Forall whole toks -> Fields (Join toks) = toks.
Proof.
  induction 1 as [|x rest [Hx Hun] Hrest IH]; [reflexivity|].
  destruct rest as [|y rest].
  - cbn [Join]. unfold Fields.
    rewrite <- (append_nil_r x) at 1.
    rewrite fields_from_unbroken by (apply Hun; left; reflexivity).
    rewrite append_nil_l. cbn [fields_from].
    destruct x; [contradiction|reflexivity].
  - change (Join (x :: y :: rest))
      with (String.append x (String " " (Join (y :: rest)))).
    unfold Fields.
    rewrite fields_from_unbroken by (apply Hun; right; eauto).
    rewrite append_nil_l. cbn [fields_from].
    change (space_width (String " " (Join (y :: rest)))) with 1%nat.
    cbv iota. fold (Fields (Join (y :: rest))). rewrite IH.
    destruct x; [contradiction|reflexivity].
Qed.

(** X21.  What [strings.Join] makes of the fields of a string, or of the
    fields from some index on, splits under [strings.Fields] into those
    same fields again. *)
Theorem Fields_Join_round_trip (commands : string) (i : nat) :
  Fields (Join (drop i (Fields commands))) = drop i (Fields commands).
Proof.
  apply Fields_Join_whole. apply Forall_drop. apply Fields_whole.
Qed.

Lemma run_app tcp callsign applied rest result s s1 :
  all_applied tcp callsign applied s s1 ->
  run tcp callsign (applied ++ rest) result s = run tcp callsign rest result s1.
Proof.
  induction 1 as [s|command applied call s s1 s2 Hi Hp Hall IH]; [reflexivity|].
  cbn [app run]. rewrite Hi, Hp. exact IH.
Qed.

(** X22.  A command that cannot be read stops the run where the sim
    stands, and sending the remaining input again gives the same answer:
    from the state the run ended in, [RunAircraftCommands] on
    [RemainingInput] runs nothing, leaves the sim as it is and returns
    the same error message and the same remaining input. *)
Theorem remaining_input_resubmitted (tcp : string) (cmds : AircraftCommandsArgs)
    (result : AircraftCommandsResult) (s s1 : SimState)
    (applied rest : list string) (command : string) (err : error) :
  Fields (Commands cmds) = applied ++ command :: rest ->
  all_applied tcp (Callsign cmds) applied s s1 ->
  interpret s1 command = Done (inl err) ->
  let result' := mkResult (Error err) (Join (command :: rest)) in
  RunAircraftCommands (Some tcp) cmds result s = Done (None, result', s1)
  /\ forall token result0,
      RunAircraftCommands (Some tcp)
        (mkArgs token (Callsign cmds) (RemainingInput result')) result0 s1
      = Done (None, result', s1).
Proof.
  intros Hf Hall Herr result'.
  assert (Hstop : forall result0,
            run tcp (Callsign cmds) (command :: rest) result0 s1
            = Done (result', s1)).
  { intros result0. cbn [run]. rewrite Herr. reflexivity. }
  split.
  - unfold RunAircraftCommands. rewrite Hf, (run_app _ _ _ _ _ _ _ Hall), Hstop.
    reflexivity.
  - intros token result0. unfold RunAircraftCommands.
    cbn [Callsign Commands RemainingInput result'].
    assert (Hdrop : command :: rest
                    = drop (length applied) (Fields (Commands cmds))).
    { rewrite Hf, drop_app_length. reflexivity. }
    rewrite Hdrop, Fields_Join_whole by (apply Forall_drop, Fields_whole).
    rewrite <- Hdrop, Hstop. reflexivity.
Qed.

(** The first letters the interpreter knows. *)
Definition command_letters : list ascii :=
  ["A"; "C"; "D"; "E"; "F"; "H"; "I"; "L"; "R"; "S"; "T"; "X"]%char.

Lemma interpret_unknown_letter s c tail :
  existsb (Ascii.eqb c) command_letters = false ->
  interpret s (String c tail) = Done (inl ErrInvalidCommandSyntax).
Proof.
  cbn [existsb command_letters]. intros H.
  repeat (apply orb_false_iff in H as [?H H]).
  cbn [interpret].
  repeat match goal with
         | Hx : Ascii.eqb c _ = false |- _ => rewrite Hx; clear Hx
         end.
  reflexivity.
Qed.

Lemma Fields_spaces_only commands :
  (forall k, (k < String.length commands)%nat ->
             String.get k commands = Some " "%char) ->
  Fields commands = [].
Proof.
  unfold Fields. induction commands as [|c rest IH]; intros H; [reflexivity|].
  pose proof (H 0%nat ltac:(cbn; lia)) as H0. cbn in H0. injection H0 as ->.
  cbn [fields_from]. change (space_width (String " " rest)) with 1%nat.
  cbv iota. cbn [flush app]. apply IH.
  intros k Hk. exact (H (S k) ltac:(cbn; lia)).
Qed.

(** X23.  What the interpreter does not take.  A command string of
    spaces only runs nothing: the result structure and the sim stay as
    they were.  And when the first field starts with a byte that is not
    one of the letters A C D E F H I L R S T X (a lower-case letter, a
    digit), nothing is run either: the sim stays as it was and the
    result holds "Invalid command syntax" and all the fields, joined by
    spaces. *)
Theorem nothing_to_run (tcp : string) (cmds : AircraftCommandsArgs)
    (result : AircraftCommandsResult) (s : SimState) :
  ((forall k, (k < String.length (Commands cmds))%nat ->
              String.get k (Commands cmds) = Some " "%char) ->
   RunAircraftCommands (Some tcp) cmds result s = Done (None, result, s))
  /\ (forall c tail rest,
        Fields (Commands cmds) = String c tail :: rest ->
        existsb (Ascii.eqb c) command_letters = false ->
        RunAircraftCommands (Some tcp) cmds result s
        = Done (None,
                mkResult "Invalid command syntax" (Join (Fields (Commands cmds))),
                s)).
Proof.
  split.
  - intros H. unfold RunAircraftCommands.
    rewrite (Fields_spaces_only _ H). reflexivity.
  - intros c tail rest Hf Hc. unfold RunAircraftCommands. rewrite Hf.
    cbn [run]. rewrite (interpret_unknown_letter s c tail Hc). reflexivity.
Qed.

End Interpreter.

(** ** A small engine to run the interpreter on *)

(** The state of the sim is the list of the calls made so far, and the
    engine takes every call.  Altitude restrictions are whole numbers,
    read by [Atoi] ("at" restrictions only). *)
Definition times100_0 (x : Z) : Z := 100 * x.
Definition ToUpper0 (s : string) : string := s.
Definition Quote0 (s : string) : string := s.
Definition ParseAltitudeRestriction0 (s : string)
  : string + @AltitudeRestriction Z :=
  match Atoi s with
  | inr n => inr (mkAltitudeRestriction n n)
  | inl _ => inl "invalid altitude restriction"
  end.
Definition ParseSquawk0 (s : string) : string + string := inr s.
Definition Locate0 (log : list (@Call Z string)) (name : string) : bool := false.
Definition ExtError_Error0 (e : string) : string := e.
Definition engine0 (tcp callsign : string) (call : @Call Z string)
    (log : list (@Call Z string)) : option string * list (@Call Z string) :=
  (None, log ++ [call]).


Definition RunAircraftCommands0 (commands : string)
  : outcome (option rpc_error * AircraftCommandsResult * list (@Call Z string)) :=
  RunAircraftCommands times100_0 all_digits ToUpper0 Quote0
    ParseAltitudeRestriction0 ParseSquawk0 Locate0 ExtError_Error0 0 1 2 engine0
    (Some "1A") (mkArgs "token" "AAL12" commands) (mkResult "" "") [].

Example fields_of_spaces :
  Fields (String.append " C50" (String.append (String "009"%char "") "D30  "))
  = ["C50"; "D30"].
Proof. vm_compute. reflexivity. Qed.

Example run_altitudes :
  RunAircraftCommands0 "C50 D30 TA120 CWAVEY/A50/S210"
  = Done (None, mkResult "" "",
          [AssignAltitude 5000 false; AssignAltitude 3000 false;
           AssignAltitude 12000 true;
           CrossFixAt "WAVEY" (Some (mkAltitudeRestriction 5000 5000)) 210]).
Proof. vm_compute. reflexivity. Qed.

Example run_headings_and_speeds :
  RunAircraftCommands0 "H090 L270 R10D T20L S250 TS180 DWAVEY/H040"
  = Done (None, mkResult "" "",
          [AssignHeading (heading 90 0); AssignHeading (heading 270 1);
           AssignHeading (right_degrees 10); AssignHeading (left_degrees 20);
           AssignSpeed 250 false; AssignSpeed 180 true;
           DepartFixHeading "WAVEY" 40]).
Proof. vm_compute. reflexivity. Qed.

(** A followed by a number is not an altitude: the A commands are "at
    fix cleared approach" only. *)
Example run_A_number :
  RunAircraftCommands0 "S250 A50 H090"
  = Done (None, mkResult "Invalid command syntax" "A50 H090",
          [AssignSpeed 250 false]).
Proof. vm_compute. reflexivity. Qed.

Example run_bad_number :
  RunAircraftCommands0 "H09O S250"
  = Done (None, mkResult "strconv.Atoi: parsing 09O: invalid syntax" "H09O S250",
          []).
Proof. vm_compute. reflexivity. Qed.

Lemma commands_stop_at_first_failure_witness :
  RunAircraftCommands0 "H090 S250 ZZZ"
  = Done (None, mkResult "Invalid command syntax" "ZZZ",
          [AssignHeading (heading 90 0); AssignSpeed 250 false]).
Proof.
  destruct (commands_stop_at_first_failure times100_0 all_digits ToUpper0 Quote0
              ParseAltitudeRestriction0 ParseSquawk0 Locate0 ExtError_Error0
              0 1 2 engine0 "1A") as [_ Hex].
  apply (Hex "token" "AAL12" (mkResult "" "") []
             [AssignHeading (heading 90 0)]
             [AssignHeading (heading 90 0); AssignSpeed 250 false]);
    reflexivity.
Defined.


Lemma remaining_input_resubmitted_witness :
  RunAircraftCommands times100_0 all_digits ToUpper0 Quote0
    ParseAltitudeRestriction0 ParseSquawk0 Locate0 ExtError_Error0 0 1 2 engine0
    (Some "1A") (mkArgs "again" "AAL12" "ZZZ S250") (mkResult "" "")
    [AssignHeading (heading 90 0)]
  = Done (None, mkResult "Invalid command syntax" "ZZZ S250",
          [AssignHeading (heading 90 0)]).
Proof.
  refine (proj2 (remaining_input_resubmitted times100_0 all_digits ToUpper0 Quote0
                   ParseAltitudeRestriction0 ParseSquawk0 Locate0 ExtError_Error0
                   0 1 2 engine0 "1A" (mkArgs "token" "AAL12" "H090 ZZZ S250")
                   (mkResult "" "") [] [AssignHeading (heading 90 0)]
                   ["H090"] ["S250"] "ZZZ" ErrInvalidCommandSyntax _ _ _)
            "again" (mkResult "" "")).
  - vm_compute. reflexivity.
  - eapply applied_cons; [| |apply applied_nil]; vm_compute; reflexivity.
  - vm_compute. reflexivity.
Defined.

Lemma nothing_to_run_witness :
  RunAircraftCommands0 "   " = Done (None, mkResult "" "", []).
Proof.
  apply (proj1 (nothing_to_run times100_0 all_digits ToUpper0 Quote0
                  ParseAltitudeRestriction0 ParseSquawk0 Locate0 ExtError_Error0
                  0 1 2 engine0 "1A" (mkArgs "token" "AAL12" "   ")
                  (mkResult "" "") [])).
  intros [|[|[|k]]] Hk; cbn in *; try reflexivity. lia.
Defined.

End Dispatcher.

(* ===================================================================== *)
(** * Text to speech: the quota of pkg/server/manager.go *)
(* ===================================================================== *)

Module TTS.

Local Open Scope Z_scope.

(** [ttsUsageStats]; the counters are of type int. *)
Record ttsUsageStats : Type := mkUsage {
  Calls : Z;
  Words : Z;
  LastUsed : Z
}.

Definition errCapacity : string := "TTS capacity exceeded".
Definition errNotAvailable : string := "TTS not available".

(** [len(strings.Fields(text))]. *)
Definition words (text : string) : Z :=
  Z.of_nat (length (Dispatcher.Fields text)).

(** [UpdateTTSUsage], with the clock at [now].  The entry is reached
    through a pointer kept in the map, so the map sees the new counters
    also when the error is returned.  A new entry starts from zero; its
    [LastUsed] is written before anything can read it. *)
Definition UpdateTTSUsage (now : Z) (ip text : string)
    (usage : gmap string ttsUsageStats)
  : option string * gmap string ttsUsageStats :=
  let stats := default (mkUsage 0 0 0) (usage !! ip) in
  let stats' :=
    mkUsage (SimCore.wrap64 (Calls stats + 1))
            (SimCore.wrap64 (Words stats + words text)) now in
  (if 30000 <? Words stats' then Some errCapacity else None,
   <[ip := stats']> usage).

Definition bucket (clientIP : string) : string :=
  if String.eqb clientIP "" then "unknown" else clientIP.

(** [TextToSpeech] up to the call of the provider: the error it returns
    before that call, if any, and the usage map.  [available] says
    whether [sm.tts] is there. *)
Definition TextToSpeech (available : bool) (now : Z) (clientIP text : string)
    (usage : gmap string ttsUsageStats)
  : option string * gmap string ttsUsageStats :=
  if negb available then (Some errNotAvailable, usage)
  else if 50 <? words text then (Some errCapacity, usage)
  else UpdateTTSUsage now (bucket clientIP) text usage.

(** A run of requests, each with its clock, client and text. *)
Fixpoint requests (available : bool) (reqs : list (Z * string * string))
    (usage : gmap string ttsUsageStats)
  : list (option string) * gmap string ttsUsageStats :=
  match reqs with
  | [] => ([], usage)
  | (now, clientIP, text) :: rest =>
      let '(e, usage1) := TextToSpeech available now clientIP text usage in
      let '(es, usage2) := requests available rest usage1 in
      (e :: es, usage2)
  end.

(** The words counted so far for a client. *)
Definition counted (ip : string) (usage : gmap string ttsUsageStats) : Z :=
  Words (default (mkUsage 0 0 0) (usage !! ip)).

Lemma words_nonneg text : 0 <= words text.
Proof. unfold words. lia. Qed.

Lemma TextToSpeech_counted available now clientIP text usage ip :
  0 <= counted ip usage ->
  counted ip usage + 50 < 2 ^ 63 ->
  let r := TextToSpeech available now clientIP text usage in
  counted ip usage <= counted ip (snd r) <= counted ip usage + 50
  /\ (ip <> bucket clientIP -> snd r !! ip = usage !! ip)
  /\ (ip = bucket clientIP ->
      (fst r = None
       <-> available = true /\ words text <= 50
           /\ counted ip usage + words text <= 30000)).
Proof.
  intros H0 Hmax. unfold TextToSpeech.
  destruct available; cbn [negb].
  2:{ cbn [fst snd]. split; [lia|]. split; [reflexivity|].
      intros _. split; [discriminate | intros [? _]; discriminate]. }
  pose proof (words_nonneg text) as Hw.
  destruct (Z.ltb_spec 50 (words text)) as [Hlong|Hshort].
  { cbn [fst snd]. split; [lia|]. split; [reflexivity|].
    intros _. split; [discriminate | intros (_ & ? & _); lia]. }
  unfold UpdateTTSUsage. cbn [fst snd Words].
  destruct (decide (ip = bucket clientIP)) as [->|Hne].
  - unfold counted in *. rewrite lookup_insert_eq.
    change (Words (default (mkUsage 0 0 0) (Some ?x))) with (Words x).
    cbn [Words].
    set (w0 := Words (default (mkUsage 0 0 0) (usage !! bucket clientIP))) in *.
    rewrite !(SimCore.wrap64_small (w0 + words text)) by lia.
    split; [lia|]. split; [intros Hn; contradiction|]. intros _.
    destruct (Z.ltb_spec 30000 (w0 + words text)) as [Hover|Hok].
    + split; [discriminate | intros (_ & _ & ?); lia].
    + split; [intros _; auto | reflexivity].
  - unfold counted. rewrite lookup_insert_ne by congruence.
    split; [lia|]. split; [reflexivity | intros Heq; contradiction].
Qed.

(** X24.  The quota of text to speech.  A request is admitted exactly
    when the provider is there, the text has no more than 50 words and
    the words counted for its client, with those of the text, stay
    within 30000; clients are counted apart, requests without a client
    address under "unknown".  The count of a client never goes down, so
    once it has passed 30000 every later request of that client is
    refused, however short. *)
Theorem tts_quota (available : bool) (reqs : list (Z * string * string))
    (usage : gmap string ttsUsageStats) (ip : string) :
  0 <= counted ip usage ->
  counted ip usage + 50 * Z.of_nat (length reqs) < 2 ^ 63 ->
  (forall now clientIP text rest,
      reqs = (now, clientIP, text) :: rest ->
      let r := TextToSpeech available now clientIP text usage in
      (ip <> bucket clientIP -> snd r !! ip = usage !! ip)
      /\ (ip = bucket clientIP ->
          (fst r = None
           <-> available = true /\ words text <= 50
               /\ counted ip usage + words text <= 30000)))
  /\ counted ip usage <= counted ip (snd (requests available reqs usage))
  /\ (30000 < counted ip usage ->
      forall k now clientIP text,
        reqs !! k = Some (now, clientIP, text) ->
        ip = bucket clientIP ->
        exists e, fst (requests available reqs usage) !! k = Some (Some e)).
Proof.
  intros H0 Hmax. split; [|].
  { intros now clientIP text rest ->. cbn [length] in Hmax.
    destruct (TextToSpeech_counted available now clientIP text usage ip H0)
      as (_ & H2 & H3); [lia|]. split; assumption. }
  revert usage H0 Hmax.
  induction reqs as [|[[now clientIP] text] rest IH]; intros usage H0 Hmax.
  { cbn. split; [lia|]. intros _ k ? ? ? Hk. rewrite lookup_nil in Hk.
    discriminate. }
  cbn [length] in Hmax. cbn [requests].
  destruct (TextToSpeech_counted available now clientIP text usage ip H0)
    as (Hgrow & _ & Hadm); [lia|].
  destruct (TextToSpeech available now clientIP text usage) as [e usage1]
    eqn:Hstep. cbn [fst snd] in Hgrow, Hadm.
  destruct (IH usage1) as [Hmono Hrefused]; [lia | lia |].
  destruct (requests available rest usage1) as [es usage2]. cbn [fst snd] in *.
  split; [lia|].
  intros Hover [|k] now' clientIP' text' Hk Hip.
  - cbn in Hk. injection Hk as <- <- <-. cbn.
    destruct e as [e|]; [eauto|].
    exfalso. destruct (proj1 (Hadm Hip) eq_refl) as (_ & _ & Hle).
    pose proof (words_nonneg text). lia.
  - cbn in Hk |- *. apply (Hrefused ltac:(lia) k now' clientIP' text' Hk Hip).
Qed.

Lemma tts_quota_witness :
  let usage : gmap string ttsUsageStats := {["10.0.0.1" := mkUsage 7 30001 5]} in
  exists e,
    fst (requests true [(6, "10.0.0.1", "cleared to land")] usage) !! 0%nat
    = Some (Some e).
Proof.
  intros usage.
  refine (proj2 (proj2 (tts_quota true [(6, "10.0.0.1", "cleared to land")]
                          usage "10.0.0.1" _ _)) _ 0%nat 6 "10.0.0.1"
            "cleared to land" eq_refl eq_refl).
  - vm_compute. discriminate.
  - vm_compute. reflexivity.
  - vm_compute. reflexivity.
Defined.

End TTS.

(* ===================================================================== *)
(** * Errors over RPC: pkg/server/errors.go *)
(* ===================================================================== *)

Module Errors.

(** The errors of package server. *)
Inductive serverError : Type :=
| ErrControllerAlreadySignedIn
| ErrDuplicateSimName
| ErrInvalidCommandSyntax
| ErrInvalidControllerToken
| ErrInvalidPassword
| ErrInvalidSSimConfiguration
| ErrNoNamedSim
| ErrNoSimForControllerToken
| ErrRPCTimeout
| ErrRPCVersionMismatch
| ErrServerDisconnected.

Definition serverMessage (e : serverError) : string :=
  match e with
  | ErrControllerAlreadySignedIn => "Controller with that callsign already signed in"
  | ErrDuplicateSimName => "A sim with that name already exists"
  | ErrInvalidCommandSyntax => "Invalid command syntax"
  | ErrInvalidControllerToken => "Invalid controller token"
  | ErrInvalidPassword => "Invalid password"
  | ErrInvalidSSimConfiguration => "Invalid SimConfiguration"
  | ErrNoNamedSim => "No Sim with that name"
  | ErrNoSimForControllerToken => "No Sim running for controller token"
  | ErrRPCTimeout => "RPC call timed out"
  | ErrRPCVersionMismatch => "Client and server RPC versions don't match"
  | ErrServerDisconnected => "Server disconnected"
  end.

Definition serverErrors : list serverError :=
  [ErrControllerAlreadySignedIn; ErrDuplicateSimName; ErrInvalidCommandSyntax;
   ErrInvalidControllerToken; ErrInvalidPassword; ErrInvalidSSimConfiguration;
   ErrNoNamedSim; ErrNoSimForControllerToken; ErrRPCTimeout;
   ErrRPCVersionMismatch; ErrServerDisconnected].

Section Table.

(** [Package] stands for the error values of packages aviation and sim
    that the table lists, [packageMessage] for their texts and
    [packageErrors] for them in the order of the table; [Foreign] for
    any other error value, with its text. *)
Context {Package Foreign : Type}.
Variable packageMessage : Package -> string.
Variable foreignMessage : Foreign -> string.
Variable packageErrors : list Package.

Inductive error : Type :=
| OfPackage (e : Package)
| OfServer (e : serverError)
| Other (e : Foreign).

(** [e.Error()]. *)
Definition Error (e : error) : string :=
  match e with
  | OfPackage e => packageMessage e
  | OfServer e => serverMessage e
  | Other e => foreignMessage e
  end.

(** The entries of the map literal, in its order; each key is the text
    of its value. *)
Definition entries : list error :=
  List.map OfPackage packageErrors ++ List.map OfServer serverErrors.

(** [errorStringToError]: the entries are put into the map one after
    the other, a later one replacing an earlier one with the same
    text. *)
Definition errorStringToError : gmap string error :=
  fold_left (fun m e => <[Error e := e]> m) entries ∅.

(** [TryDecodeError]; [None] is the nil error. *)
Definition TryDecodeError (e : option error) : option error :=
  match e with
  | None => None
  | Some e =>
      match errorStringToError !! Error e with
      | Some err => Some err
      | None => Some e
      end
  end.

Definition TryDecodeErrorString (s : string) : option error :=
  errorStringToError !! s.

Lemma fold_insert_lookup (l : list error) (m : gmap string error) k e :
  fold_left (fun m e => <[Error e := e]> m) l m !! k = Some e ->
  (e ∈ l /\ Error e = k) \/ m !! k = Some e.
Proof.
  revert m. induction l as [|x l IH]; intros m H; cbn [fold_left] in H.
  - right. exact H.
  - apply IH in H as [[Hin Hk]|H].
    + left. split; [apply elem_of_cons; right; exact Hin | exact Hk].
    + destruct (decide (Error x = k)) as [Hx|Hx].
      * rewrite Hx, lookup_insert_eq in H. injection H as <-.
        left. split; [apply elem_of_cons; left; reflexivity | exact Hx].
      * rewrite lookup_insert_ne in H by exact Hx. right. exact H.
Qed.

Lemma fold_insert_last (l1 l2 : list error) (m : gmap string error) e :
  (forall x, x ∈ l2 -> Error x = Error e -> x = e) ->
  fold_left (fun m e => <[Error e := e]> m) (l1 ++ e :: l2) m !! Error e = Some e.
Proof.
  intros Hlast. rewrite fold_left_app. cbn [fold_left].
  generalize (fold_left (fun m e => <[Error e := e]> m) l1 m). intros m1.
  assert (Hkeep : forall (l : list error) (m0 : gmap string error),
             (forall x, x ∈ l -> Error x = Error e -> x = e) ->
             m0 !! Error e = Some e ->
             fold_left (fun m e => <[Error e := e]> m) l m0 !! Error e = Some e).
  { induction l as [|x l IH]; intros m0 Hl Hm; [exact Hm|].
    cbn [fold_left]. apply IH.
    - intros y Hy. apply Hl. apply elem_of_cons. right. exact Hy.
    - destruct (decide (Error x = Error e)) as [Hx|Hx].
      + rewrite (Hl x (proj2 (elem_of_cons _ _ _) (or_introl eq_refl)) Hx).
        apply lookup_insert_eq.
      + rewrite lookup_insert_ne by exact Hx. exact Hm. }
  apply Hkeep; [exact Hlast | apply lookup_insert_eq].
Qed.

Lemma serverMessage_inj e1 e2 : serverMessage e1 = serverMessage e2 -> e1 = e2.
Proof. destruct e1, e2; intros H; first [reflexivity | discriminate H]. Qed.

Lemma table_sound k e : errorStringToError !! k = Some e -> Error e = k.
Proof.
  intros H. apply fold_insert_lookup in H as [[_ Hk]|H]; [exact Hk|].
  rewrite lookup_empty in H. discriminate.
Qed.

(** X25.  Decoding the errors that come back over RPC.  The text of
    each of the eleven errors of package server decodes to that very
    error, whatever the texts of the errors of the other packages are.
    Decoding never changes the text of an error, and decoding what has
    been decoded changes nothing; an error whose text is not in the
    table is returned as it is, and a string that is not in the table
    decodes to nil. *)
Theorem decode_errors :
  (forall e : serverError,
      TryDecodeErrorString (serverMessage e) = Some (OfServer e)
      /\ TryDecodeError (Some (OfServer e)) = Some (OfServer e))
  /\ (forall e e', TryDecodeError (Some e) = Some e' -> Error e' = Error e)
  /\ (forall e, TryDecodeError (TryDecodeError e) = TryDecodeError e)
  /\ (forall e, errorStringToError !! Error e = None ->
                TryDecodeError (Some e) = Some e)
  /\ (forall s, (forall e, e ∈ entries -> Error e <> s) ->
                TryDecodeErrorString s = None).
Proof.
  assert (Hserver : forall e : serverError,
             errorStringToError !! serverMessage e = Some (OfServer e)).
  { intros e. unfold errorStringToError, entries.
    assert (Hin : exists l1 l2, serverErrors = l1 ++ e :: l2).
    { apply list_elem_of_split. apply list_elem_of_In.
      destruct e; cbn; tauto. }
    destruct Hin as (l1 & l2 & Hsplit). rewrite Hsplit, List.map_app.
    cbn [List.map]. rewrite app_assoc.
    apply (fold_insert_last _ _ ∅ (OfServer e)).
    intros x Hx Hmsg. apply list_elem_of_In, in_map_iff in Hx as (y & <- & _).
    cbn [Error] in Hmsg. apply serverMessage_inj in Hmsg. subst y. reflexivity. }
  split; [|split; [|split; [|split]]].
  - intros e. split; [apply Hserver|].
    cbn [TryDecodeError Error]. rewrite Hserver. reflexivity.
  - intros e e' H. cbn [TryDecodeError] in H.
    destruct (errorStringToError !! Error e) as [err|] eqn:Hl.
    + injection H as <-. exact (table_sound _ _ Hl).
    + injection H as <-. reflexivity.
  - intros [e|]; [|reflexivity]. cbn [TryDecodeError].
    destruct (errorStringToError !! Error e) as [err|] eqn:Hl.
    + cbn [TryDecodeError]. rewrite (table_sound _ _ Hl), Hl. reflexivity.
    + cbn [TryDecodeError]. rewrite Hl. reflexivity.
  - intros e Hl. cbn [TryDecodeError]. rewrite Hl. reflexivity.
  - intros s Hs. unfold TryDecodeErrorString.
    destruct (errorStringToError !! s) as [e|] eqn:Hl; [|reflexivity].
    exfalso. unfold errorStringToError in Hl.
    apply fold_insert_lookup in Hl as [[Hin Hk]|Hl].
    + exact (Hs e Hin Hk).
    + rewrite lookup_empty in Hl. discriminate.
Qed.

End Table.

End Errors.
